(** * The component loader: a verification development

    The loader fetches named markup fragments, caches them, renders a small
    template syntax into them and injects the result into a host document,
    one injection at a time per target.  This file embeds the loader's
    methods as Rocq functions and transition systems and proves the
    properties its specification states about them.

    Strings are sequences of code units; the model keeps the code units
    0..255, which is where every character the loader inspects lives. *)

From Stdlib Require Import ZArith List Ascii String Lia Bool.
From Stdlib Require Import DecimalString DecimalZ DecimalPos.
From stdpp Require Import gmap strings list fin_maps.

Local Open Scope list_scope.
Set Warnings "-register-all".

(** ** Strings of the host language *)

Abbreviation jsstring := (list ascii).

Definition lit (s : string) : jsstring := list_ascii_of_string s.

Definition quote : ascii := ascii_of_nat 34.
Definition apostrophe : ascii := ascii_of_nat 39.
Definition nbsp : ascii := ascii_of_nat 160.

Definition ascii_eqb (a b : ascii) : bool := Ascii.eqb a b.

(** White space and line terminators, as [String.prototype.trim] strips
    them (the ones among the code units 0..255). *)
Definition is_ws (c : ascii) : bool :=
  let n := nat_of_ascii c in
  (n =? 9) || (n =? 10) || (n =? 11) || (n =? 12) || (n =? 13) || (n =? 32)
  || (n =? 160).

Fixpoint trimStart (s : jsstring) : jsstring :=
  match s with
  | [] => []
  | c :: r => if is_ws c then trimStart r else s
  end.

Definition trimEnd (s : jsstring) : jsstring := rev (trimStart (rev s)).

(** [s.trim()] *)
Definition trim (s : jsstring) : jsstring := trimEnd (trimStart s).

Fixpoint split_go (sep : ascii) (s cur : jsstring) : list jsstring :=
  match s with
  | [] => [rev cur]
  | c :: r =>
      if ascii_eqb c sep then rev cur :: split_go sep r []
      else split_go sep r (c :: cur)
  end.

(** [s.split(sep)] for a one-character separator. *)
Definition split (sep : ascii) (s : jsstring) : list jsstring :=
  split_go sep s [].

(** [s.includes(c)] and [s.startsWith(c)] for a one-character argument. *)
Definition includes (c : ascii) (s : jsstring) : bool := existsb (ascii_eqb c) s.

Definition startsWith (c : ascii) (s : jsstring) : bool :=
  match s with
  | [] => false
  | d :: _ => ascii_eqb d c
  end.

(** ** Values that template data holds *)

(** [VHost repr] stands for any value of another kind (a number, a function
    found on a prototype); [repr] is what [String(value)] gives for it. *)
Inductive value : Type :=
| VUndefined
| VNull
| VBool (b : bool)
| VString (s : jsstring)
| VHost (repr : jsstring)
| VObject (props : list (jsstring * value)).

Definition is_undefined (v : value) : bool :=
  match v with
  | VUndefined => true
  | _ => false
  end.

Fixpoint own_property (prop : jsstring) (props : list (jsstring * value))
  : option value :=
  match props with
  | [] => None
  | (k, v) :: rest =>
      if decide (k = prop) then Some v else own_property prop rest
  end.

(** [String(value)]; nothing when the conversion throws.  An object is
    converted by its [toString] and [valueOf] methods, own or inherited,
    and those are the host's to run: [host_string props] is the string they
    give for the object with the own properties [props], and nothing when
    neither gives a primitive (a [TypeError]) or one of them throws. *)
Definition String_of (host_string : list (jsstring * value) -> option jsstring)
  (v : value) : option jsstring :=
  match v with
  | VUndefined => Some (lit "undefined")
  | VNull => Some (lit "null")
  | VBool true => Some (lit "true")
  | VBool false => Some (lit "false")
  | VString s => Some s
  | VHost repr => Some repr
  | VObject props => host_string props
  end.

(** ** The regular expression of the template syntax

    [/\{\{([^}]+)\}\}/g]: two opening braces, a non-empty run of characters
    other than a closing brace, two closing braces.  The run is greedy and a
    closing brace must follow it, so the only candidate at a position is the
    longest run. *)

Definition is_open (c : ascii) : bool := ascii_eqb c "{".
Definition is_close (c : ascii) : bool := ascii_eqb c "}".

Fixpoint span_key (s : jsstring) : jsstring * jsstring :=
  match s with
  | [] => ([], [])
  | c :: r =>
      if is_close c then ([], s)
      else let (k, rest) := span_key r in (c :: k, rest)
  end.

(** The capture group of a match that starts at the head of [s]. *)
Definition match_at (s : jsstring) : option jsstring :=
  match s with
  | c1 :: c2 :: r =>
      if is_open c1 && is_open c2 then
        match span_key r with
        | (k, d1 :: d2 :: _) =>
            if is_close d1 && is_close d2 then
              match k with
              | [] => None
              | _ => Some k
              end
            else None
        | _ => None
        end
      else None
  | _ => None
  end.

Definition placeholder (key : jsstring) : jsstring :=
  lit "{{" ++ key ++ lit "}}".

(** [s.replace(re, f)] with the global flag: the text is scanned from left
    to right, a match is replaced by [f match key] and scanning goes on
    after it; [skip] counts the characters of the current match still to
    pass over.  When [f] throws, so does the replacement. *)
Fixpoint replace_go (f : jsstring -> jsstring -> option jsstring) (skip : nat)
  (s : jsstring) : option jsstring :=
  match s with
  | [] => Some []
  | c :: r =>
      match skip with
      | S n => replace_go f n r
      | O =>
          match match_at s with
          | Some key =>
              match f (placeholder key) key with
              | Some out =>
                  match replace_go f (length key + 3) r with
                  | Some tail => Some (out ++ tail)
                  | None => None
                  end
              | None => None
              end
          | None =>
              match replace_go f 0 r with
              | Some tail => Some (c :: tail)
              | None => None
              end
          end
      end
  end.

Definition replace_all (f : jsstring -> jsstring -> option jsstring)
  (s : jsstring) : option jsstring := replace_go f 0 s.

(** [div.textContent = text; return div.innerHTML]: the host serialises a
    text node by writing the ampersand, the two angle brackets and the
    no-break space as entities, and every other character as it is. *)
Definition escape_char (c : ascii) : jsstring :=
  if ascii_eqb c "&" then lit "&amp;"
  else if ascii_eqb c "<" then lit "&lt;"
  else if ascii_eqb c ">" then lit "&gt;"
  else if ascii_eqb c nbsp then lit "&nbsp;"
  else [c].

Definition serialize_text (text : jsstring) : jsstring :=
  flat_map escape_char text.

(** ** The template engine of the full loader *)

Module Full.
Section Host.

(** What the host yields for a property that is not an own property of an
    object: the prototype chain, the length and the indices of a string. *)
Variable host_get : value -> jsstring -> value.

(** What the host makes of an object that is to be a string. *)
Variable host_string : list (jsstring * value) -> option jsstring.

(** [current?.[prop]] *)
Definition get_prop (current : value) (prop : jsstring) : value :=
  match current with
  | VUndefined | VNull => VUndefined
  | VObject props =>
      match own_property prop props with
      | Some v => v
      | None => host_get current prop
      end
  | _ => host_get current prop
  end.

Definition _getNestedValue (obj : value) (path : jsstring) : value :=
  fold_left get_prop (split "." path) obj.

Definition _escapeHtml (text : jsstring) : jsstring := serialize_text text.

(** The callback handed to [replace]. *)
Definition substitute (data : list (jsstring * value)) (m key : jsstring)
  : option jsstring :=
  let trimmedKey := trim key in
  let v := _getNestedValue (VObject data) trimmedKey in
  if is_undefined v then Some m
  else option_map _escapeHtml (String_of host_string v).

Definition _processTemplate (html : jsstring) (data : list (jsstring * value))
  : option jsstring :=
  match data with
  | [] => Some html
  | _ => replace_all (substitute data) html
  end.

End Host.
End Full.

(** ** The template engine of the earlier, reduced loader *)

Module Reduced.
Section Host.

Variable host_get : value -> jsstring -> value.
Variable host_string : list (jsstring * value) -> option jsstring.

Definition get_prop (current : value) (prop : jsstring) : value :=
  match current with
  | VUndefined | VNull => VUndefined
  | VObject props =>
      match own_property prop props with
      | Some v => v
      | None => host_get current prop
      end
  | _ => host_get current prop
  end.

Definition _getNestedValue (obj : value) (path : jsstring) : value :=
  fold_left get_prop (split "." path) obj.

Definition _escapeHtml (text : jsstring) : jsstring := serialize_text text.

Definition substitute (data : list (jsstring * value)) (m key : jsstring)
  : option jsstring :=
  let trimmedKey := trim key in
  let v := _getNestedValue (VObject data) trimmedKey in
  if is_undefined v then Some m
  else option_map _escapeHtml (String_of host_string v).

Definition _processTemplate (html : jsstring) (data : list (jsstring * value))
  : option jsstring :=
  match data with
  | [] => Some html
  | _ => replace_all (substitute data) html
  end.

End Host.
End Reduced.

(** A host without inherited properties, for running the engine. *)
Definition plain_host : value -> jsstring -> value := fun _ _ => VUndefined.

(** A host whose objects have the methods of [Object.prototype] and whose
    data holds no function: an object without a [toString] of its own is
    written as the inherited method writes it, and one with a [toString]
    of its own, which cannot be called, is not converted. *)
Definition plain_string (props : list (jsstring * value)) : option jsstring :=
  match own_property (lit "toString") props with
  | None => Some (lit "[object Object]")
  | Some _ => None
  end.

(** ** The placeholders of a text *)

(** A key the expression captures: not empty, and without a closing
    brace. *)
Definition key_ok (key : jsstring) : bool :=
  match key with
  | [] => false
  | _ => forallb (fun c => negb (is_close c)) key
  end.

(** No match of the expression begins inside [pre] when [rest] follows
    it. *)
Definition no_match_before (pre rest : jsstring) : Prop :=
  forall a b, pre = a ++ b -> b <> [] -> match_at (b ++ rest) = None.

(** What the engine is to write for the placeholder of [key]. *)
Definition render_hole (host_get : value -> jsstring -> value)
  (host_string : list (jsstring * value) -> option jsstring)
  (data : list (jsstring * value)) (key : jsstring) : option jsstring :=
  match Full._getNestedValue host_get (VObject data) (trim key) with
  | VUndefined => Some (placeholder key)
  | v => option_map Full._escapeHtml (String_of host_string v)
  end.

(** [p] is a prefix of [s]. *)
Fixpoint starts_with (p s : jsstring) : bool :=
  match p, s with
  | [], _ => true
  | _ :: _, [] => false
  | a :: p', b :: s' => ascii_eqb a b && starts_with p' s'
  end.

(** Every ampersand of [s] starts one of the four entities. *)
Fixpoint ampersands_are_entities (s : jsstring) : bool :=
  match s with
  | [] => true
  | c :: r =>
      (if ascii_eqb c "&" then
         starts_with (lit "amp;") r || starts_with (lit "lt;") r
         || starts_with (lit "gt;") r || starts_with (lit "nbsp;") r
       else true) && ampersands_are_entities r
  end.

(** A mapping with a nested value that holds markup. *)
Definition sample_data : list (jsstring * value) :=
  [(lit "a", VObject [(lit "b", VString (lit "<x>"))])].

(** A template that substitutes into an attribute, and a value with
    quotes in it. *)
Definition attribute_template : jsstring :=
  lit "<a title=" ++ quote :: lit "{{t}}" ++ quote :: lit ">".

Definition attribute_data : list (jsstring * value) :=
  [(lit "t", VString (lit "x" ++ quote :: lit " onclick=" ++ quote :: lit "y"))].


(** ** The host document

    Nodes are named by numbers.  A document records each node's parent, the
    element children of each node in order, the [id] attribute of each
    element (empty when it has none) and which node is [document.body];
    [depth] is the distance of a node from the root of its tree.  The two
    queries of the host are taken as they are. *)

Abbreviation node := nat.

(** What [document.querySelector] does with a string: it returns the first
    element that matches or [null], or, when the string is not a selector,
    throws a [SyntaxError]. *)
Inductive query : Type :=
| Found (e : node)
| NoMatch
| NotASelector.

Record dom : Type := {
  parentNode : gmap node node;
  children : gmap node (list node);
  element_id : gmap node jsstring;
  body : node;
  depth : node -> nat;
  querySelector : jsstring -> query;
  getElementById : jsstring -> option node
}.

Definition children_of (d : dom) (p : node) : list node :=
  default [] (children d !! p).

Definition id_of (d : dom) (e : node) : jsstring :=
  default [] (element_id d !! e).

(** The trees of a document: a node is listed among the children of its
    parent, and a parent is nearer to the root. *)
Record dom_wf (d : dom) : Prop := {
  wf_listed : forall c p, parentNode d !! c = Some p -> In c (children_of d p);
  wf_depth : forall c p, parentNode d !! c = Some p -> depth d p < depth d c
}.

(** [Array.from(xs).indexOf(x)] *)
Fixpoint indexOf (x : node) (xs : list node) : Z :=
  match xs with
  | [] => (-1)%Z
  | y :: r =>
      if decide (y = x) then 0%Z
      else let i := indexOf x r in if (i <? 0)%Z then (-1)%Z else (i + 1)%Z
  end.

(** [String(n)] for an integer. *)
Definition number_to_string (z : Z) : jsstring :=
  list_ascii_of_string (NilEmpty.string_of_int (Z.to_int z)).

(** [xs.join(sep)] *)
Fixpoint join (sep : jsstring) (xs : list jsstring) : jsstring :=
  match xs with
  | [] => []
  | [x] => x
  | x :: r => x ++ sep ++ join sep r
  end.

(** The loop of [_getElementPath]: [path.unshift(index)] while [current]
    is a node other than the body; [fuel] bounds the climb. *)
Fixpoint path_loop (d : dom) (fuel : nat) (current : option node)
  (path : list Z) : option (list Z) :=
  match current with
  | None => Some path
  | Some c =>
      if decide (c = body d) then Some path
      else
        match fuel with
        | O => None
        | S fuel' =>
            let siblings :=
              match parentNode d !! c with
              | Some p => children_of d p
              | None => []
              end in
            let index := indexOf c siblings in
            path_loop d fuel' (parentNode d !! c) (index :: path)
        end
  end.

Definition _getElementPath (d : dom) (element : node) : option jsstring :=
  match path_loop d (S (depth d element)) (Some element) [] with
  | Some path => Some (join (lit "-") (map number_to_string path))
  | None => None
  end.

(** [element.id || `_anonymous_${path}`], then [`${componentName}:${targetId}`]. *)
Definition _getInstanceKey (d : dom) (componentName : jsstring)
  (targetElement : node) : option jsstring :=
  match id_of d targetElement with
  | [] =>
      match _getElementPath d targetElement with
      | Some path => Some (componentName ++ lit ":" ++ lit "_anonymous_" ++ path)
      | None => None
      end
  | id => Some (componentName ++ lit ":" ++ id)
  end.

(** Where the climb of [_getElementPath] ends: at the body, or at the node
    without a parent that is the root of the element's tree. *)
Fixpoint root_of (d : dom) (fuel : nat) (c : node) : option node :=
  if decide (c = body d) then Some c
  else
    match fuel with
    | O => None
    | S fuel' =>
        match parentNode d !! c with
        | Some p => root_of d fuel' p
        | None => Some c
        end
    end.

Definition tree_root (d : dom) (e : node) : option node :=
  root_of d (S (depth d e)) e.

(** The element is in the tree below [document.body] (or is the body). *)
Definition attached (d : dom) (e : node) : bool :=
  if decide (tree_root d e = Some (body d)) then true else false.

(** The indices [_getElementPath] collects for an element whose climb ends
    at [root], given the indices [q] that lead from [root] down to it. *)
Definition path_from (d : dom) (root : node) (q : list Z) : list Z :=
  if decide (root = body d) then q else (-1)%Z :: q.

(** What [injectComponent] may be given as its target. *)
Inductive target : Type :=
| TElement (e : node)
| TString (s : jsstring)
| TOther.

(** What a call of [_resolveTarget] does: it returns an element or
    [null], or the [SyntaxError] of the selector query, which nothing
    catches, ends it. *)
Inductive resolution : Type :=
| Returns (element : option node)
| ThrowsSyntaxError.

Definition _resolveTarget (d : dom) (t : target) : resolution :=
  match t with
  | TElement e => Returns (Some e)
  | TString s =>
      match querySelector d s with
      | Found element => Returns (Some element)
      | NotASelector => ThrowsSyntaxError
      | NoMatch =>
          if negb (includes " " s) && negb (startsWith "." s)
             && negb (startsWith "[" s)
          then Returns (getElementById d s)
          else Returns None
      end
  | TOther => Returns None
  end.

(** The element a target stands for, as the claim about resolution has
    it: an element for itself; a string for the first element the selector
    query finds, or, when the query finds none and the string holds no
    space and begins with neither a dot nor an opening bracket, for the
    element of that [id]. *)
Definition names_element (d : dom) (t : target) (e : node) : Prop :=
  match t with
  | TElement e' => e' = e
  | TString str =>
      querySelector d str = Found e
      \/ (querySelector d str = NoMatch
          /\ includes " " str = false
          /\ startsWith "." str = false
          /\ startsWith "[" str = false
          /\ getElementById d str = Some e)
  | TOther => False
  end.

(** The target is not a string the host refuses as a selector. *)
Definition accepted_by_query (d : dom) (t : target) : Prop :=
  match t with
  | TString str => querySelector d str <> NotASelector
  | _ => True
  end.

(** The reading of "contains no structural-selector punctuation" that the
    specification's sentence gives: none of the characters the loader tests
    for occurs anywhere in the string. *)
Definition contains_selector_punctuation (s : jsstring) : bool :=
  includes " " s || includes "." s || includes "[" s.

(** Walking down from a node along child indices. *)
Fixpoint descend (d : dom) (from : node) (path : list Z) : option node :=
  match path with
  | [] => Some from
  | i :: rest =>
      if (i <? 0)%Z then None
      else
        match nth_error (children_of d from) (Z.to_nat i) with
        | Some c => descend d c rest
        | None => None
        end
  end.

(** The documents below answer the queries the examples make; to every
    other string they answer that nothing matches. *)

(** A document with two shadow trees and two detached elements: node 0 is
    the body, 1 its child; 10 and 20 are shadow roots with the children 11
    and 21; 30 and 31 are elements not attached anywhere.  No element has
    an [id]. *)
Definition scattered_doc : dom :=
  {| parentNode := {[ 1 := 0; 11 := 10; 21 := 20 ]};
     children := {[ 0 := [1]; 10 := [11]; 20 := [21] ]};
     element_id := ∅;
     body := 0;
     depth := fun n => if decide (n ∈ [1; 11; 21]) then 1 else 0;
     querySelector := fun _ => NoMatch;
     getElementById := fun _ => None |}.

(** A document in which one element, node 7, has the [id] "a.b" and no
    element matches the selector "a.b" (an [a] element of class [b]). *)
Definition dotted_id_doc : dom :=
  {| parentNode := {[ 7 := 0 ]};
     children := {[ 0 := [7] ]};
     element_id := {[ 7 := lit "a.b" ]};
     body := 0;
     depth := fun n => if decide (n = 7) then 1 else 0;
     querySelector := fun _ => NoMatch;
     getElementById := fun s => if decide (s = lit "a.b") then Some 7 else None |}.

(** A document in which one element, node 7, has the [id] "1header": a
    string that begins with a digit is not a selector. *)
Definition digit_id_doc : dom :=
  {| parentNode := {[ 7 := 0 ]};
     children := {[ 0 := [7] ]};
     element_id := {[ 7 := lit "1header" ]};
     body := 0;
     depth := fun n => if decide (n = 7) then 1 else 0;
     querySelector :=
       fun s => if decide (s = lit "1header") then NotASelector else NoMatch;
     getElementById :=
       fun s => if decide (s = lit "1header") then Some 7 else None |}.

(** A page: the body, node 0, holds the elements 1 (with the [id]
    "header"), 2 and 4; element 3 is the child of 2. *)
Definition page_doc : dom :=
  {| parentNode := {[ 1 := 0; 2 := 0; 3 := 2; 4 := 0 ]};
     children := {[ 0 := [1; 2; 4]; 2 := [3] ]};
     element_id := {[ 1 := lit "header" ]};
     body := 0;
     depth := fun n => if decide (n = 0) then 0 else if decide (n = 3) then 2 else 1;
     querySelector :=
       fun s => if decide (s = lit "#header") then Found 1 else NoMatch;
     getElementById := fun s => if decide (s = lit "header") then Some 1 else None |}.

(** A piece of a joined path: not empty, and without the separator. *)
Definition dash_free (x : jsstring) : Prop := x <> [] /\ ~ In "-"%char x.


(** ** The loader and its injections

    [injectComponent] is an asynchronous method: it runs until it suspends,
    other calls run meanwhile, and it goes on when what it waits for has
    settled.  A call is modelled by its control point, the loader by the
    fields the calls share, and one transition runs one call from a
    suspension point to the next. *)

Abbreviation promise := nat.

(** A tracked handler: [{ element, event, handler }]. *)
Record handler : Type := {
  h_element : node;
  h_event : jsstring;
  h_function : nat
}.

(** The steps of the [try] block that act on the document or suspend. *)
Inductive stage : Type :=
| LoadFragment
| CleanupHandlers
| TransitionOut
| InsertContent
| RunScripts
| TransitionIn
| Initialize
| RestoreFocus.

Inductive action : Type :=
| Acquired
| Released
| Did (st : stage)
| Detached (h : handler)
| Tracked (h : handler)
| Failed (st : stage).

(** An observable effect of call [t], made for the instance key [k]. *)
Inductive event : Type :=
| Ev (t : nat) (k : jsstring) (a : action).

Record loader : Type := {
  eventHandlers : gmap jsstring (list handler);
  injectionLocks : gmap jsstring promise;
  _currentReleaseLock : option promise;
  resolved : gset promise;
  fresh : promise;
  log : list event
}.

Definition new_loader : loader :=
  {| eventHandlers := ∅; injectionLocks := ∅; _currentReleaseLock := None;
     resolved := ∅; fresh := 0; log := [] |}.

Record options : Type := {
  append : bool;
  transition : bool;
  preserveFocus : bool;
  executeScripts : bool;
  (** what the component's initializer hands to [_trackEventListener] *)
  init_handlers : list handler;
  (** what the call finds when it enters its [try] block:
      [targetElement.contains(document.activeElement)] *)
  focus_in_target : bool
}.

(** [const focusWasInTarget = preserveFocus &&
    targetElement.contains(focusedElement)] *)
Definition focusWasInTarget (o : options) : bool :=
  preserveFocus o && focus_in_target o.

Record call : Type := {
  componentName : jsstring;
  call_target : target;
  call_options : options
}.

Inductive error : Type :=
| SelectorSyntaxError
| TargetNotFound
| StageError (st : stage).

Inductive control : Type :=
| Called
| Awaiting (k : jsstring) (p : promise)
| Running (k : jsstring) (todo : list stage)
| Returned
| Thrown (e : error)
| Diverged.

Record system : Type := {
  doc : dom;
  ldr : loader;
  calls : list (call * control)
}.

(** The [try] block of [injectComponent], in order. *)
Definition try_block (o : options) : list stage :=
  [LoadFragment]
  ++ (if append o then [] else [CleanupHandlers])
  ++ (if transition o && negb (append o) then [TransitionOut] else [])
  ++ [InsertContent]
  ++ (if executeScripts o then [RunScripts] else [])
  ++ (if transition o && negb (append o) then [TransitionIn] else [])
  ++ [Initialize]
  ++ (if preserveFocus o && focusWasInTarget o then [RestoreFocus] else []).

Definition add_events (L : loader) (es : list event) : loader :=
  {| eventHandlers := eventHandlers L; injectionLocks := injectionLocks L;
     _currentReleaseLock := _currentReleaseLock L; resolved := resolved L;
     fresh := fresh L; log := es ++ log L |}.

Definition set_handlers (L : loader) (m : gmap jsstring (list handler))
  : loader :=
  {| eventHandlers := m; injectionLocks := injectionLocks L;
     _currentReleaseLock := _currentReleaseLock L; resolved := resolved L;
     fresh := fresh L; log := log L |}.

(** [_trackEventListener(instanceKey, element, event, handler)] *)
Definition _trackEventListener (L : loader) (t : nat) (instanceKey : jsstring)
  (h : handler) : loader :=
  let m :=
    match eventHandlers L !! instanceKey with
    | None => <[instanceKey := []]> (eventHandlers L)
    | Some _ => eventHandlers L
    end in
  let m' := alter (fun hs => hs ++ [h]) instanceKey m in
  add_events (set_handlers L m') [Ev t instanceKey (Tracked h)].

(** [_cleanupEventListeners(instanceKey)]: the events are listed newest
    first, as the log is. *)
Definition _cleanupEventListeners (L : loader) (t : nat)
  (instanceKey : jsstring) : loader :=
  match eventHandlers L !! instanceKey with
  | Some handlers =>
      add_events (set_handlers L (delete instanceKey (eventHandlers L)))
        (rev (map (fun h => Ev t instanceKey (Detached h)) handlers))
  | None => L
  end.

(** One stage of the [try] block that ends normally.  [initializeComponent]
    derives the instance key anew from the component name and the element;
    no stage of this model changes the document, so it is the key [k] the
    call has locked, and the initializer tracks its handlers under it. *)
Definition run_stage (L : loader) (t : nat) (k : jsstring) (o : options)
  (st : stage) : loader :=
  match st with
  | CleanupHandlers =>
      add_events (_cleanupEventListeners L t k) [Ev t k (Did CleanupHandlers)]
  | Initialize =>
      add_events
        (fold_left (fun L' h => _trackEventListener L' t k h) (init_handlers o) L)
        [Ev t k (Did Initialize)]
  | _ => add_events L [Ev t k (Did st)]
  end.

(** [_acquireLock(key)] from its loop test on: the promise to wait for when
    the key is registered, the loader with the new registration otherwise. *)
Definition _acquireLock (L : loader) (t : nat) (k : jsstring)
  : loader + promise :=
  match injectionLocks L !! k with
  | Some p => inr p
  | None =>
      inl {| eventHandlers := eventHandlers L;
             injectionLocks := <[k := fresh L]> (injectionLocks L);
             _currentReleaseLock := Some (fresh L);
             resolved := resolved L;
             fresh := S (fresh L);
             log := Ev t k Acquired :: log L |}
  end.

(** [_releaseLock(key)] *)
Definition _releaseLock (L : loader) (t : nat) (k : jsstring) : loader :=
  {| eventHandlers := eventHandlers L;
     injectionLocks := delete k (injectionLocks L);
     _currentReleaseLock := None;
     resolved :=
       match _currentReleaseLock L with
       | Some p => {[p]} ∪ resolved L
       | None => resolved L
       end;
     fresh := fresh L;
     log := Ev t k Released :: log L |}.

Definition set_call (s : system) (t : nat) (c : call) (ctl : control)
  (L : loader) : system :=
  {| doc := doc s; ldr := L; calls := <[t := (c, ctl)]> (calls s) |}.

(** The call is at the loop test of [_acquireLock]. *)
Definition enter (s : system) (t : nat) (c : call) (k : jsstring) : system :=
  match _acquireLock (ldr s) t k with
  | inl L => set_call s t c (Running k (try_block (call_options c))) L
  | inr p => set_call s t c (Awaiting k p) (ldr s)
  end.

(** Call [t] runs to its next suspension point; [ok] tells whether the
    stage it is at ends normally.  A call that cannot run is left as it
    is. *)
Definition step (s : system) (t : nat) (ok : bool) : system :=
  match calls s !! t with
  | None => s
  | Some (c, ctl) =>
      match ctl with
      | Called =>
          match _resolveTarget (doc s) (call_target c) with
          | ThrowsSyntaxError =>
              set_call s t c (Thrown SelectorSyntaxError) (ldr s)
          | Returns None => set_call s t c (Thrown TargetNotFound) (ldr s)
          | Returns (Some targetElement) =>
              match _getInstanceKey (doc s) (componentName c) targetElement with
              | None => set_call s t c Diverged (ldr s)
              | Some lockKey => enter s t c lockKey
              end
          end
      | Awaiting k p =>
          if decide (p ∈ resolved (ldr s)) then enter s t c k else s
      | Running k [] => set_call s t c Returned (_releaseLock (ldr s) t k)
      | Running k (st :: todo) =>
          if ok then
            set_call s t c (Running k todo)
              (run_stage (ldr s) t k (call_options c) st)
          else
            set_call s t c (Thrown (StageError st))
              (_releaseLock (add_events (ldr s) [Ev t k (Failed st)]) t k)
      | Returned | Thrown _ | Diverged => s
      end
  end.

Fixpoint run (s : system) (schedule : list (nat * bool)) : system :=
  match schedule with
  | [] => s
  | (t, ok) :: rest => run (step s t ok) rest
  end.

Definition start (d : dom) (cs : list call) : system :=
  {| doc := d; ldr := new_loader; calls := map (fun c => (c, Called)) cs |}.

Definition control_of (s : system) (t : nat) : option control :=
  snd <$> calls s !! t.

(** Replaying a log (newest event first): who holds each key.  An
    acquisition needs the key free; every other event of a call needs that
    call to hold the key. *)
Fixpoint holders (l : list event) : option (gmap jsstring nat) :=
  match l with
  | [] => Some ∅
  | Ev t k a :: older =>
      match holders older with
      | None => None
      | Some H =>
          match a with
          | Acquired =>
              match H !! k with
              | None => Some (<[k := t]> H)
              | Some _ => None
              end
          | Released =>
              if decide (H !! k = Some t) then Some (delete k H) else None
          | _ => if decide (H !! k = Some t) then Some H else None
          end
      end
  end.


(** What the proofs keep track of: the holders replayed from the log are
    the calls inside their [try] block, one per registered key. *)
Definition running_calls (s : system) (H : gmap jsstring nat) : Prop :=
  (forall t c k todo, calls s !! t = Some (c, Running k todo) -> H !! k = Some t)
  /\ (forall k t, H !! k = Some t ->
        exists c todo, calls s !! t = Some (c, Running k todo)).

Definition lock_inv (s : system) : Prop :=
  exists H, holders (log (ldr s)) = Some H
    /\ (forall k, injectionLocks (ldr s) !! k = None <-> H !! k = None)
    /\ running_calls s H.

Definition idle (ctl : control) : Prop :=
  forall k todo, ctl <> Running k todo.

(** Events that neither take nor give back a key. *)
Definition neutral (t : nat) (k : jsstring) (es : list event) : Prop :=
  Forall (fun e => exists a, e = Ev t k a /\ a <> Acquired /\ a <> Released) es.

(** A call waits on a promise whose resolver the loader no longer has. *)
Definition orphaned (s : system) (t : nat) (k : jsstring) (p : promise)
  : Prop :=
  (exists c, calls s !! t = Some (c, Awaiting k p))
  /\ (p ∉ resolved (ldr s))
  /\ _currentReleaseLock (ldr s) <> Some p
  /\ p < fresh (ldr s).

(** The options of a call that passes none, made while the focus lies in
    the target. *)
Definition default_options : options :=
  {| append := false; transition := false; preserveFocus := true;
     executeScripts := true; init_handlers := [];
     focus_in_target := true |}.

(** A call whose target is an [id] that is not a selector. *)
Definition digit_call : call :=
  {| componentName := lit "navigation"; call_target := TString (lit "1header");
     call_options := default_options |}.

(** A call whose target names nothing in the page. *)
Definition lost_call : call :=
  {| componentName := lit "navigation"; call_target := TString (lit "missing");
     call_options := default_options |}.


(** Two injections for different targets of the page. *)
Definition two_calls : list call :=
  [ {| componentName := lit "navigation"; call_target := TString (lit "#header");
       call_options := default_options |};
    {| componentName := lit "footer"; call_target := TElement 2;
       call_options := default_options |} ].

Definition whole_call (t : nat) : list (nat * bool) := repeat (t, true) 8.

(** Call 0 runs to its end, then call 1; the other way round; and the two
    in turns. *)
Definition first_then_second : list (nat * bool) := whole_call 0 ++ whole_call 1.

(** Three injections issued back to back: the navigation into the header,
    the footer into another element, the navigation into the header
    again. *)
Definition three_calls : list call :=
  [ {| componentName := lit "navigation"; call_target := TElement 1;
       call_options := default_options |};
    {| componentName := lit "footer"; call_target := TElement 2;
       call_options := default_options |};
    {| componentName := lit "navigation"; call_target := TElement 1;
       call_options := default_options |} ].

(** Each of the three calls runs up to its first suspension; then the
    fragment of the first call fails to load. *)
Definition first_call_fails : list (nat * bool) :=
  [(0, true); (1, true); (2, true); (0, false)].


Definition handlers_of (L : loader) (k : jsstring) : list handler :=
  default [] (eventHandlers L !! k).

Definition click_handler (n : nat) : handler :=
  {| h_element := n; h_event := lit "click"; h_function := n |}.

(** A loader that has two handlers on record for the navigation in the
    header. *)
Definition used_loader : loader :=
  set_handlers new_loader
    {[ lit "navigation:header" := [click_handler 1; click_handler 2] ]}.





(** ** Markup and its executable fragments

    [_injectWithDOM] works on the fragment the host has parsed from the
    rendered text.  The outcome of loading an external script is the
    host's: [loads src] tells whether the resource at [src] loads. *)

Inductive markup : Type :=
| Text (s : jsstring)
| Element (tag : jsstring) (attrs : list (jsstring * jsstring))
    (kids : list markup).

Definition is_script (tag : jsstring) : bool :=
  if decide (tag = lit "script") then true else false.

(** [node.querySelectorAll('script')]: the script elements below a node,
    in document order. *)
Fixpoint scripts_of (m : markup) : list markup :=
  match m with
  | Text _ => []
  | Element tag attrs kids =>
      (if is_script tag then [m] else []) ++ flat_map scripts_of kids
  end.

(** The node once every script below it has been removed from its parent. *)
Fixpoint strip (m : markup) : list markup :=
  match m with
  | Text _ => [m]
  | Element tag attrs kids =>
      if is_script tag then [] else [Element tag attrs (flat_map strip kids)]
  end.

Fixpoint attribute (name : jsstring) (attrs : list (jsstring * jsstring))
  : option jsstring :=
  match attrs with
  | [] => None
  | (n, v) :: rest => if decide (n = name) then Some v else attribute name rest
  end.

(** [oldScript.src], read as the [src] attribute; empty when absent. *)
Definition src_of (script : markup) : jsstring :=
  match script with
  | Element _ attrs _ => default [] (attribute (lit "src") attrs)
  | Text _ => []
  end.

(** [node.textContent] *)
Fixpoint textContent (m : markup) : jsstring :=
  match m with
  | Text s => s
  | Element _ _ kids => flat_map textContent kids
  end.

Inductive dom_event : Type :=
| ClearedTarget
| AppendedFragment (content : list markup)
| RanInline (code : jsstring)
| LoadBegan (src : jsstring)
| LoadSettled (src : jsstring) (ok : bool).

(** [_executeScript(oldScript, container)] up to the settling of the
    promise it returns: the events, and whether the promise is fulfilled. *)
Definition _executeScript (loads : jsstring -> bool) (oldScript : markup)
  : list dom_event * bool :=
  match src_of oldScript with
  | [] => ([RanInline (textContent oldScript)], true)
  | src => ([LoadBegan src; LoadSettled src (loads src)], loads src)
  end.

(** [for (const oldScript of scripts) await this._executeScript(...)]: a
    rejected promise ends the loop. *)
Fixpoint execute_in_order (loads : jsstring -> bool) (scripts : list markup)
  : list dom_event * bool :=
  match scripts with
  | [] => ([], true)
  | oldScript :: rest =>
      match _executeScript loads oldScript with
      | (evs, true) =>
          let (evs', ok) := execute_in_order loads rest in (evs ++ evs', ok)
      | (evs, false) => (evs, false)
      end
  end.

(** [_injectWithDOM(targetElement, html, append, executeScripts)], given
    the parsed fragment: the events in order, and whether it returns
    (rather than throws). *)
Definition _injectWithDOM (loads : jsstring -> bool) (fragment : list markup)
  (append_mode executeScripts_on : bool) : list dom_event * bool :=
  let scripts :=
    if executeScripts_on then flat_map scripts_of fragment else [] in
  let content :=
    if executeScripts_on then flat_map strip fragment else fragment in
  let inserted :=
    (if append_mode then [] else [ClearedTarget]) ++ [AppendedFragment content] in
  if executeScripts_on then
    let (evs, ok) := execute_in_order loads scripts in (inserted ++ evs, ok)
  else (inserted, true).

(** The event by which a script is attached to the container. *)
Definition attach_event (script : markup) : dom_event :=
  match src_of script with
  | [] => RanInline (textContent script)
  | src => LoadBegan src
  end.

Definition is_attach (e : dom_event) : bool :=
  match e with
  | RanInline _ | LoadBegan _ => true
  | _ => false
  end.

(** The scripts up to and including the first whose load fails. *)
Fixpoint until_failure (loads : jsstring -> bool) (scripts : list markup)
  : list markup :=
  match scripts with
  | [] => []
  | s :: rest =>
      match src_of s with
      | [] => s :: until_failure loads rest
      | src => if loads src then s :: until_failure loads rest else [s]
      end
  end.

Definition all_load (loads : jsstring -> bool) (scripts : list markup) : bool :=
  forallb (fun s => match src_of s with [] => true | src => loads src end)
    scripts.

(** Every load that begins is settled by the next event. *)
Fixpoint loads_awaited (l : list dom_event) : bool :=
  match l with
  | [] => true
  | LoadBegan src :: rest =>
      match rest with
      | LoadSettled src' _ :: _ =>
          (if decide (src' = src) then true else false) && loads_awaited rest
      | _ => false
      end
  | _ :: rest => loads_awaited rest
  end.

Definition inline_script (code : string) : markup :=
  Element (lit "script") [] [Text (lit code)].

Definition external_script (src : string) : markup :=
  Element (lit "script") [(lit "src", lit src)] [].

(** [<div><script>A</script></div><script src="U"></script><script>B</script>] *)
Definition sample_fragment : list markup :=
  [ Element (lit "div") [] [inline_script "A"];
    external_script "U";
    inline_script "B" ].

(** [<script src="U"></script><script>B</script>] *)
Definition external_first : list markup :=
  [external_script "U"; inline_script "B"].

(** ** The batch loader

    [loadPageComponents] starts one injection per entry and waits for all
    of them.  What each entry does after its injection has settled runs
    without suspension, so the entries finish one after the other in some
    order; [completions] lists them in that order, each with the outcome of
    its injection ([true] when [injectComponent] returned, [false] when it
    threw). *)

Inductive batch_event : Type :=
| Progress (done total : nat) (name : jsstring)
| LoggedFailure (name : jsstring)
| ComponentsReady.

Record batch : Type := {
  loaded : nat;
  initialized : bool;
  emitted : list batch_event
}.

(** The rest of an entry's callback once its injection has settled. *)
Definition settle_entry (onProgress : bool) (total : nat) (b : batch)
  (entry : jsstring * bool) : batch :=
  let (componentName, injected) := entry in
  if injected then
    {| loaded := S (loaded b);
       initialized := initialized b;
       emitted :=
         emitted b
         ++ (if onProgress then [Progress (S (loaded b)) total componentName]
             else []) |}
  else
    {| loaded := loaded b;
       initialized := initialized b;
       emitted := emitted b ++ [LoggedFailure componentName] |}.

Definition loadPageComponents (completions : list (jsstring * bool))
  (onProgress : bool) : batch :=
  let total := length completions in
  let b :=
    fold_left (settle_entry onProgress total) completions
      {| loaded := 0; initialized := false; emitted := [] |} in
  {| loaded := loaded b; initialized := true;
     emitted := emitted b ++ [ComponentsReady] |}.

Definition is_progress (e : batch_event) : bool :=
  match e with
  | Progress _ _ _ => true
  | _ => false
  end.

Definition is_failure (e : batch_event) : bool :=
  match e with
  | LoggedFailure _ => true
  | _ => false
  end.

(** The calls [onProgress(done + 1, total, name)], [onProgress(done + 2,
    total, name')], ... for the names in order. *)
Fixpoint progress_from (done total : nat) (names : list jsstring)
  : list batch_event :=
  match names with
  | [] => []
  | n :: rest => Progress (S done) total n :: progress_from (S done) total rest
  end.

Definition injected_names (completions : list (jsstring * bool))
  : list jsstring :=
  map fst (List.filter snd completions).

Definition failed_names (completions : list (jsstring * bool))
  : list jsstring :=
  map fst (List.filter (fun e => negb (snd e)) completions).

(** ** The fragment store

    [loadComponent] is asynchronous too.  A retrieval is a promise of the
    host; it is named by its position in the list of retrievals made so
    far and settles when the host says so.  A call either returns the
    cached text, or returns the promise in flight (and so resolves with
    whatever that promise settles with), or starts a retrieval, registers
    it and resumes when it has settled. *)

Inductive outcome : Type :=
| Fetched (html : jsstring)
| FetchFailed (err : jsstring).

Inductive caller : Type :=
| FromCache (html : jsstring)
| Adopts (p : promise)
| Owner (name : jsstring) (p : promise)
| Settled (o : outcome).

Record store : Type := {
  cacheEnabled : bool;
  components : gmap jsstring jsstring;
  loadingStates : gmap jsstring promise;
  retrievals : list (jsstring * option outcome);
  callers : list caller;
  removals : list jsstring
}.

Definition new_store (cache : bool) : store :=
  {| cacheEnabled := cache; components := ∅; loadingStates := ∅;
     retrievals := []; callers := []; removals := [] |}.

Definition cached (s : store) (name : jsstring) : option jsstring :=
  if cacheEnabled s then components s !! name else None.

(** [loadComponent(componentName)] up to its first suspension. *)
Definition loadComponent (s : store) (componentName : jsstring) : store :=
  match cached s componentName with
  | Some html =>
      {| cacheEnabled := cacheEnabled s; components := components s;
         loadingStates := loadingStates s; retrievals := retrievals s;
         callers := callers s ++ [FromCache html]; removals := removals s |}
  | None =>
      match loadingStates s !! componentName with
      | Some p =>
          {| cacheEnabled := cacheEnabled s; components := components s;
             loadingStates := loadingStates s; retrievals := retrievals s;
             callers := callers s ++ [Adopts p]; removals := removals s |}
      | None =>
          let loadPromise := length (retrievals s) in
          {| cacheEnabled := cacheEnabled s; components := components s;
             loadingStates := <[componentName := loadPromise]> (loadingStates s);
             retrievals := retrievals s ++ [(componentName, None)];
             callers := callers s ++ [Owner componentName loadPromise];
             removals := removals s |}
      end
  end.

(** The host settles retrieval [p] with [o]. *)
Definition settle (s : store) (p : promise) (o : outcome) : store :=
  match retrievals s !! p with
  | Some (name, None) =>
      {| cacheEnabled := cacheEnabled s; components := components s;
         loadingStates := loadingStates s;
         retrievals := <[p := (name, Some o)]> (retrievals s);
         callers := callers s; removals := removals s |}
  | _ => s
  end.

(** The call that started a retrieval goes on after its [await]: it caches
    the text when caching is on, and in any case runs the [finally]. *)
Definition resume (s : store) (c : nat) : store :=
  match callers s !! c with
  | Some (Owner name p) =>
      match retrievals s !! p with
      | Some (_, Some o) =>
          {| cacheEnabled := cacheEnabled s;
             components :=
               match o with
               | Fetched html =>
                   if cacheEnabled s then <[name := html]> (components s)
                   else components s
               | FetchFailed _ => components s
               end;
             loadingStates := delete name (loadingStates s);
             retrievals := retrievals s;
             callers := <[c := Settled o]> (callers s);
             removals := removals s ++ [name] |}
      | _ => s
      end
  | _ => s
  end.

Definition set_components (s : store) (m : gmap jsstring jsstring) : store :=
  {| cacheEnabled := cacheEnabled s; components := m;
     loadingStates := loadingStates s; retrievals := retrievals s;
     callers := callers s; removals := removals s |}.

(** [clearCache(componentName)]; the argument may be left out, and an
    empty name is as falsy as none. *)
Definition clearCache (s : store) (componentName : option jsstring) : store :=
  match componentName with
  | Some (c :: name) => set_components s (delete (c :: name) (components s))
  | _ => set_components s ∅
  end.

(** What [destroy()] does to the store. *)
Definition destroy_store (s : store) : store :=
  {| cacheEnabled := cacheEnabled s; components := ∅; loadingStates := ∅;
     retrievals := retrievals s; callers := callers s;
     removals := removals s |}.

(** What happens to the store: a call of [loadComponent] runs up to its
    suspension, the host settles a retrieval, the call that started a
    retrieval resumes, the cache is cleared, the loader is destroyed. *)
Inductive store_action : Type :=
| Load (name : jsstring)
| Settle (p : promise) (o : outcome)
| Resume (c : nat)
| ClearCache (name : option jsstring)
| Destroy.

Definition store_step (s : store) (a : store_action) : store :=
  match a with
  | Load name => loadComponent s name
  | Settle p o => settle s p o
  | Resume c => resume s c
  | ClearCache name => clearCache s name
  | Destroy => destroy_store s
  end.

Definition store_run (s : store) (actions : list store_action) : store :=
  fold_left store_step actions s.

(** No load is registered as being in flight. *)
Definition no_load_in_flight (s : store) : bool :=
  bool_decide (loadingStates s = ∅).

(** [destroy] is called only while no load is in flight. *)
Fixpoint quiet_destroys (s : store) (actions : list store_action) : bool :=
  match actions with
  | [] => true
  | a :: rest =>
      (match a with
       | Destroy => no_load_in_flight s
       | _ => true
       end) && quiet_destroys (store_step s a) rest
  end.

(** What call [c] has resolved with, if it has. *)
Definition result (s : store) (c : nat) : option outcome :=
  match callers s !! c with
  | Some (FromCache html) => Some (Fetched html)
  | Some (Adopts p) =>
      match retrievals s !! p with
      | Some (_, o) => o
      | None => None
      end
  | Some (Settled o) => Some o
  | Some (Owner _ _) | None => None
  end.

(** [K] calls for one name, the first [S before] of them before the
    retrieval settles and the others after, then the continuation of the
    call that started the retrieval. *)
Definition concurrent_loads (s : store) (name : jsstring) (before after : nat)
  (o : outcome) : list store_action :=
  repeat (Load name) (S before)
  ++ [Settle (length (retrievals s)) o]
  ++ repeat (Load name) after
  ++ [Resume (length (callers s))].

(** What the proofs keep track of: a retrieval that has not settled is the
    one registered for its name, and so is the retrieval of a call that has
    not resumed; no two such calls share a retrieval. *)
Definition store_inv (s : store) : Prop :=
  (forall p n, retrievals s !! p = Some (n, None) ->
     loadingStates s !! n = Some p)
  /\ (forall c n p, callers s !! c = Some (Owner n p) ->
        loadingStates s !! n = Some p /\ p < length (retrievals s))
  /\ (forall c c' n n' p, callers s !! c = Some (Owner n p) ->
        callers s !! c' = Some (Owner n' p) -> c = c').

Definition add_callers (s : store) (cs : list caller) : store :=
  {| cacheEnabled := cacheEnabled s; components := components s;
     loadingStates := loadingStates s; retrievals := retrievals s;
     callers := callers s ++ cs; removals := removals s |}.

(** The store once [K] calls for [name] have been made from [s0], the
    retrieval has settled with [o] and the call that started it has
    resumed. *)
Definition after_loads (s0 : store) (name : jsstring) (before after : nat)
  (o : outcome) : store :=
  let p := length (retrievals s0) in
  {| cacheEnabled := cacheEnabled s0;
     components :=
       match o with
       | Fetched html =>
           if cacheEnabled s0 then <[name := html]> (components s0)
           else components s0
       | FetchFailed _ => components s0
       end;
     loadingStates := delete name (<[name := p]> (loadingStates s0));
     retrievals := retrievals s0 ++ [(name, Some o)];
     callers :=
       <[length (callers s0) := Settled o]>
         (((callers s0 ++ [Owner name p]) ++ repeat (Adopts p) before)
          ++ repeat (Adopts p) after);
     removals := removals s0 ++ [name] |}.

Definition footer_text : outcome := Fetched (lit "<footer></footer>").

(** The header is loaded and cached, the cache is cleared and the loader
    destroyed, all while nothing else is in flight. *)
Definition torn_down : list store_action :=
  [Load (lit "header"); Settle 0 (Fetched (lit "<header></header>")); Resume 0;
   ClearCache None; Destroy].

(** Two calls for the footer with a [destroy] between them, both before
    the retrieval of the first settles. *)
Definition destroyed_in_flight : list store_action :=
  [Load (lit "footer"); Destroy; Load (lit "footer")].

(** ** Initializer names

    [_toCamelCase]: [str.replace(/-([a-z])/g, g => g[1].toUpperCase())]
    and then [.replace(/^[a-z]/, g => g.toUpperCase())]. *)

Definition is_lower (c : ascii) : bool :=
  (97 <=? nat_of_ascii c) && (nat_of_ascii c <=? 122).

(** [c.toUpperCase()] for a character: the letters [a] to [z] are the ones
    among the code units 0..127 that change. *)
Definition toUpperCase_char (c : ascii) : ascii :=
  if is_lower c then ascii_of_nat (nat_of_ascii c - 32) else c.

Definition is_hyphen (c : ascii) : bool := ascii_eqb c "-".

(** The first replacement: every hyphen that is followed by a lower-case
    letter goes, and the letter is written in upper case. *)
Fixpoint replace_hyphens (s : jsstring) : jsstring :=
  match s with
  | [] => []
  | c :: r =>
      if is_hyphen c then
        match r with
        | d :: r' =>
            if is_lower d then toUpperCase_char d :: replace_hyphens r'
            else c :: replace_hyphens r
        | [] => [c]
        end
      else c :: replace_hyphens r
  end.

(** The second replacement: a lower-case letter at the start is written in
    upper case. *)
Definition capitalize (s : jsstring) : jsstring :=
  match s with
  | c :: r => if is_lower c then toUpperCase_char c :: r else s
  | [] => []
  end.

Definition _toCamelCase (str : jsstring) : jsstring :=
  capitalize (replace_hyphens str).

(** [`initialize${this._toCamelCase(componentName)}`] *)
Definition initMethod (componentName : jsstring) : jsstring :=
  lit "initialize" ++ _toCamelCase componentName.

(** No hyphen of [s] is followed by a lower-case letter. *)
Fixpoint hyphens_replaced (s : jsstring) : bool :=
  match s with
  | [] => true
  | c :: r =>
      (if is_hyphen c then
         match r with
         | d :: _ => negb (is_lower d)
         | [] => true
         end
       else true) && hyphens_replaced r
  end.

(** A word of a hyphenated component name: it starts with a lower-case
    letter and holds no hyphen. *)
Definition is_word (w : jsstring) : bool :=
  match w with
  | c :: _ => is_lower c && forallb (fun d => negb (is_hyphen d)) w
  | [] => false
  end.

Definition hyphen_free (w : jsstring) : bool :=
  forallb (fun d => negb (is_hyphen d)) w.

(** What becomes of a hyphen and the word after it: before a lower-case
    letter the hyphen goes and the letter is written in upper case, before
    anything else it stays. *)
Definition camel_piece (w : jsstring) : jsstring :=
  match w with
  | c :: r => if is_lower c then toUpperCase_char c :: r else "-"%char :: w
  | [] => ["-"%char]
  end.

(** ** Regular expressions and the e-mail test

    [regex.test(s)] for an expression anchored at both ends, by
    derivatives: the expression is differentiated by each character in
    turn, and the input matches when what is left accepts the empty
    string. *)

Inductive regex : Type :=
| RNone
| REps
| RClass (p : ascii -> bool)
| RCat (r1 r2 : regex)
| RAlt (r1 r2 : regex)
| RStar (r : regex).

Fixpoint nullable (r : regex) : bool :=
  match r with
  | RNone => false
  | REps => true
  | RClass _ => false
  | RCat r1 r2 => nullable r1 && nullable r2
  | RAlt r1 r2 => nullable r1 || nullable r2
  | RStar _ => true
  end.

Fixpoint deriv (c : ascii) (r : regex) : regex :=
  match r with
  | RNone => RNone
  | REps => RNone
  | RClass p => if p c then REps else RNone
  | RCat r1 r2 =>
      RAlt (RCat (deriv c r1) r2) (if nullable r1 then deriv c r2 else RNone)
  | RAlt r1 r2 => RAlt (deriv c r1) (deriv c r2)
  | RStar r1 => RCat (deriv c r1) (RStar r1)
  end.

Definition regex_test (r : regex) (s : jsstring) : bool :=
  nullable (fold_left (fun r' c => deriv c r') s r).

(** The strings an expression stands for. *)
Inductive in_regex : regex -> jsstring -> Prop :=
| in_eps : in_regex REps []
| in_class (p : ascii -> bool) (c : ascii) :
    p c = true -> in_regex (RClass p) [c]
| in_cat (r1 r2 : regex) (s1 s2 : jsstring) :
    in_regex r1 s1 -> in_regex r2 s2 -> in_regex (RCat r1 r2) (s1 ++ s2)
| in_alt_l (r1 r2 : regex) (s : jsstring) :
    in_regex r1 s -> in_regex (RAlt r1 r2) s
| in_alt_r (r1 r2 : regex) (s : jsstring) :
    in_regex r2 s -> in_regex (RAlt r1 r2) s
| in_star_nil (r : regex) : in_regex (RStar r) []
| in_star_app (r : regex) (s1 s2 : jsstring) :
    in_regex r s1 -> in_regex (RStar r) s2 -> in_regex (RStar r) (s1 ++ s2).

(** [r+] *)
Definition RPlus (r : regex) : regex := RCat r (RStar r).

(** [[^\s@]]: any character but white space and the at sign. *)
Definition address_char (c : ascii) : bool :=
  negb (is_ws c) && negb (ascii_eqb c "@").

(** [/^[^\s@]+@[^\s@]+\.[^\s@]+$/] *)
Definition email_regex : regex :=
  RCat (RPlus (RClass address_char))
    (RCat (RClass (ascii_eqb "@"))
       (RCat (RPlus (RClass address_char))
          (RCat (RClass (ascii_eqb "."))
             (RPlus (RClass address_char))))).

Definition _isValidEmail (email : jsstring) : bool :=
  regex_test email_regex email.

(** A non-empty run of address characters. *)
Definition address_part (s : jsstring) : Prop :=
  s <> [] /\ forallb address_char s = true.

(** ** The contact form

    A form is its controls in document order and the error-message
    elements the loader has put next to them.  A control is known by its
    position; [f_parent] names its parent element.  The model keeps one
    error-message element per parent, the one [parent.querySelector
    ('.error-message')] finds: the markup is taken to hold no such element
    of its own, and no parent of a control to lie inside another. *)

Record field : Type := {
  f_id : jsstring;
  f_name : jsstring;
  f_required : bool;
  f_type : jsstring;
  f_value : jsstring;
  f_default : jsstring;
  f_error : bool;
  f_aria_invalid : bool;
  f_describedby : option jsstring;
  f_parent : nat
}.

(** An error-message element: its [id] and its text. *)
Record form : Type := {
  fields : list field;
  error_elements : gmap nat (jsstring * jsstring)
}.

Definition is_empty (s : jsstring) : bool :=
  match s with
  | [] => true
  | _ => false
  end.

(** The message [_validateInput] arrives at; empty when the value is
    accepted. *)
Definition error_message (f : field) : jsstring :=
  if f_required f && is_empty (trim (f_value f)) then
    lit "This field is required"
  else if (if decide (f_type f = lit "email") then true else false)
          && negb (is_empty (f_value f))
          && negb (_isValidEmail (f_value f)) then
    lit "Please enter a valid email address"
  else [].

Definition mark (f : field) (err : bool) (described : option jsstring)
  : field :=
  {| f_id := f_id f; f_name := f_name f; f_required := f_required f;
     f_type := f_type f; f_value := f_value f; f_default := f_default f;
     f_error := err; f_aria_invalid := err; f_describedby := described;
     f_parent := f_parent f |}.

(** [`${input.id || input.name}-error`] *)
Definition error_element_id (f : field) : jsstring :=
  (match f_id f with
   | [] => f_name f
   | id => id
   end) ++ lit "-error".

(** [_validateInput(input)] for the control at position [i]: the marks on
    the control, then [_setInputError] or [_clearInputError]. *)
Definition _validateInput (F : form) (i : nat) : form :=
  match fields F !! i with
  | None => F
  | Some f =>
      match error_message f with
      | [] =>
          match error_elements F !! f_parent f with
          | Some _ =>
              {| fields := <[i := mark f false None]> (fields F);
                 error_elements := delete (f_parent f) (error_elements F) |}
          | None =>
              {| fields := <[i := mark f false (f_describedby f)]> (fields F);
                 error_elements := error_elements F |}
          end
      | message =>
          match error_elements F !! f_parent f with
          | Some (id, _) =>
              {| fields := <[i := mark f true (f_describedby f)]> (fields F);
                 error_elements :=
                   <[f_parent f := (id, message)]> (error_elements F) |}
          | None =>
              {| fields :=
                   <[i := mark f true (Some (error_element_id f))]> (fields F);
                 error_elements :=
                   <[f_parent f := (error_element_id f, message)]>
                     (error_elements F) |}
          end
      end
  end.

(** The positions of the controls that carry [required]:
    [form.querySelectorAll('[required]')]. *)
Fixpoint required_from (n : nat) (fs : list field) : list nat :=
  match fs with
  | [] => []
  | f :: rest =>
      (if f_required f then [n] else []) ++ required_from (S n) rest
  end.

Definition has_error (F : form) (i : nat) : bool :=
  match fields F !! i with
  | Some f => f_error f
  | None => false
  end.

(** [_validateForm(form)]: the form after the validations and the
    positions pushed to [errors]; the form is valid when there is none. *)
Definition validate_step (acc : form * list nat) (i : nat) : form * list nat :=
  let F' := _validateInput (fst acc) i in
  (F', if has_error F' i then snd acc ++ [i] else snd acc).

Definition _validateForm (F : form) : form * list nat :=
  fold_left validate_step (required_from 0 (fields F)) (F, []).

Inductive form_event : Type :=
| PreventedDefault
| LiveRegion (text : jsstring)
| Focused (i : nat)
| Warned
| Posted (endpoint : jsstring)
| FormReset
| Message (success : bool) (text : jsstring).

(** [form.reset()]: every control takes its default value again. *)
Definition reset_field (f : field) : field :=
  {| f_id := f_id f; f_name := f_name f; f_required := f_required f;
     f_type := f_type f; f_value := f_default f; f_default := f_default f;
     f_error := f_error f; f_aria_invalid := f_aria_invalid f;
     f_describedby := f_describedby f; f_parent := f_parent f |}.

Definition reset_form (F : form) : form :=
  {| fields := map reset_field (fields F); error_elements := error_elements F |}.

(** What the host answers to the request: nothing when the request itself
    fails, otherwise whether the status is a success and whether the body
    reads as JSON. *)
Definition answer : Type := option (bool * bool).

(** [_submitForm(data, endpoint)]: the events, and whether the promise it
    returns is fulfilled.  An absent endpoint and an empty one are both
    falsy. *)
Definition _submitForm (endpoint : jsstring) (host : answer)
  : list form_event * bool :=
  match endpoint with
  | [] => ([Warned], true)
  | _ =>
      match host with
      | None => ([Posted endpoint], false)
      | Some (ok, json) => ([Posted endpoint], ok && json)
      end
  end.

Definition error_count_text (n : nat) : jsstring :=
  lit "Form has " ++ number_to_string (Z.of_nat n)
  ++ lit " errors. Please correct them.".

(** The handler of the form's [submit] event. *)
Definition submitHandler (F : form) (endpoint : jsstring) (host : answer)
  : form * list form_event :=
  let (F', errors) := _validateForm F in
  match errors with
  | first :: _ =>
      (F', [PreventedDefault; LiveRegion (error_count_text (length errors));
            Focused first])
  | [] =>
      let (evs, fulfilled) := _submitForm endpoint host in
      if fulfilled then
        (reset_form F',
         PreventedDefault :: evs
         ++ [FormReset; Message true (lit "Form submitted successfully!");
             LiveRegion (lit "Form submitted successfully")])
      else
        (F',
         PreventedDefault :: evs
         ++ [Message false (lit "Submission failed. Please try again.");
             LiveRegion (lit "Submission failed. Please try again.")])
  end.

(** The value of a control is one [_validateInput] accepts. *)
Definition acceptable (f : field) : bool := is_empty (error_message f).

(** Whether the control at a position is one validation rejects. *)
Definition verdict (F : form) (i : nat) : bool :=
  match fields F !! i with
  | Some f => negb (acceptable f)
  | None => false
  end.

(** The positions of the required controls whose value is not accepted. *)
Fixpoint rejected_from (n : nat) (fs : list field) : list nat :=
  match fs with
  | [] => []
  | f :: rest =>
      (if f_required f && negb (acceptable f) then [n] else [])
      ++ rejected_from (S n) rest
  end.

(** Two controls that differ at most in the marks validation puts on
    them. *)
Definition same_control (f g : field) : Prop :=
  f_id f = f_id g /\ f_name f = f_name g /\ f_required f = f_required g
  /\ f_type f = f_type g /\ f_value f = f_value g
  /\ f_default f = f_default g /\ f_parent f = f_parent g.

Definition text_field (name value : string) (required : bool) (parent : nat)
  : field :=
  {| f_id := []; f_name := lit name; f_required := required;
     f_type := lit "text"; f_value := lit value; f_default := [];
     f_error := false; f_aria_invalid := false; f_describedby := None;
     f_parent := parent |}.

Definition email_field (value : string) (required : bool) (parent : nat)
  : field :=
  {| f_id := lit "email"; f_name := lit "email"; f_required := required;
     f_type := lit "email"; f_value := lit value; f_default := [];
     f_error := false; f_aria_invalid := false; f_describedby := None;
     f_parent := parent |}.

(** A form with a required name left blank, a required message and an
    optional e-mail address that is not one. *)
Definition blank_name_form : form :=
  {| fields := [text_field "name" "  " true 1; email_field "nobody" false 2;
                text_field "message" "hello" true 3];
     error_elements := ∅ |}.

(** The same form filled in. *)
Definition filled_form : form :=
  {| fields := [text_field "name" "Ada" true 1; email_field "ada@example.org" false 2;
                text_field "message" "hello" true 3];
     error_elements := ∅ |}.

(** Two required controls under one parent, the first left empty. *)
Definition shared_parent_form : form :=
  {| fields := [text_field "first" "" true 1; text_field "last" "Lovelace" true 1];
     error_elements := ∅ |}.

(** ** Preloading, clearing the cache, and [destroy] *)

(** [preloadComponents(componentNames)]: the calls of [loadComponent] the
    [map] makes, each up to its first suspension. *)
Definition preloadComponents (s : store) (componentNames : list jsstring)
  : store :=
  fold_left loadComponent componentNames s.

(** What [destroy()] does to the handler registry and the locks.  [forEach]
    visits the keys of [eventHandlers] in the order in which they were
    first set, which the map of the model does not keep: [order] is that
    order.  [t] marks the events as those of this call. *)
Definition destroy_loader (L : loader) (t : nat) (order : list jsstring)
  : loader :=
  let L1 := fold_left (fun L0 k => _cleanupEventListeners L0 t k) order L in
  {| eventHandlers := eventHandlers L1; injectionLocks := ∅;
     _currentReleaseLock := _currentReleaseLock L1; resolved := resolved L1;
     fresh := fresh L1; log := log L1 |}.

(** [order] lists the keys of the registry, each once. *)
Definition visits (L : loader) (order : list jsstring) : Prop :=
  List.NoDup order /\ forall k, In k order <-> is_Some (eventHandlers L !! k).

Definition destroy_system (s : system) (t : nat) (order : list jsstring)
  : system :=
  {| doc := doc s; ldr := destroy_loader (ldr s) t order; calls := calls s |}.

(** The events by which the handlers on record under [k] are detached. *)
Definition detach_events (L : loader) (t : nat) (k : jsstring) : list event :=
  map (fun h => Ev t k (Detached h)) (handlers_of L k).

(** The store while the footer is being retrieved. *)
Definition footer_loading : store :=
  loadComponent (new_store true) (lit "footer").

(** The store with the footer in the cache. *)
Definition footer_cached : store :=
  store_run (new_store true)
    [Load (lit "footer"); Settle 0 footer_text; Resume 0].

(** ** Retrieving a fragment

    The configuration the constructor keeps for the address of a fragment,
    and [_fetchComponent] in the two versions of the loader.  What the host
    answers to a request is a parameter. *)

Record config : Type := {
  basePath : jsstring;
  defaultExtension : jsstring
}.

(** [given || dflt] for a string that may be absent. *)
Definition or_default (given : option jsstring) (dflt : jsstring) : jsstring :=
  match given with
  | Some (c :: s) => c :: s
  | _ => dflt
  end.

(** The two address fields as the constructor sets them. *)
Definition new_config (basePath_given extension_given : option jsstring)
  : config :=
  {| basePath := or_default basePath_given (lit "/components");
     defaultExtension := or_default extension_given (lit ".html") |}.

(** The answer to [fetch(url)]: the promise is rejected, or there is a
    response, whose [text()] gives the body or is rejected in turn. *)
Inductive response : Type :=
| NoResponse (err : jsstring)
| Response (ok : bool) (status : Z) (statusText : jsstring)
    (text : jsstring + jsstring).

Inductive fetch_event : Type :=
| Requested (url : jsstring)
| BodyRead (url : jsstring)
| ErrorLogged (text : jsstring) (err : jsstring).

(** [`HTTP ${response.status}: ${response.statusText}`] *)
Definition status_error (status : Z) (statusText : jsstring) : jsstring :=
  lit "HTTP " ++ number_to_string status ++ lit ": " ++ statusText.

(** The body of [_fetchComponent] once the address and the text of the log
    entry are known. *)
Definition fetch_at (fetch : jsstring -> response) (url log_text : jsstring)
  : list fetch_event * outcome :=
  match fetch url with
  | NoResponse err => ([Requested url; ErrorLogged log_text err], FetchFailed err)
  | Response false status statusText _ =>
      ([Requested url; ErrorLogged log_text (status_error status statusText)],
       FetchFailed (status_error status statusText))
  | Response true _ _ (inl html) => ([Requested url; BodyRead url], Fetched html)
  | Response true _ _ (inr err) =>
      ([Requested url; BodyRead url; ErrorLogged log_text err], FetchFailed err)
  end.

(** [`${basePath}/${componentName}${defaultExtension}`] *)
Definition component_url (cfg : config) (componentName : jsstring) : jsstring :=
  basePath cfg ++ lit "/" ++ componentName ++ defaultExtension cfg.

Definition _fetchComponent (cfg : config) (fetch : jsstring -> response)
  (componentName : jsstring) : list fetch_event * outcome :=
  let url := component_url cfg componentName in
  fetch_at fetch url
    (lit "Failed to load component " ++ [quote] ++ componentName ++ [quote]
     ++ lit " from " ++ url ++ lit ":").

(** The reduced loader of [utils.js]. *)
Module ReducedLoader.

(** [`${basePath}/${componentName}/${defaultExtension}`] *)
Definition component_url (cfg : config) (componentName : jsstring) : jsstring :=
  basePath cfg ++ lit "/" ++ componentName ++ lit "/" ++ defaultExtension cfg.

Definition _fetchComponent (cfg : config) (fetch : jsstring -> response)
  (componentName : jsstring) : list fetch_event * outcome :=
  let url := component_url cfg componentName in
  fetch_at fetch url
    (lit "Failed to load " ++ componentName ++ lit " from " ++ url ++ lit ":").

End ReducedLoader.

Definition is_logged (e : fetch_event) : bool :=
  match e with
  | ErrorLogged _ _ => true
  | _ => false
  end.

Definition is_request (e : fetch_event) : bool :=
  match e with
  | Requested _ => true
  | _ => false
  end.

(** A host that has the fragments of the full loader and nothing else. *)
Definition static_host (url : jsstring) : response :=
  if decide (url = lit "/components/footer.html") then
    Response true 200 (lit "OK") (inl (lit "<footer></footer>"))
  else Response false 404 (lit "Not Found") (inl (lit "<h1>Not Found</h1>")).

(** ** Injection into a shadow root *)

(** What happens to the element ([InLight]), to its shadow root
    ([InShadow]), and the two steps that only a shadow root knows. *)
Inductive shadow_event : Type :=
| AttachedShadow
| InLight (e : dom_event)
| InShadow (e : dom_event)
| ShadowHTMLSet (content : list markup).

(** [_injectWithShadowDOM(element, html, executeScripts)], given the parsed
    fragment and whether the element has a shadow root already. *)
Definition _injectWithShadowDOM (loads : jsstring -> bool)
  (fragment : list markup) (executeScripts_on has_root : bool)
  : list shadow_event * bool :=
  let attach := if has_root then [] else [AttachedShadow] in
  if executeScripts_on then
    let scripts := flat_map scripts_of fragment in
    let (evs, ok) := execute_in_order loads scripts in
    (attach
     ++ [InShadow ClearedTarget;
         InShadow (AppendedFragment (flat_map strip fragment))]
     ++ map InShadow evs, ok)
  else (attach ++ [ShadowHTMLSet fragment], true).

(** The choice [injectComponent] makes between the two ways of
    injecting. *)
Definition inject_content (loads : jsstring -> bool) (fragment : list markup)
  (append_mode shadow enableShadowDOM executeScripts_on has_root : bool)
  : list shadow_event * bool :=
  if shadow && enableShadowDOM then
    _injectWithShadowDOM loads fragment executeScripts_on has_root
  else
    let (evs, ok) := _injectWithDOM loads fragment append_mode executeScripts_on in
    (map InLight evs, ok).

(** ** The navigation menu *)

(** The mobile menu as the two handlers see it: whether the menu carries
    the class [hidden], the [aria-expanded] attribute of the toggle, and
    whether the menu holds a link or button to focus. *)
Record menu : Type := {
  hidden : bool;
  aria_expanded : option jsstring;
  has_link : bool
}.

Inductive nav_event : Type :=
| Click
| KeyDown (key : jsstring).

Inductive focus_move : Type :=
| FocusFirstLink
| FocusToggle.

(** [String(b)] *)
Definition bool_to_string (b : bool) : jsstring :=
  if b then lit "true" else lit "false".

(** [toggleHandler]: [classList.toggle] answers whether the class is
    present afterwards. *)
Definition toggleHandler (m : menu) : menu * list focus_move :=
  let isExpanded := negb (hidden m) in
  ({| hidden := isExpanded;
      aria_expanded := Some (bool_to_string (negb isExpanded));
      has_link := has_link m |},
   if negb isExpanded then (if has_link m then [FocusFirstLink] else [])
   else []).

Definition escapeHandler (m : menu) (key : jsstring) : menu * list focus_move :=
  if (if decide (key = lit "Escape") then true else false) && negb (hidden m)
  then
    ({| hidden := true; aria_expanded := Some (lit "false");
        has_link := has_link m |}, [FocusToggle])
  else (m, []).

Definition nav_step (m : menu) (e : nav_event) : menu * list focus_move :=
  match e with
  | Click => toggleHandler m
  | KeyDown key => escapeHandler m key
  end.

Fixpoint nav_run (m : menu) (es : list nav_event) : menu * list focus_move :=
  match es with
  | [] => (m, [])
  | e :: rest =>
      let (m1, f1) := nav_step m e in
      let (m2, f2) := nav_run m1 rest in
      (m2, f1 ++ f2)
  end.

(** [aria-expanded] says what the class says. *)
Definition in_step (m : menu) : Prop :=
  aria_expanded m = Some (bool_to_string (negb (hidden m))).

Definition is_click (e : nav_event) : bool :=
  match e with
  | Click => true
  | KeyDown _ => false
  end.

(** A menu whose markup shows it open while the toggle says nothing. *)
Definition unlabelled_menu : menu :=
  {| hidden := false; aria_expanded := None; has_link := true |}.

(** [s.endsWith(suffix)] *)
Definition endsWith (s suffix : jsstring) : bool :=
  starts_with (rev suffix) (rev s).

Record link : Type := {
  href : jsstring;
  aria_current : option jsstring;
  active : bool
}.

Definition isActive (currentPath linkPath : jsstring) : bool :=
  endsWith currentPath linkPath
  || (endsWith currentPath (lit "/")
      && (if decide (linkPath = lit "index.html") then true else false)).

(** [_setActiveNavigation(navElement)], on the links of the element that
    have an [href], for the path of the page. *)
Definition _setActiveNavigation (currentPath : jsstring) (navLinks : list link)
  : list link :=
  map (fun l =>
         if isActive currentPath (href l) then
           {| href := href l; aria_current := Some (lit "page");
              active := true |}
         else {| href := href l; aria_current := None; active := false |})
      navLinks.

(** ** Calls for one key, and the release of the lock *)

(** The call is for the key [k]: its target resolves in [d] and gives that
    key. *)
Definition targets_key (d : dom) (k : jsstring) (c : call) : Prop :=
  exists e, _resolveTarget d (call_target c) = Returns (Some e)
            /\ _getInstanceKey d (componentName c) e = Some k.

(** What the proofs keep track of when every call is for the key [k]: a
    call that waits, waits on a promise that is resolved or that the
    holder of the key will resolve on its release. *)
Definition single_key_inv (d : dom) (k : jsstring) (s : system) : Prop :=
  doc s = d
  /\ (forall t c ctl, calls s !! t = Some (c, ctl) -> targets_key d k c)
  /\ (forall t c k' p, calls s !! t = Some (c, Awaiting k' p) -> k' = k)
  /\ (forall t c k' todo, calls s !! t = Some (c, Running k' todo) -> k' = k)
  /\ match injectionLocks (ldr s) !! k with
     | None =>
         forall t c k' p, calls s !! t = Some (c, Awaiting k' p) ->
                          p ∈ resolved (ldr s)
     | Some q =>
         _currentReleaseLock (ldr s) = Some q
         /\ forall t c k' p, calls s !! t = Some (c, Awaiting k' p) ->
                             p ∈ resolved (ldr s) \/ p = q
     end.

(** Two injections of the navigation into the header. *)
Definition same_target_calls : list call :=
  [ {| componentName := lit "navigation"; call_target := TElement 1;
       call_options := default_options |};
    {| componentName := lit "navigation"; call_target := TString (lit "#header");
       call_options := default_options |} ].

Definition is_acquisition_of (t : nat) (e : event) : bool :=
  match e with
  | Ev t' _ Acquired => Nat.eqb t t'
  | _ => false
  end.

Definition is_release_of (t : nat) (e : event) : bool :=
  match e with
  | Ev t' _ Released => Nat.eqb t t'
  | _ => false
  end.

(** How often call [t] has taken a key, and how often it has given one
    back. *)
Definition acquisitions (l : list event) (t : nat) : nat :=
  length (List.filter (is_acquisition_of t) l).

Definition releases (l : list event) (t : nat) : nat :=
  length (List.filter (is_release_of t) l).

(** The call has been inside its [try] block. *)
Definition has_entered (ctl : control) : bool :=
  match ctl with
  | Running _ _ | Returned | Thrown (StageError _) => true
  | _ => false
  end.

(** The call has left its [try] block again. *)
Definition has_left (ctl : control) : bool :=
  match ctl with
  | Returned | Thrown (StageError _) => true
  | _ => false
  end.

Definition lock_counts (s : system) : Prop :=
  forall t c ctl, calls s !! t = Some (c, ctl) ->
    acquisitions (log (ldr s)) t = (if has_entered ctl then 1 else 0)
    /\ releases (log (ldr s)) t = (if has_left ctl then 1 else 0).

(** ** The stages a call has gone through *)

(** The stages call [t] has done, oldest first, as the log has them. *)
Fixpoint stages_done (l : list event) (t : nat) : list stage :=
  match l with
  | [] => []
  | Ev t' _ (Did st) :: older =>
      if Nat.eqb t t' then stages_done older t ++ [st] else stages_done older t
  | _ :: older => stages_done older t
  end.

(** What the control point of a call says about the stages it has done. *)
Definition stages_agree (o : options) (ctl : control) (done : list stage)
  : Prop :=
  match ctl with
  | Running _ todo => done ++ todo = try_block o
  | Returned => done = try_block o
  | Thrown (StageError st) => exists todo, done ++ st :: todo = try_block o
  | _ => done = []
  end.

Definition stage_inv (s : system) : Prop :=
  forall t c ctl, calls s !! t = Some (c, ctl) ->
    stages_agree (call_options c) ctl (stages_done (log (ldr s)) t).

(** ** Transitions *)

(** The inline style of the target as far as the transitions write it. *)
Record style : Type := {
  st_transition : jsstring;
  st_opacity : jsstring;
  st_transform : jsstring
}.

Inductive direction : Type :=
| DirOut
| DirIn.

(** [_fadeTransition(element, direction)]: the style at once, and the
    style when the timer has fired and the promise is resolved. *)
Definition _fadeTransition (sty : style) (dir : direction) : style * style :=
  let at_once :=
    {| st_transition := lit "opacity 0.3s ease";
       st_opacity := match dir with DirOut => lit "0" | DirIn => lit "1" end;
       st_transform := st_transform sty |} in
  (at_once,
   match dir with
   | DirIn =>
       {| st_transition := []; st_opacity := st_opacity at_once;
          st_transform := st_transform at_once |}
   | DirOut => at_once
   end).

Definition _slideTransition (sty : style) (dir : direction) : style * style :=
  let at_once :=
    {| st_transition := lit "transform 0.3s ease, opacity 0.3s ease";
       st_opacity := match dir with DirOut => lit "0" | DirIn => lit "1" end;
       st_transform :=
         match dir with
         | DirOut => lit "translateY(-20px)"
         | DirIn => lit "translateY(0)"
         end |} in
  (at_once,
   match dir with
   | DirIn =>
       {| st_transition := []; st_opacity := st_opacity at_once;
          st_transform := [] |}
   | DirOut => at_once
   end).

(** The [transition] option: a function of the caller, or a name. *)
Inductive transition_option : Type :=
| ByFunction
| ByName (name : jsstring).

(** [_applyTransition(element, transition, direction)]: the style when the
    promise is resolved, and the milliseconds of timer waited for.  What a
    function of the caller does to the style is [user]. *)
Definition _applyTransition (user : style -> direction -> style) (sty : style)
  (tr : transition_option) (dir : direction) : style * nat :=
  match tr with
  | ByFunction => (user sty dir, 0)
  | ByName name =>
      if decide (name = lit "fade") then (snd (_fadeTransition sty dir), 300)
      else if decide (name = lit "slide") then
        (snd (_slideTransition sty dir), 300)
      else (sty, 0)
  end.

(** The style of the target once a call has done the stages [done]. *)
Definition stage_style (user : style -> direction -> style)
  (tr : transition_option) (sty : style) (st : stage) : style :=
  match st with
  | TransitionOut => fst (_applyTransition user sty tr DirOut)
  | TransitionIn => fst (_applyTransition user sty tr DirIn)
  | _ => sty
  end.

Definition style_after (user : style -> direction -> style)
  (tr : transition_option) (done : list stage) (sty : style) : style :=
  fold_left (stage_style user tr) done sty.

Definition built_in (name : jsstring) : Prop :=
  name = lit "fade" \/ name = lit "slide".

Definition half_shown : style :=
  {| st_transition := []; st_opacity := lit "0.5"; st_transform := [] |}.

(** ** [injectComponent] of the reduced loader

    The second version of the loader in [utils.js] calls two methods the
    file does not define, [_cleanupEventListeners] and
    [initializeComponent]; whether such a call returns is a parameter
    here.  [insertAdjacentElement] takes an element: handed a string it
    throws a [TypeError]. *)

Module ReducedInjection.
Section Host.

Variable host_get : value -> jsstring -> value.
Variable host_string : list (jsstring * value) -> option jsstring.
Variable cleanup_returns : bool.
Variable initialize_returns : bool.

Inductive reduced_event : Type :=
| CleanupCalled (id : jsstring)
| ShadowRootSet (e : node) (html : jsstring)
| InnerHTMLSet (e : node) (html : jsstring)
| AdjacentInsertTried (e : node)
| InitializerCalled (name : jsstring) (e : node)
| FailureLogged (name : jsstring).

(** The end of the [try] block: [initializeComponent], then the return. *)
Definition finish (componentName : jsstring) (e : node)
  (evs : list reduced_event) : list reduced_event * option node :=
  if initialize_returns then
    (evs ++ [InitializerCalled componentName e], Some e)
  else
    (evs ++ [InitializerCalled componentName e; FailureLogged componentName],
     None).

(** [injectComponent(componentName, targetElementId, options)] once
    [loadComponent] has settled with [load]: the events, and the element
    returned if the call returns. *)
Definition injectComponent (d : dom) (enableShadowDOM : bool) (load : outcome)
  (componentName targetElementId : jsstring) (data : list (jsstring * value))
  (append_mode shadow : bool) : list reduced_event * option node :=
  match load with
  | FetchFailed _ => ([FailureLogged componentName], None)
  | Fetched html =>
      match getElementById d targetElementId with
      | None => ([FailureLogged componentName], None)
      | Some targetElement =>
          let cleaned :=
            if append_mode then [] else [CleanupCalled targetElementId] in
          if negb append_mode && negb cleanup_returns then
            (cleaned ++ [FailureLogged componentName], None)
          else
            match Reduced._processTemplate host_get host_string html data with
            | None => (cleaned ++ [FailureLogged componentName], None)
            | Some processedHtml =>
                if shadow && enableShadowDOM then
                  finish componentName targetElement
                    (cleaned ++ [ShadowRootSet targetElement processedHtml])
                else if append_mode then
                  (cleaned ++ [AdjacentInsertTried targetElement;
                               FailureLogged componentName], None)
                else
                  finish componentName targetElement
                    (cleaned ++ [InnerHTMLSet targetElement processedHtml])
            end
      end
  end.

Definition changes_markup (e : reduced_event) : bool :=
  match e with
  | ShadowRootSet _ _ | InnerHTMLSet _ _ => true
  | _ => false
  end.

Definition is_initializer (e : reduced_event) : bool :=
  match e with
  | InitializerCalled _ _ => true
  | _ => false
  end.

End Host.
End ReducedInjection.

(** ** Injecting the navigation again

    The toggles of the target (the elements with [data-mobile-toggle]) in
    document order, each with the number of click handlers
    [initializeNavigation] has added to it.  The fragment of the navigation
    holds one toggle and one menu; [querySelector] finds the first toggle
    and the first menu of the target. *)

Definition inject_navigation (append_mode : bool) (toggles : list nat)
  : list nat :=
  match (if append_mode then toggles else []) ++ [0] with
  | first :: rest => S first :: rest
  | [] => []
  end.

(** A click on a toggle that carries [handlers] click handlers, all of
    them [toggleHandler] for the first menu. *)
Definition click_toggle (handlers : nat) (m : menu) : menu :=
  Nat.iter handlers (fun m0 => fst (toggleHandler m0)) m.

(** ** Injections and [destroy]

    What happens to the loader while injections are under way: a call runs
    to its next suspension point, or [destroy] is called.  The events of
    [destroy] are marked with a number that no call has. *)















(** * Properties *)

(** ** The template engine *)

Section TemplateFacts.

Variable f : jsstring -> jsstring -> option jsstring.

Lemma span_key_run (k t : jsstring) :
  forallb (fun c => negb (is_close c)) k = true ->
  span_key (k ++ "}"%char :: t) = (k, "}"%char :: t).
Proof.
  induction k as [|c k IH]; simpl; intros Hk.
  - reflexivity.
  - apply andb_true_iff in Hk as [Hc Hk].
    apply negb_true_iff in Hc. rewrite Hc, (IH Hk). reflexivity.
Qed.

Lemma span_key_spec (s k rest : jsstring) :
  span_key s = (k, rest) ->
  s = k ++ rest /\ forallb (fun c => negb (is_close c)) k = true.
Proof.
  revert k rest. induction s as [|c s IH]; intros k rest H; simpl in H.
  - injection H as <- <-. split; reflexivity.
  - destruct (is_close c) eqn:Ec.
    + injection H as <- <-. split; reflexivity.
    + destruct (span_key s) as [k' rest'] eqn:Es. injection H as <- <-.
      destruct (IH k' rest' eq_refl) as [-> Hk]. split; [reflexivity|].
      simpl. rewrite Ec, Hk. reflexivity.
Qed.

Lemma placeholder_app (key post : jsstring) :
  placeholder key ++ post
  = "{"%char :: "{"%char :: key ++ "}"%char :: "}"%char :: post.
Proof. unfold placeholder. simpl. rewrite <- app_assoc. reflexivity. Qed.

Lemma match_at_placeholder (key post : jsstring) :
  key_ok key = true -> match_at (placeholder key ++ post) = Some key.
Proof.
  intros Hk. rewrite placeholder_app.
  destruct key as [|c key]; [discriminate|].
  unfold key_ok in Hk. unfold match_at.
  change (is_open "{") with true. cbn [andb].
  rewrite span_key_run by exact Hk. reflexivity.
Qed.

(** A match at the head of a text is a placeholder at the head of it. *)
Lemma match_at_inv (s key : jsstring) :
  match_at s = Some key ->
  key_ok key = true /\ exists rest, s = placeholder key ++ rest.
Proof.
  unfold match_at. destruct s as [|c1 [|c2 r]]; try discriminate.
  destruct (is_open c1) eqn:E1; [|discriminate].
  destruct (is_open c2) eqn:E2; [|discriminate]. cbn [andb].
  destruct (span_key r) as [k rest] eqn:Es.
  destruct rest as [|d1 [|d2 rest]]; try discriminate.
  destruct (is_close d1) eqn:F1; [|discriminate].
  destruct (is_close d2) eqn:F2; [|discriminate]. cbn [andb].
  destruct k as [|c k]; [discriminate|]. intros H. injection H as <-.
  destruct (span_key_spec _ _ _ Es) as [-> Hk].
  unfold is_open, is_close, ascii_eqb in *.
  apply Ascii.eqb_eq in E1, E2, F1, F2. subst.
  split; [exact Hk|]. exists rest. rewrite placeholder_app. reflexivity.
Qed.

Lemma replace_go_skip (u t : jsstring) :
  replace_go f (length u) (u ++ t) = replace_go f 0 t.
Proof. induction u as [|c u IH]; simpl; [reflexivity | exact IH]. Qed.

Lemma replace_all_cons (c : ascii) (r : jsstring) :
  replace_all f (c :: r)
  = match match_at (c :: r) with
    | Some key =>
        match f (placeholder key) key with
        | Some out =>
            match replace_go f (length key + 3) r with
            | Some tail => Some (out ++ tail)
            | None => None
            end
        | None => None
        end
    | None =>
        match replace_all f r with
        | Some tail => Some (c :: tail)
        | None => None
        end
    end.
Proof. reflexivity. Qed.

Lemma replace_all_placeholder (key post : jsstring) :
  key_ok key = true ->
  replace_all f (placeholder key ++ post)
  = match f (placeholder key) key, replace_all f post with
    | Some out, Some tail => Some (out ++ tail)
    | _, _ => None
    end.
Proof.
  intros Hk.
  pose proof (match_at_placeholder key post Hk) as Hm.
  rewrite placeholder_app in *.
  rewrite replace_all_cons, Hm.
  assert (E : replace_go f (length key + 3)
                ("{"%char :: key ++ "}"%char :: "}"%char :: post)
              = replace_all f post).
  { unfold replace_all.
    rewrite <- (replace_go_skip ("{"%char :: key ++ lit "}}") post).
    f_equal.
    - simpl. rewrite length_app. simpl. lia.
    - simpl. rewrite <- app_assoc. reflexivity. }
  rewrite E. destruct (f _ key); reflexivity.
Qed.

Lemma replace_all_pass (c : ascii) (r : jsstring) :
  match_at (c :: r) = None ->
  replace_all f (c :: r) = option_map (cons c) (replace_all f r).
Proof.
  intros Hm. rewrite replace_all_cons, Hm.
  destruct (replace_all f r); reflexivity.
Qed.

Lemma no_match_before_cons (c : ascii) (pre rest : jsstring) :
  no_match_before (c :: pre) rest ->
  match_at (c :: pre ++ rest) = None /\ no_match_before pre rest.
Proof.
  intros H. split.
  - apply (H [] (c :: pre)); [reflexivity | discriminate].
  - intros a b -> Hb. apply (H (c :: a) b); [reflexivity | exact Hb].
Qed.

(** Text in which no match begins is passed on as it is. *)
Lemma replace_all_before (pre rest : jsstring) :
  no_match_before pre rest ->
  replace_all f (pre ++ rest) = option_map (app pre) (replace_all f rest).
Proof.
  induction pre as [|c pre IH]; intros H.
  - simpl. destruct (replace_all f rest); reflexivity.
  - apply no_match_before_cons in H as [Hm H].
    simpl app. rewrite (replace_all_pass _ _ Hm), (IH H).
    destruct (replace_all f rest); reflexivity.
Qed.

End TemplateFacts.

(** Every text is free of matches or begins with text free of matches
    that a placeholder follows. *)
Lemma first_match (html : jsstring) :
  no_match_before html []
  \/ exists pre key rest,
       html = pre ++ placeholder key ++ rest
       /\ key_ok key = true
       /\ no_match_before pre (placeholder key ++ rest).
Proof.
  induction html as [|c html IH].
  - left. intros a b E Hb. destruct a, b; try discriminate. contradiction.
  - destruct (match_at (c :: html)) as [key|] eqn:Hm.
    + right. destruct (match_at_inv _ _ Hm) as [Hk [rest E]].
      exists [], key, rest. split; [exact E|]. split; [exact Hk|].
      intros a b Eab Hb. destruct a, b; try discriminate. contradiction.
    + destruct IH as [IH | (pre & key & rest & E & Hk & Hpre)].
      * left. intros a b E Hb. destruct a as [|x a].
        -- simpl in E. subst b. rewrite app_nil_r. exact Hm.
        -- injection E as _ E. exact (IH a b E Hb).
      * right. exists (c :: pre), key, rest.
        split; [rewrite E; reflexivity|]. split; [exact Hk|].
        intros a b Eab Hb. destruct a as [|x a].
        -- simpl in Eab. subst b.
           change ((c :: pre) ++ placeholder key ++ rest)
             with (c :: (pre ++ placeholder key ++ rest)).
           rewrite <- E. exact Hm.
        -- injection Eab as _ Eab. exact (Hpre a b Eab Hb).
Qed.

Lemma escape_char_no_angle (c d : ascii) :
  In d (escape_char c) -> d <> "<"%char /\ d <> ">"%char.
Proof.
  unfold escape_char, ascii_eqb.
  destruct (Ascii.eqb c "&") eqn:E1;
    [simpl; intros H; repeat destruct H as [<-|H]; try (split; discriminate);
     contradiction|].
  destruct (Ascii.eqb c "<") eqn:E2;
    [simpl; intros H; repeat destruct H as [<-|H]; try (split; discriminate);
     contradiction|].
  destruct (Ascii.eqb c ">") eqn:E3;
    [simpl; intros H; repeat destruct H as [<-|H]; try (split; discriminate);
     contradiction|].
  destruct (Ascii.eqb c nbsp) eqn:E4;
    [simpl; intros H; repeat destruct H as [<-|H]; try (split; discriminate);
     contradiction|].
  intros [<-|[]]. apply Ascii.eqb_neq in E2, E3. split; assumption.
Qed.

Lemma serialize_text_no_angle (text : jsstring) (d : ascii) :
  In d (serialize_text text) -> d <> "<"%char /\ d <> ">"%char.
Proof.
  unfold serialize_text. rewrite in_flat_map.
  intros (c & _ & Hd). exact (escape_char_no_angle c d Hd).
Qed.

Lemma serialize_text_ampersands (text : jsstring) :
  ampersands_are_entities (serialize_text text) = true.
Proof.
  induction text as [|c text IH]; [reflexivity|].
  change (serialize_text (c :: text)) with (escape_char c ++ serialize_text text).
  unfold escape_char, ascii_eqb.
  destruct (Ascii.eqb c "&") eqn:E1; [exact IH|].
  destruct (Ascii.eqb c "<"); [exact IH|].
  destruct (Ascii.eqb c ">"); [exact IH|].
  destruct (Ascii.eqb c nbsp); [exact IH|].
  simpl. unfold ascii_eqb. rewrite E1. exact IH.
Qed.

Lemma escape_char_other (c : ascii) :
  c <> "&"%char -> c <> "<"%char -> c <> ">"%char -> c <> nbsp ->
  escape_char c = [c].
Proof.
  intros H1 H2 H3 H4. unfold escape_char, ascii_eqb.
  apply Ascii.eqb_neq in H1, H2, H3, H4. rewrite H1, H2, H3, H4. reflexivity.
Qed.

Lemma escape_keeps (x : ascii) (text : jsstring) :
  x <> "&"%char -> x <> "<"%char -> x <> ">"%char -> x <> nbsp ->
  In x text -> In x (Full._escapeHtml text).
Proof.
  intros H1 H2 H3 H4 Hin. unfold Full._escapeHtml, serialize_text.
  apply in_flat_map. exists x. split; [exact Hin|].
  rewrite escape_char_other by assumption. left. reflexivity.
Qed.

Lemma substitute_render_hole host hs data key :
  Full.substitute host hs data (placeholder key) key
  = render_hole host hs data key.
Proof.
  unfold Full.substitute, render_hole.
  destruct (Full._getNestedValue host (VObject data) (trim key)); reflexivity.
Qed.

(** C4: the claim holds that quotes, too, are escaped, and the code's own
    comments call the substitution its XSS protection; the code does not
    escape them.  A value with a quote in it, substituted inside an
    attribute, closes the attribute and adds one of its own; and whatever
    the text, a quote or an apostrophe in it reaches the output as it
    is. *)
Theorem C4_quotes_are_not_escaped :
  Full._processTemplate plain_host plain_string attribute_template
    attribute_data
  = Some (lit "<a title=" ++ quote :: lit "x" ++ quote :: lit " onclick="
          ++ quote :: lit "y" ++ quote :: lit ">")
  /\ (forall text, In quote text -> In quote (Full._escapeHtml text))
  /\ (forall text, In apostrophe text ->
        In apostrophe (Full._escapeHtml text)).
Proof.
  split; [vm_compute; reflexivity|].
  split; intros text; apply escape_keeps; discriminate.
Qed.

(** X28. What the engine does with every text, for a mapping that is not
    empty.  Text in which no match of the expression begins is written as
    it is; the first placeholder is replaced by the serialised string form
    of the value its trimmed dotted path resolves to, or written as it is
    when the path resolves to undefined, and the engine goes on with the
    text after it; when a value cannot be made a string the engine throws.
    Every text is of one of the two kinds.  The serialised form holds no
    angle bracket, no ampersand other than the first character of an
    entity, and writes every character other than the ampersand, the angle
    brackets and the no-break space as it is. *)
Theorem template_rendering (host : value -> jsstring -> value)
    (hs : list (jsstring * value) -> option jsstring)
    (data : list (jsstring * value)) :
  data <> [] ->
  (forall pre key rest,
     key_ok key = true ->
     no_match_before pre (placeholder key ++ rest) ->
     Full._processTemplate host hs (pre ++ placeholder key ++ rest) data
     = match render_hole host hs data key,
             Full._processTemplate host hs rest data with
       | Some out, Some tail => Some (pre ++ out ++ tail)
       | _, _ => None
       end)
  /\ (forall html, no_match_before html [] ->
        Full._processTemplate host hs html data = Some html)
  /\ (forall html,
        no_match_before html []
        \/ exists pre key rest,
             html = pre ++ placeholder key ++ rest
             /\ key_ok key = true
             /\ no_match_before pre (placeholder key ++ rest))
  /\ (forall text c, In c (Full._escapeHtml text) ->
        c <> "<"%char /\ c <> ">"%char)
  /\ (forall text, ampersands_are_entities (Full._escapeHtml text) = true)
  /\ (forall text, ~ In "&"%char text -> ~ In "<"%char text ->
        ~ In ">"%char text -> ~ In nbsp text -> Full._escapeHtml text = text).
Proof.
  intros Hdata. destruct data as [|kv data]; [contradiction|].
  split; [|split; [|split; [|split; [|split]]]].
  - intros pre key rest Hk Hpre. unfold Full._processTemplate.
    rewrite (replace_all_before _ _ _ Hpre).
    rewrite (replace_all_placeholder _ _ _ Hk), substitute_render_hole.
    destruct (render_hole host hs (kv :: data) key); [|reflexivity].
    destruct (replace_all _ rest); reflexivity.
  - intros html Hfree. unfold Full._processTemplate.
    rewrite <- (app_nil_r html) at 1.
    rewrite (replace_all_before _ _ _ Hfree). simpl.
    rewrite app_nil_r. reflexivity.
  - exact first_match.
  - intros text c Hc. exact (serialize_text_no_angle text c Hc).
  - intros text. apply serialize_text_ampersands.
  - intros text. induction text as [|c text IH]; intros Ha Hl Hg Hn;
      [reflexivity|].
    change (Full._escapeHtml (c :: text))
      with (escape_char c ++ Full._escapeHtml text).
    rewrite escape_char_other.
    + simpl. f_equal. apply IH; intros Hin.
      * apply Ha. right. exact Hin.
      * apply Hl. right. exact Hin.
      * apply Hg. right. exact Hin.
      * apply Hn. right. exact Hin.
    + intros ->. apply Ha. left. reflexivity.
    + intros ->. apply Hl. left. reflexivity.
    + intros ->. apply Hg. left. reflexivity.
    + intros ->. apply Hn. left. reflexivity.
Qed.

(** [{{}}] is no placeholder and is passed on; [{{a.b}}] after it is
    replaced. *)
Lemma template_rendering_witness :
  Full._processTemplate plain_host plain_string (lit "{{}}{{a.b}}") sample_data
  = Some (lit "{{}}&lt;x&gt;").
Proof.
  assert (Hd : sample_data <> []) by discriminate.
  destruct (template_rendering plain_host plain_string sample_data Hd)
    as (H1 & H2 & _).
  change (lit "{{}}{{a.b}}") with (lit "{{}}" ++ placeholder (lit "a.b") ++ []).
  rewrite (H1 (lit "{{}}") (lit "a.b") []).
  - rewrite (H2 []).
    + reflexivity.
    + intros a b E Hb. destruct a, b; try discriminate. contradiction.
  - reflexivity.
  - intros a b E Hb.
    repeat (destruct a as [|? a]; simpl in E;
            [subst b; reflexivity
            |injection E as <- E]).
    destruct a; simpl in E; [subst b; contradiction | discriminate E].
Defined.

(** ** The two template engines *)

Lemma reduced_get_prop : Reduced.get_prop = Full.get_prop.
Proof. reflexivity. Qed.

Lemma reduced_getNestedValue :
  Reduced._getNestedValue = Full._getNestedValue.
Proof.
  unfold Reduced._getNestedValue, Full._getNestedValue.
  rewrite reduced_get_prop. reflexivity.
Qed.

Lemma reduced_escapeHtml : Reduced._escapeHtml = Full._escapeHtml.
Proof. reflexivity. Qed.

Lemma reduced_substitute : Reduced.substitute = Full.substitute.
Proof.
  unfold Reduced.substitute, Full.substitute.
  rewrite reduced_getNestedValue, reduced_escapeHtml. reflexivity.
Qed.

(** C10: the template engine of the reduced loader and the template engine
    of the full loader are the same function of the host, the fragment text
    and the data mapping: substitution, escaping, the pass-through of a
    path that resolves to nothing and the empty-data case agree. *)
Theorem C10_reduced_engine_agrees :
  Reduced._processTemplate = Full._processTemplate
  /\ forall (host : value -> jsstring -> value)
       (hs : list (jsstring * value) -> option jsstring) (html : jsstring)
       (data : list (jsstring * value)),
       Reduced._processTemplate host hs html data
       = Full._processTemplate host hs html data.
Proof.
  assert (E : Reduced._processTemplate = Full._processTemplate).
  { unfold Reduced._processTemplate, Full._processTemplate.
    rewrite reduced_substitute. reflexivity. }
  split; [exact E|]. intros host hs html data. rewrite E. reflexivity.
Qed.

(** ** Instance keys *)

Lemma indexOf_found (x : node) (xs : list node) :
  In x xs ->
  (0 <= indexOf x xs)%Z /\ nth_error xs (Z.to_nat (indexOf x xs)) = Some x.
Proof.
  induction xs as [|y xs IH]; intros Hin; [destruct Hin|].
  simpl. destruct (decide (y = x)) as [->|Hne].
  - split; [lia | reflexivity].
  - destruct Hin as [Hyx|Hin]; [contradiction|].
    destruct (IH Hin) as [Hpos Hnth].
    destruct (Z.ltb_spec (indexOf x xs) 0) as [Hlt|Hge]; [lia|].
    split; [lia|].
    replace (Z.to_nat (indexOf x xs + 1)) with (S (Z.to_nat (indexOf x xs)))
      by lia.
    exact Hnth.
Qed.

Lemma descend_app (d : dom) (q1 q2 : list Z) (from mid : node) :
  descend d from q1 = Some mid ->
  descend d from (q1 ++ q2) = descend d mid q2.
Proof.
  revert from. induction q1 as [|i q1 IH]; intros from H; simpl in *.
  - injection H as ->. reflexivity.
  - destruct (i <? 0)%Z; [discriminate|].
    destruct (nth_error (children_of d from) (Z.to_nat i)) as [c|];
      [|discriminate].
    apply IH. exact H.
Qed.

Section Paths.

Variable d : dom.
Hypothesis Hwf : dom_wf d.

Lemma path_loop_total (fuel : nat) :
  forall (c : node) (acc : list Z),
    depth d c < fuel -> is_Some (path_loop d fuel (Some c) acc).
Proof.
  induction fuel as [|fuel IH]; intros c acc Hd; [lia|].
  simpl. destruct (decide (c = body d)); [eexists; reflexivity|].
  destruct (parentNode d !! c) as [p|] eqn:Hp.
  - destruct fuel as [|fuel'].
    + pose proof (wf_depth d Hwf c p Hp). lia.
    + apply IH. pose proof (wf_depth d Hwf c p Hp). lia.
  - destruct fuel; simpl; eexists; reflexivity.
Qed.

Lemma path_loop_root (fuel : nat) :
  forall (c r : node) (acc p : list Z),
    root_of d fuel c = Some r ->
    path_loop d fuel (Some c) acc = Some p ->
    exists q, p = path_from d r q ++ acc /\ descend d r q = Some c
              /\ Forall (fun i => (0 <= i)%Z) q.
Proof.
  induction fuel as [|fuel IH]; intros c r acc p Hr Hp.
  - simpl in *. destruct (decide (c = body d)) as [->|]; [|discriminate].
    injection Hr as <-. injection Hp as <-. exists [].
    unfold path_from. rewrite decide_True by reflexivity.
    repeat split; constructor.
  - simpl in *. destruct (decide (c = body d)) as [->|Hne].
    + injection Hr as <-. injection Hp as <-. exists [].
      unfold path_from. rewrite decide_True by reflexivity.
      repeat split; constructor.
    + destruct (parentNode d !! c) as [pn|] eqn:Hpn.
      * destruct (IH pn r _ p Hr Hp) as (q & -> & Hq & Hpos).
        destruct (indexOf_found c (children_of d pn) (wf_listed d Hwf c pn Hpn))
          as [Hi Hnth].
        exists (q ++ [indexOf c (children_of d pn)]). split; [|split].
        -- unfold path_from. destruct (decide (r = body d)); simpl;
             rewrite <- app_assoc; reflexivity.
        -- rewrite (descend_app d q _ _ pn Hq). simpl.
           destruct (Z.ltb_spec (indexOf c (children_of d pn)) 0); [lia|].
           rewrite Hnth. reflexivity.
        -- apply Forall_app. split; [exact Hpos|].
           constructor; [exact Hi|constructor].
      * injection Hr as <-. exists []. unfold path_from.
        rewrite decide_False by exact Hne. simpl in Hp.
        destruct fuel; simpl in Hp; injection Hp as <-.
        -- repeat split; constructor.
        -- repeat split; constructor.
Qed.

Lemma root_of_total (fuel : nat) :
  forall c : node, depth d c < fuel -> is_Some (root_of d fuel c).
Proof.
  induction fuel as [|fuel IH]; intros c Hlt; [lia|].
  simpl. destruct (decide (c = body d)); [eexists; reflexivity|].
  destruct (parentNode d !! c) as [pn|] eqn:Hpn; [|eexists; reflexivity].
  apply IH. pose proof (wf_depth d Hwf c pn Hpn). lia.
Qed.

End Paths.

Lemma uint_digits (u : Decimal.uint) :
  ~ In "-"%char (list_ascii_of_string (NilEmpty.string_of_uint u)).
Proof.
  induction u; simpl; intros H; try (destruct H as [H|H]; [discriminate|]);
    tauto.
Qed.

Lemma number_to_string_digits (z : Z) :
  (0 <= z)%Z -> ~ In "-"%char (number_to_string z).
Proof.
  intros Hz. unfold number_to_string.
  destruct z as [|p|p]; [| |lia]; apply uint_digits.
Qed.

Lemma number_to_string_inj (a b : Z) :
  number_to_string a = number_to_string b -> a = b.
Proof.
  unfold number_to_string. intros H.
  apply (f_equal string_of_list_ascii) in H.
  rewrite !string_of_list_ascii_of_string in H.
  apply (f_equal NilEmpty.int_of_string) in H.
  rewrite !NilEmpty.isi in H. injection H as H.
  rewrite <- (DecimalZ.of_to a), <- (DecimalZ.of_to b), H. reflexivity.
Qed.

Lemma number_to_string_nonempty (z : Z) : number_to_string z <> [].
Proof.
  unfold number_to_string. intros H.
  apply (f_equal string_of_list_ascii) in H.
  rewrite string_of_list_ascii_of_string in H. simpl in H.
  apply (f_equal NilEmpty.int_of_string) in H.
  rewrite NilEmpty.isi in H. simpl in H. injection H as H.
  destruct z as [|p|p]; simpl in H; try discriminate.
  injection H as H. exact (DecimalPos.Unsigned.to_uint_nonnil p H).
Qed.

Lemma app_dash_inj (x y a b : jsstring) :
  ~ In "-"%char x -> ~ In "-"%char y ->
  x ++ "-"%char :: a = y ++ "-"%char :: b -> x = y /\ a = b.
Proof.
  revert y. induction x as [|c x IH]; intros [|e y] Hx Hy H; simpl in *.
  - injection H as ->. split; reflexivity.
  - injection H as <- _. exfalso. apply Hy. left. reflexivity.
  - injection H as -> _. exfalso. apply Hx. left. reflexivity.
  - injection H as -> H.
    destruct (IH y) as [-> ->]; [tauto | tauto | exact H |].
    split; reflexivity.
Qed.

Lemma join_dash_inj (xs ys : list jsstring) :
  Forall dash_free xs -> Forall dash_free ys ->
  join (lit "-") xs = join (lit "-") ys -> xs = ys.
Proof.
  revert ys. induction xs as [|x xs IH]; intros ys Hxs Hys H.
  - destruct ys as [|y ys]; [reflexivity|]. exfalso.
    inversion Hys as [|? ? [Hy _] _]; subst.
    destruct ys; simpl in H; destruct y; try discriminate; congruence.
  - destruct ys as [|y ys].
    + exfalso. inversion Hxs as [|? ? [Hx _] _]; subst.
      destruct xs; simpl in H; destruct x; try discriminate; congruence.
    + inversion Hxs as [|? ? [Hx Hdx] Hxs']; subst.
      inversion Hys as [|? ? [Hy Hdy] Hys']; subst.
      destruct xs as [|x' xs], ys as [|y' ys].
      * simpl in H. subst. reflexivity.
      * exfalso. change (x = y ++ "-"%char :: join (lit "-") (y' :: ys)) in H.
        apply Hdx. rewrite H. apply in_or_app. right. left. reflexivity.
      * exfalso. change (x ++ "-"%char :: join (lit "-") (x' :: xs) = y) in H.
        apply Hdy. rewrite <- H. apply in_or_app. right. left. reflexivity.
      * change (x ++ "-"%char :: join (lit "-") (x' :: xs)
                = y ++ "-"%char :: join (lit "-") (y' :: ys)) in H.
        destruct (app_dash_inj _ _ _ _ Hdx Hdy H) as [-> Hrest].
        f_equal. apply IH; assumption.
Qed.

Lemma indices_dash_free (q : list Z) :
  Forall (fun i => (0 <= i)%Z) q -> Forall dash_free (map number_to_string q).
Proof.
  induction 1 as [|i q Hi _ IH]; simpl; constructor; [|exact IH].
  split; [apply number_to_string_nonempty | apply number_to_string_digits, Hi].
Qed.

Lemma map_number_to_string_inj (qa qb : list Z) :
  map number_to_string qa = map number_to_string qb -> qa = qb.
Proof.
  revert qb. induction qa as [|i qa IH]; intros [|j qb] Heq;
    simpl in Heq; try discriminate; [reflexivity|].
  injection Heq as Hij Heq.
  f_equal; [apply number_to_string_inj, Hij | apply IH, Heq].
Qed.

Lemma join_cons_cons (sep x y : jsstring) (r : list jsstring) :
  join sep (x :: y :: r) = x ++ sep ++ join sep (y :: r).
Proof. reflexivity. Qed.

Lemma join_minus_one_inj (qa qb : list Z) :
  Forall (fun i => (0 <= i)%Z) qa -> Forall (fun i => (0 <= i)%Z) qb ->
  join (lit "-") (map number_to_string ((-1)%Z :: qa))
  = join (lit "-") (map number_to_string ((-1)%Z :: qb)) ->
  qa = qb.
Proof.
  intros Ha Hb H. apply map_number_to_string_inj.
  apply indices_dash_free in Ha, Hb.
  destruct qa as [|i qa], qb as [|j qb]; simpl map in *.
  - reflexivity.
  - exfalso. rewrite join_cons_cons in H.
    apply (f_equal (@length ascii)) in H.
    rewrite !length_app in H. simpl in H. lia.
  - exfalso. rewrite join_cons_cons in H.
    apply (f_equal (@length ascii)) in H.
    rewrite !length_app in H. simpl in H. lia.
  - rewrite !(join_cons_cons _ (number_to_string (-1))) in H.
    apply app_inv_head in H. apply app_inv_head in H.
    apply join_dash_inj in H; assumption.
Qed.

Lemma join_minus_one_differs (qa qb : list Z) :
  Forall (fun i => (0 <= i)%Z) qa ->
  join (lit "-") (map number_to_string qa)
  <> join (lit "-") (map number_to_string ((-1)%Z :: qb)).
Proof.
  intros Ha H. apply indices_dash_free in Ha.
  assert (Hhead : exists rest,
            join (lit "-") (map number_to_string ((-1)%Z :: qb))
            = "-"%char :: rest).
  { destruct qb; simpl; eexists; reflexivity. }
  destruct Hhead as [rest Hrest]. rewrite Hrest in H.
  destruct qa as [|i qa]; [discriminate|].
  inversion Ha as [|? ? [Hne Hd] _]; subst.
  simpl map in H. destruct (number_to_string i) as [|c s] eqn:Ei;
    [contradiction|].
  assert (Hc : c = "-"%char).
  { destruct (map number_to_string qa); simpl in H; injection H as -> _;
      reflexivity. }
  apply Hd. left. exact Hc.
Qed.

Lemma same_root_path_inj (d : dom) (a b r : node) (pa pb : jsstring) :
  dom_wf d -> tree_root d a = Some r -> tree_root d b = Some r ->
  _getElementPath d a = Some pa -> _getElementPath d b = Some pb ->
  pa = pb -> a = b.
Proof.
  intros Hwf Ha Hb. unfold _getElementPath, tree_root in *.
  destruct (path_loop d (S (depth d a)) (Some a) []) as [qa|] eqn:Eqa;
    [|discriminate].
  destruct (path_loop d (S (depth d b)) (Some b) []) as [qb|] eqn:Eqb;
    [|discriminate].
  intros [= <-] [= <-] Heq.
  destruct (path_loop_root d Hwf _ _ _ _ _ Ha Eqa) as (qa' & -> & Hda & Hpa).
  destruct (path_loop_root d Hwf _ _ _ _ _ Hb Eqb) as (qb' & -> & Hdb & Hpb).
  rewrite !app_nil_r in Heq. unfold path_from in Heq.
  assert (Hq : qa' = qb').
  { destruct (decide (r = body d)).
    - apply join_dash_inj in Heq; try (apply indices_dash_free; assumption).
      apply map_number_to_string_inj, Heq.
    - apply join_minus_one_inj; assumption. }
  subst qb'. rewrite Hda in Hdb. injection Hdb as ->. reflexivity.
Qed.

Lemma attached_path_differs (d : dom) (a b : node) (pa pb : jsstring) :
  dom_wf d -> attached d a = true -> attached d b = false ->
  _getElementPath d a = Some pa -> _getElementPath d b = Some pb ->
  pa <> pb.
Proof.
  intros Hwf Ha Hb. unfold attached in *.
  destruct (decide (tree_root d a = Some (body d))) as [Hra|]; [|discriminate].
  destruct (decide (tree_root d b = Some (body d))) as [|Hrb]; [discriminate|].
  unfold _getElementPath, tree_root in *.
  destruct (path_loop d (S (depth d a)) (Some a) []) as [qa|] eqn:Eqa;
    [|discriminate].
  destruct (path_loop d (S (depth d b)) (Some b) []) as [qb|] eqn:Eqb;
    [|discriminate].
  intros [= <-] [= <-] Heq.
  destruct (root_of d (S (depth d b)) b) as [r|] eqn:Hr.
  - destruct (path_loop_root d Hwf _ _ _ _ _ Hra Eqa) as (qa' & -> & _ & Hpa).
    destruct (path_loop_root d Hwf _ _ _ _ _ Hr Eqb) as (qb' & -> & _ & Hpb).
    rewrite !app_nil_r in Heq. unfold path_from in Heq.
    rewrite decide_True in Heq by reflexivity.
    rewrite decide_False in Heq by congruence.
    exact (join_minus_one_differs qa' qb' Hpa Heq).
  - destruct (root_of_total d Hwf (S (depth d b)) b (Nat.lt_succ_diag_r _))
      as [r Hr']. rewrite Hr in Hr'. discriminate.
Qed.

Lemma instance_key_total (d : dom) (name : jsstring) (a : node) :
  dom_wf d -> is_Some (_getInstanceKey d name a).
Proof.
  intros Hwf. unfold _getInstanceKey, _getElementPath.
  destruct (id_of d a); [|eexists; reflexivity].
  destruct (path_loop_total d Hwf (S (depth d a)) a [] (Nat.lt_succ_diag_r _))
    as [p ->].
  eexists; reflexivity.
Qed.

(** X29. In a well-formed document every element has an instance key for
    every component name: the name, a colon and the target's [id], or,
    when it has none, [_anonymous_] and its structural path.  Two distinct
    targets without an [id] get distinct keys for the same component name
    when one of them lies below [document.body] or when both lie in the
    same tree. *)
Theorem instance_key_distinct (d : dom) (name : jsstring) (a b : node) :
  dom_wf d ->
  (exists key, _getInstanceKey d name a = Some key /\
     (id_of d a <> [] -> key = name ++ lit ":" ++ id_of d a) /\
     (id_of d a = [] ->
      exists path, _getElementPath d a = Some path /\
                   key = name ++ lit ":" ++ lit "_anonymous_" ++ path))
  /\ (a <> b -> id_of d a = [] -> id_of d b = [] ->
      attached d a = true \/ attached d b = true
      \/ tree_root d a = tree_root d b ->
      _getInstanceKey d name a <> _getInstanceKey d name b).
Proof.
  intros Hwf. split.
  - destruct (instance_key_total d name a Hwf) as [key Hkey].
    exists key. split; [exact Hkey|]. unfold _getInstanceKey in Hkey. split.
    + intros Hid. destruct (id_of d a); [contradiction|].
      injection Hkey as <-. reflexivity.
    + intros Hid. rewrite Hid in Hkey.
      destruct (_getElementPath d a) as [path|]; [|discriminate].
      injection Hkey as <-. exists path. split; reflexivity.
  - intros Hab Ha Hb Hwhere Heq.
    destruct (instance_key_total d name a Hwf) as [ka Hka].
    destruct (instance_key_total d name b Hwf) as [kb Hkb].
    unfold _getInstanceKey in Heq, Hka, Hkb. rewrite Ha in Heq, Hka.
    rewrite Hb in Heq, Hkb.
    destruct (_getElementPath d a) as [pa|] eqn:Epa; [|discriminate].
    destruct (_getElementPath d b) as [pb|] eqn:Epb; [|discriminate].
    injection Heq as Heq. apply app_inv_head in Heq.
    simpl in Heq. injection Heq as Heq.
    destruct (root_of_total d Hwf (S (depth d a)) a (Nat.lt_succ_diag_r _))
      as [ra Hra].
    destruct (root_of_total d Hwf (S (depth d b)) b (Nat.lt_succ_diag_r _))
      as [rb Hrb].
    fold (tree_root d a) in Hra. fold (tree_root d b) in Hrb.
    assert (Hsame : tree_root d a = tree_root d b -> False).
    { intros E. rewrite Hra, Hrb in E. injection E as <-.
      exact (Hab (same_root_path_inj d a b ra pa pb Hwf Hra Hrb Epa Epb Heq)). }
    destruct Hwhere as [Hat|[Hat|Hroot]]; [| |exact (Hsame Hroot)].
    + destruct (attached d b) eqn:Hatb.
      * apply Hsame. unfold attached in Hat, Hatb.
        destruct (decide (tree_root d a = Some (body d))) as [->|];
          [|discriminate].
        destruct (decide (tree_root d b = Some (body d))) as [->|];
          [reflexivity|discriminate].
      * exact (attached_path_differs d a b pa pb Hwf Hat Hatb Epa Epb Heq).
    + destruct (attached d a) eqn:Hata.
      * apply Hsame. unfold attached in Hat, Hata.
        destruct (decide (tree_root d a = Some (body d))) as [->|];
          [|discriminate].
        destruct (decide (tree_root d b = Some (body d))) as [->|];
          [reflexivity|discriminate].
      * symmetry in Heq.
        exact (attached_path_differs d b a pb pa Hwf Hat Hata Epb Epa Heq).
Qed.

Lemma page_doc_wf : dom_wf page_doc.
Proof.
  split; intros c p H; simpl in H.
  - repeat (rewrite lookup_insert in H; case_decide;
            [injection H as <-; subst; vm_compute; tauto|]).
    rewrite lookup_singleton in H.
    case_decide; [injection H as <-; subst; vm_compute; tauto|discriminate].
  - repeat (rewrite lookup_insert in H; case_decide;
            [injection H as <-; subst; vm_compute; lia|]).
    rewrite lookup_singleton in H.
    case_decide; [injection H as <-; subst; vm_compute; lia|discriminate].
Qed.

Lemma scattered_doc_wf : dom_wf scattered_doc.
Proof.
  split; intros c p H; simpl in H.
  - repeat (rewrite lookup_insert in H; case_decide;
            [injection H as <-; subst; vm_compute; tauto|]).
    rewrite lookup_singleton in H.
    case_decide; [injection H as <-; subst; vm_compute; tauto|discriminate].
  - repeat (rewrite lookup_insert in H; case_decide;
            [injection H as <-; subst; vm_compute; lia|]).
    rewrite lookup_singleton in H.
    case_decide; [injection H as <-; subst; vm_compute; lia|discriminate].
Qed.

Lemma instance_key_distinct_witness :
  _getInstanceKey page_doc (lit "nav") 2 <> _getInstanceKey page_doc (lit "nav") 3.
Proof.
  refine (proj2 (instance_key_distinct page_doc (lit "nav") 2 3 page_doc_wf)
            _ _ _ _).
  - lia.
  - reflexivity.
  - reflexivity.
  - right. right. reflexivity.
Defined.

(** C9: the claim has distinct targets without an [id] get distinct keys,
    and the code's own comment calls the key unique; the code gives two
    distinct elements that sit at the same place of two shadow trees, or
    that are attached nowhere, one and the same key.  The climb of
    [_getElementPath] ends at a node without a parent with the index -1 and
    keeps nothing of that node. *)
Theorem C9_anonymous_keys_collide :
  dom_wf scattered_doc
  /\ id_of scattered_doc 11 = [] /\ id_of scattered_doc 21 = []
  /\ _getInstanceKey scattered_doc (lit "nav") 11 = Some (lit "nav:_anonymous_-1-0")
  /\ _getInstanceKey scattered_doc (lit "nav") 21 = Some (lit "nav:_anonymous_-1-0")
  /\ _getInstanceKey scattered_doc (lit "nav") 30 = Some (lit "nav:_anonymous_-1")
  /\ _getInstanceKey scattered_doc (lit "nav") 31 = Some (lit "nav:_anonymous_-1")
  /\ tree_root scattered_doc 11 = Some 10 /\ tree_root scattered_doc 21 = Some 20
  /\ tree_root scattered_doc 30 = Some 30 /\ tree_root scattered_doc 31 = Some 31.
Proof.
  split; [exact scattered_doc_wf|].
  repeat split; vm_compute; reflexivity.
Qed.

(** ** Target resolution *)

Lemma names_element_resolved (d : dom) (t : target) (e : node) :
  accepted_by_query d t ->
  names_element d t e <-> _resolveTarget d t = Returns (Some e).
Proof.
  intros Hq. destruct t as [e'|str|]; simpl in *.
  - split; [intros -> | intros H; injection H as ->]; reflexivity.
  - destruct (querySelector d str) as [e'| |] eqn:Eq.
    + split.
      * intros [H|(H & _)]; [injection H as ->; reflexivity | discriminate H].
      * intros H. injection H as ->. left. reflexivity.
    + destruct (includes " " str), (startsWith "." str), (startsWith "[" str);
        simpl; split;
        try (intros [H|(_ & H1 & H2 & H3 & H)]; discriminate);
        try (intros H; discriminate H).
      * intros [H|(_ & _ & _ & _ & H)]; [discriminate H|].
        rewrite H. reflexivity.
      * intros H. injection H as H. right. auto.
    + contradiction.
  - split; [contradiction | discriminate].
Qed.

Lemma names_nothing_resolved (d : dom) (t : target) :
  accepted_by_query d t ->
  (forall e, ~ names_element d t e) -> _resolveTarget d t = Returns None.
Proof.
  intros Hq Hnone.
  destruct (_resolveTarget d t) as [[e|]|] eqn:E.
  - exfalso. apply (Hnone e), names_element_resolved; assumption.
  - reflexivity.
  - exfalso. destruct t as [e'|str|]; simpl in *; try discriminate E.
    destruct (querySelector d str) as [e'| |]; try discriminate E.
    + destruct (negb _ && _ && _); discriminate E.
    + contradiction.
Qed.

(** C8 (as amended): an element given as the target is taken as it is; a
    string that the host takes as a selector stands for the first element
    the selector query finds, and only when the query finds none and the
    string holds no space and begins with neither a dot nor an opening
    bracket for the element of that identifier.  The call goes on to lock
    the key of the element its target stands for; when the target stands
    for no element the call ends with the target-not-found error, the
    loader is left as it was (no lock, no handler, no logged effect) and no
    other call is touched. *)
Theorem C8_target_resolution (s : system) (t : nat) (ok : bool) (c : call) :
  calls s !! t = Some (c, Called) ->
  accepted_by_query (doc s) (call_target c) ->
  (forall e, names_element (doc s) (call_target c) e ->
     step s t ok
     = match _getInstanceKey (doc s) (componentName c) e with
       | Some lockKey => enter s t c lockKey
       | None => set_call s t c Diverged (ldr s)
       end)
  /\ ((forall e, ~ names_element (doc s) (call_target c) e) ->
      ldr (step s t ok) = ldr s
      /\ control_of (step s t ok) t = Some (Thrown TargetNotFound)
      /\ forall t', t' <> t -> calls (step s t ok) !! t' = calls s !! t')
  /\ (forall e e', names_element (doc s) (call_target c) e ->
        names_element (doc s) (call_target c) e' -> e = e').
Proof.
  intros Hc Hq. split; [|split].
  - intros e He. apply names_element_resolved in He; [|exact Hq].
    unfold step. rewrite Hc, He. reflexivity.
  - intros Hnone.
    pose proof (names_nothing_resolved _ _ Hq Hnone) as Hr.
    unfold step. rewrite Hc, Hr.
    unfold set_call, control_of. simpl. split; [reflexivity|]. split.
    + rewrite list_lookup_insert_eq; [reflexivity|].
      apply lookup_lt_Some in Hc. exact Hc.
    + intros t' Hne. apply list_lookup_insert_ne. congruence.
  - intros e e' He He'.
    apply names_element_resolved in He, He'; try exact Hq. congruence.
Qed.

Lemma C8_target_resolution_witness :
  ldr (step (start page_doc [lost_call]) 0 true) = new_loader
  /\ control_of (step (start page_doc [lost_call]) 0 true) 0
     = Some (Thrown TargetNotFound).
Proof.
  assert (Hq : accepted_by_query page_doc (TString (lit "missing")))
    by (vm_compute; discriminate).
  assert (Hnone : forall e, ~ names_element page_doc (TString (lit "missing")) e).
  { intros e [H|(_ & _ & _ & _ & H)]; vm_compute in H; discriminate H. }
  pose proof (proj1 (proj2 (C8_target_resolution (start page_doc [lost_call])
                              0 true lost_call eq_refl Hq)) Hnone) as H.
  split; [exact (proj1 H) | exact (proj1 (proj2 H))].
Defined.

(** C8, the claim as stated, fails.  The string "a.b" holds a dot, the
    selector query finds nothing for it, and the loader still looks it up
    as an identifier and returns the element of that [id].  And the string
    "1header" holds no punctuation and is the [id] of an element, but the
    selector query refuses it: the identifier is never looked up, and the
    call ends with the error of the query, not with the target-not-found
    error. *)
Lemma C8_dotted_identifier_is_looked_up :
  contains_selector_punctuation (lit "a.b") = true
  /\ querySelector dotted_id_doc (lit "a.b") = NoMatch
  /\ _resolveTarget dotted_id_doc (TString (lit "a.b")) = Returns (Some 7)
  /\ contains_selector_punctuation (lit "1header") = false
  /\ getElementById digit_id_doc (lit "1header") = Some 7
  /\ _resolveTarget digit_id_doc (TString (lit "1header")) = ThrowsSyntaxError
  /\ control_of (step (start digit_id_doc [digit_call]) 0 true) 0
     = Some (Thrown SelectorSyntaxError).
Proof. repeat split. Qed.

(** ** One injection at a time per instance key *)

Lemma holders_neutral (t : nat) (k : jsstring) (es l : list event)
  (H : gmap jsstring nat) :
  neutral t k es -> holders l = Some H -> H !! k = Some t ->
  holders (es ++ l) = Some H.
Proof.
  intros Hn Hl Hk. induction Hn as [|e es (a & -> & Ha & Hr) _ IH];
    [exact Hl|].
  simpl. rewrite IH.
  destruct a; try contradiction; rewrite decide_True by exact Hk; reflexivity.
Qed.

Lemma track_all_spec (t : nat) (k : jsstring) (hs : list handler) :
  forall L,
    let L' := fold_left (fun L0 h => _trackEventListener L0 t k h) hs L in
    injectionLocks L' = injectionLocks L
    /\ _currentReleaseLock L' = _currentReleaseLock L
    /\ resolved L' = resolved L
    /\ fresh L' = fresh L
    /\ exists es, log L' = es ++ log L /\ neutral t k es.
Proof.
  induction hs as [|h hs IH]; intros L; simpl.
  - repeat split; try reflexivity. exists []. split; [reflexivity|constructor].
  - destruct (IH (_trackEventListener L t k h)) as (H1 & H2 & H3 & H4 & es & H5 & H6).
    simpl in *. rewrite H1, H2, H3, H4. repeat split; try reflexivity.
    exists (es ++ [Ev t k (Tracked h)]). split.
    + rewrite H5. simpl. rewrite <- app_assoc. reflexivity.
    + apply Forall_app. split; [exact H6|].
      constructor; [|constructor]. eexists. repeat split; discriminate.
Qed.

Lemma run_stage_spec (L : loader) (t : nat) (k : jsstring) (o : options)
  (st : stage) :
  injectionLocks (run_stage L t k o st) = injectionLocks L
  /\ _currentReleaseLock (run_stage L t k o st) = _currentReleaseLock L
  /\ resolved (run_stage L t k o st) = resolved L
  /\ fresh (run_stage L t k o st) = fresh L
  /\ exists es, log (run_stage L t k o st) = es ++ log L /\ neutral t k es.
Proof.
  assert (Hone : forall a, a <> Acquired -> a <> Released -> neutral t k [Ev t k a]).
  { intros a H1 H2. constructor; [|constructor]. exists a. auto. }
  destruct st; simpl;
    try (repeat split; try reflexivity;
         eexists [_]; split; [reflexivity | apply Hone; discriminate]).
  - unfold _cleanupEventListeners.
    destruct (eventHandlers L !! k) as [hs|]; simpl.
    + repeat split; try reflexivity.
      exists (Ev t k (Did CleanupHandlers)
              :: rev (map (fun h => Ev t k (Detached h)) hs)).
      split; [reflexivity|]. constructor.
      * eexists. repeat split; discriminate.
      * apply Forall_rev, Forall_map, Forall_forall. intros h _.
        eexists. repeat split; discriminate.
    + repeat split; try reflexivity.
      eexists [_]; split; [reflexivity | apply Hone; discriminate].
  - destruct (track_all_spec t k (init_handlers o) L)
      as (H1 & H2 & H3 & H4 & es & H5 & H6).
    simpl in *. repeat split; try assumption.
    exists (Ev t k (Did Initialize) :: es). split.
    + rewrite H5. reflexivity.
    + constructor; [|exact H6]. eexists. repeat split; discriminate.
Qed.

Lemma lookup_set_call_eq (s : system) (t : nat) (c : call)
  (ctl ctl' : control) (L : loader) :
  calls s !! t = Some (c, ctl) ->
  calls (set_call s t c ctl' L) !! t = Some (c, ctl').
Proof.
  intros Hat.
  unfold set_call. simpl. apply list_lookup_insert_eq.
  apply lookup_lt_Some in Hat. exact Hat.
Qed.

Lemma lookup_set_call_ne (s : system) (t : nat) (c : call)
  (ctl' : control) (L : loader) (t' : nat) :
  t' <> t -> calls (set_call s t c ctl' L) !! t' = calls s !! t'.
Proof.
  intros Hne. unfold set_call. simpl. apply list_lookup_insert_ne. congruence.
Qed.

Lemma running_idle_idle (s : system) (t : nat) (c : call)
  (ctl ctl' : control) (L : loader) (H : gmap jsstring nat) :
  calls s !! t = Some (c, ctl) -> running_calls s H ->
  idle ctl -> idle ctl' -> running_calls (set_call s t c ctl' L) H.
Proof.
  intros Hat Hrun Hi Hi'. destruct Hrun as [Hc Hd]. split.
  - intros t0 c0 k0 todo Ht0. destruct (decide (t0 = t)) as [->|Hne].
    + rewrite (lookup_set_call_eq _ _ _ _ _ _ Hat) in Ht0. injection Ht0 as _ Hctl.
      exfalso. exact (Hi' _ _ Hctl).
    + rewrite lookup_set_call_ne in Ht0 by exact Hne. eauto.
  - intros k0 t0 Hk0. destruct (Hd k0 t0 Hk0) as (c0 & todo & Ht0).
    destruct (decide (t0 = t)) as [->|Hne].
    + rewrite Hat in Ht0. injection Ht0 as _ Hctl. exfalso. exact (Hi _ _ Hctl).
    + exists c0, todo. rewrite lookup_set_call_ne by exact Hne. exact Ht0.
Qed.

Lemma running_idle_running (s : system) (t : nat) (c : call)
  (ctl ctl' : control) (L : loader) (H : gmap jsstring nat)
  (k : jsstring) (todo : list stage) :
  calls s !! t = Some (c, ctl) -> running_calls s H ->
  idle ctl -> ctl' = Running k todo -> H !! k = None ->
  running_calls (set_call s t c ctl' L) (<[k := t]> H).
Proof.
  intros Hat Hrun Hi -> Hk. destruct Hrun as [Hc Hd]. split.
  - intros t0 c0 k0 todo0 Ht0. destruct (decide (t0 = t)) as [->|Hne].
    + rewrite (lookup_set_call_eq _ _ _ _ _ _ Hat) in Ht0. injection Ht0 as _ -> _.
      apply lookup_insert_eq.
    + rewrite lookup_set_call_ne in Ht0 by exact Hne.
      pose proof (Hc _ _ _ _ Ht0) as Hk0.
      rewrite lookup_insert_ne; [exact Hk0|]. intros ->. congruence.
  - intros k0 t0 Hk0. destruct (decide (k = k0)) as [<-|Hne].
    + rewrite lookup_insert_eq in Hk0. injection Hk0 as <-.
      exists c, todo. apply (lookup_set_call_eq _ _ _ _ _ _ Hat).
    + rewrite lookup_insert_ne in Hk0 by exact Hne.
      destruct (Hd k0 t0 Hk0) as (c0 & todo0 & Ht0).
      exists c0, todo0. rewrite lookup_set_call_ne; [exact Ht0|].
      intros ->. rewrite Hat in Ht0. injection Ht0 as _ Hctl.
      exact (Hi _ _ Hctl).
Qed.

Lemma running_running_running (s : system) (t : nat) (c : call)
  (ctl ctl' : control) (L : loader) (H : gmap jsstring nat)
  (k : jsstring) (todo todo' : list stage) :
  calls s !! t = Some (c, ctl) -> running_calls s H ->
  ctl = Running k todo -> ctl' = Running k todo' ->
  running_calls (set_call s t c ctl' L) H.
Proof.
  intros Hat Hrun -> ->. destruct Hrun as [Hc Hd]. split.
  - intros t0 c0 k0 todo0 Ht0. destruct (decide (t0 = t)) as [->|Hne].
    + rewrite (lookup_set_call_eq _ _ _ _ _ _ Hat) in Ht0. injection Ht0 as _ -> _. eauto.
    + rewrite lookup_set_call_ne in Ht0 by exact Hne. eauto.
  - intros k0 t0 Hk0. destruct (Hd k0 t0 Hk0) as (c0 & todo0 & Ht0).
    destruct (decide (t0 = t)) as [->|Hne].
    + rewrite Hat in Ht0. injection Ht0 as <- <- <-.
      exists c, todo'. apply (lookup_set_call_eq _ _ _ _ _ _ Hat).
    + exists c0, todo0. rewrite lookup_set_call_ne by exact Hne. exact Ht0.
Qed.

Lemma running_running_idle (s : system) (t : nat) (c : call)
  (ctl ctl' : control) (L : loader) (H : gmap jsstring nat)
  (k : jsstring) (todo : list stage) :
  calls s !! t = Some (c, ctl) -> running_calls s H ->
  ctl = Running k todo -> idle ctl' ->
  running_calls (set_call s t c ctl' L) (delete k H).
Proof.
  intros Hat Hrun -> Hi'. destruct Hrun as [Hc Hd]. split.
  - intros t0 c0 k0 todo0 Ht0. destruct (decide (t0 = t)) as [->|Hne].
    + rewrite (lookup_set_call_eq _ _ _ _ _ _ Hat) in Ht0. injection Ht0 as _ Hctl.
      exfalso. exact (Hi' _ _ Hctl).
    + rewrite lookup_set_call_ne in Ht0 by exact Hne.
      pose proof (Hc _ _ _ _ Ht0) as Hk0.
      rewrite lookup_delete_ne; [exact Hk0|]. intros ->.
      rewrite (Hc _ _ _ _ Hat) in Hk0. congruence.
  - intros k0 t0 Hk0. destruct (decide (k = k0)) as [<-|Hne].
    + rewrite lookup_delete_eq in Hk0. discriminate.
    + rewrite lookup_delete_ne in Hk0 by exact Hne.
      destruct (Hd k0 t0 Hk0) as (c0 & todo0 & Ht0).
      exists c0, todo0. rewrite lookup_set_call_ne; [exact Ht0|].
      intros ->. rewrite Hat in Ht0. injection Ht0 as _ -> _. congruence.
Qed.


Lemma inv_enter (s : system) (t : nat) (c : call) (ctl : control)
  (k : jsstring) :
  calls s !! t = Some (c, ctl) -> idle ctl -> lock_inv s ->
  lock_inv (enter s t c k).
Proof.
  intros Hat Hi (H & Hlog & Hdom & Hrun). unfold enter, _acquireLock.
  destruct (injectionLocks (ldr s) !! k) as [p|] eqn:Hk.
  - exists H. split; [exact Hlog|]. split; [exact Hdom|].
    apply (running_idle_idle s t c ctl); try assumption. intros ? ?; discriminate.
  - assert (HkH : H !! k = None) by (apply Hdom; exact Hk).
    exists (<[k := t]> H). split; [|split].
    + simpl. rewrite Hlog, HkH. reflexivity.
    + intros k0. simpl. destruct (decide (k = k0)) as [<-|Hne].
      * rewrite !lookup_insert_eq. split; discriminate.
      * rewrite !lookup_insert_ne by exact Hne. apply Hdom.
    + apply (running_idle_running s t c ctl _ _ _ k (try_block (call_options c)));
        auto.
Qed.

Lemma inv_release (s : system) (t : nat) (c : call) (k : jsstring)
  (todo : list stage) (ctl' : control) (es : list event) :
  calls s !! t = Some (c, Running k todo) -> idle ctl' -> neutral t k es ->
  lock_inv s ->
  lock_inv (set_call s t c ctl' (_releaseLock (add_events (ldr s) es) t k)).
Proof.
  intros Hat Hi Hes (H & Hlog & Hdom & Hrun).
  pose proof (proj1 Hrun _ _ _ _ Hat) as Hk.
  exists (delete k H). split; [|split].
  - simpl. rewrite (holders_neutral t k es _ H Hes Hlog Hk).
    rewrite decide_True by exact Hk. reflexivity.
  - intros k0. simpl. destruct (decide (k = k0)) as [<-|Hne].
    + rewrite !lookup_delete_eq. tauto.
    + rewrite !lookup_delete_ne by exact Hne. apply Hdom.
  - apply (running_running_idle s t c (Running k todo) _ _ _ k todo); auto.
Qed.

Lemma inv_step (s : system) (t : nat) (ok : bool) :
  lock_inv s -> lock_inv (step s t ok).
Proof.
  intros Hinv. unfold step.
  destruct (calls s !! t) as [[c ctl]|] eqn:Hat; [|exact Hinv].
  destruct ctl as [|k p|k [|st todo]| | |]; try exact Hinv.
  - destruct (_resolveTarget (doc s) (call_target c)) as [[e|]|].
    + destruct (_getInstanceKey (doc s) (componentName c) e) as [k|].
      * apply (inv_enter s t c Called); auto. intros ? ?; discriminate.
      * destruct Hinv as (H & Hlog & Hdom & Hrun). exists H.
        split; [exact Hlog|]. split; [exact Hdom|].
        apply (running_idle_idle s t c Called); auto; intros ? ?; discriminate.
    + destruct Hinv as (H & Hlog & Hdom & Hrun). exists H.
      split; [exact Hlog|]. split; [exact Hdom|].
      apply (running_idle_idle s t c Called); auto; intros ? ?; discriminate.
    + destruct Hinv as (H & Hlog & Hdom & Hrun). exists H.
      split; [exact Hlog|]. split; [exact Hdom|].
      apply (running_idle_idle s t c Called); auto; intros ? ?; discriminate.
  - case_decide; [|exact Hinv].
    apply (inv_enter s t c (Awaiting k p)); auto. intros ? ?; discriminate.
  - apply (inv_release s t c k [] Returned [] Hat); auto.
    + intros ? ?; discriminate.
    + constructor.
  - destruct ok.
    + destruct Hinv as (H & Hlog & Hdom & Hrun).
      destruct (run_stage_spec (ldr s) t k (call_options c) st)
        as (H1 & _ & _ & _ & es & H5 & H6).
      exists H. split; [|split].
      * simpl. rewrite H5.
        apply (holders_neutral t k es _ H H6 Hlog (proj1 Hrun _ _ _ _ Hat)).
      * intros k0. simpl. rewrite H1. apply Hdom.
      * apply (running_running_running s t c (Running k (st :: todo)) _ _ _
                 k (st :: todo) todo); auto.
    + apply (inv_release s t c k (st :: todo) _ [Ev t k (Failed st)] Hat); auto.
      * intros ? ?; discriminate.
      * constructor; [|constructor]. eexists. repeat split; discriminate.
Qed.

Lemma inv_start (d : dom) (cs : list call) : lock_inv (start d cs).
Proof.
  exists ∅. split; [reflexivity|]. split; [|split].
  - intros k. simpl. rewrite !lookup_empty. tauto.
  - intros t c k todo Ht. simpl in Ht. rewrite list_lookup_fmap in Ht.
    destruct (cs !! t); simpl in Ht; discriminate.
  - intros k t Hk. rewrite lookup_empty in Hk. discriminate.
Qed.

Lemma inv_run (schedule : list (nat * bool)) :
  forall s, lock_inv s -> lock_inv (run s schedule).
Proof.
  induction schedule as [|[t ok] rest IH]; intros s Hinv; [exact Hinv|].
  simpl. apply IH, inv_step, Hinv.
Qed.

(** ** A release that resolves another key's promise *)

Lemma orphaned_set_call (s : system) (t t' : nat) (c' : call)
  (ctl' : control) (L : loader) (k : jsstring) (p : promise) :
  t' <> t -> orphaned s t k p ->
  resolved L = resolved (ldr s) \/
    (exists q, _currentReleaseLock (ldr s) = Some q
               /\ resolved L = {[q]} ∪ resolved (ldr s)) ->
  _currentReleaseLock L <> Some p -> p < fresh L ->
  orphaned (set_call s t' c' ctl' L) t k p.
Proof.
  intros Hne ((c & Hc) & Hres & Hcur & Hfresh) HL HcurL HfreshL.
  split; [|split; [|split]]; try assumption.
  - exists c. rewrite lookup_set_call_ne by congruence. exact Hc.
  - simpl. destruct HL as [-> | (q & Hq & ->)]; [exact Hres|].
    intros Hin. apply elem_of_union in Hin as [Hin|Hin]; [|contradiction].
    apply elem_of_singleton in Hin. subst q. contradiction.
Qed.

Lemma orphaned_enter (s : system) (t t' : nat) (c' : call) (k' k : jsstring)
  (p : promise) :
  t' <> t -> orphaned s t k p -> orphaned (enter s t' c' k') t k p.
Proof.
  intros Hne Ho. unfold enter, _acquireLock.
  pose proof Ho as (_ & _ & Hcur & Hfresh).
  destruct (injectionLocks (ldr s) !! k').
  - apply orphaned_set_call; auto.
  - apply orphaned_set_call; simpl; auto.
    intros [= E]. lia.
Qed.

Lemma orphaned_release (s : system) (t t' : nat) (c' : call)
  (ctl' : control) (es : list event) (k' k : jsstring) (p : promise) :
  t' <> t -> orphaned s t k p ->
  orphaned (set_call s t' c' ctl' (_releaseLock (add_events (ldr s) es) t' k'))
    t k p.
Proof.
  intros Hne Ho. pose proof Ho as (_ & _ & Hcur & Hfresh).
  apply orphaned_set_call; simpl.
  - exact Hne.
  - exact Ho.
  - destruct (_currentReleaseLock (ldr s)) as [q|];
      [right; eauto | left; reflexivity].
  - discriminate.
  - exact Hfresh.
Qed.

Lemma orphaned_step (s : system) (t : nat) (k : jsstring) (p : promise)
  (t' : nat) (ok : bool) :
  orphaned s t k p -> orphaned (step s t' ok) t k p.
Proof.
  intros Ho. pose proof Ho as ((c & Hc) & Hres & Hcur & Hfresh).
  unfold step. destruct (decide (t' = t)) as [->|Hne].
  - rewrite Hc. rewrite decide_False by exact Hres. exact Ho.
  - destruct (calls s !! t') as [[c' ctl]|]; [|exact Ho].
    destruct ctl as [|k' p'|k' [|st todo]| | |]; try exact Ho.
    + destruct (_resolveTarget (doc s) (call_target c')) as [[e|]|].
      * destruct (_getInstanceKey (doc s) (componentName c') e) as [k'|].
        -- apply orphaned_enter; assumption.
        -- apply orphaned_set_call; auto.
      * apply orphaned_set_call; auto.
      * apply orphaned_set_call; auto.
    + case_decide; [apply orphaned_enter; assumption | exact Ho].
    + apply (orphaned_release s t t' c' Returned [] k' k p Hne Ho).
    + destruct ok.
      * destruct (run_stage_spec (ldr s) t' k' (call_options c') st)
          as (_ & H2 & H3 & H4 & _).
        apply orphaned_set_call; auto; [congruence | lia].
      * apply (orphaned_release s t t' c' _ [Ev t' k' (Failed st)] k' k p Hne Ho).
Qed.

Lemma orphaned_run (schedule : list (nat * bool)) :
  forall s t k p, orphaned s t k p -> orphaned (run s schedule) t k p.
Proof.
  induction schedule as [|[t' ok] rest IH]; intros s t k p Ho; [exact Ho|].
  simpl. apply IH, orphaned_step, Ho.
Qed.

(** C3, at the failing input: the navigation is injected into the header,
    the footer into another element, the navigation into the header again,
    and the first fragment fails to load.  The first call ends with the
    error and its key is unregistered, but its release has resolved the
    footer's promise, the only one the loader still had a resolver for; the
    promise the third call waits on is never resolved, and whatever runs
    afterwards the third call stays suspended. *)
Theorem C3_failed_injection_strands_waiter (rest : list (nat * bool)) :
  let s := run (start page_doc three_calls) first_call_fails in
  control_of s 0 = Some (Thrown (StageError LoadFragment))
  /\ injectionLocks (ldr s) !! lit "navigation:header" = None
  /\ injectionLocks (ldr s) !! lit "footer:_anonymous_1" = Some 1
  /\ resolved (ldr s) = {[1]}
  /\ control_of s 2 = Some (Awaiting (lit "navigation:header") 0)
  /\ control_of (run s rest) 2 = Some (Awaiting (lit "navigation:header") 0).
Proof.
  intros s.
  assert (Hr : resolved (ldr s) = {[1]}) by (vm_compute; reflexivity).
  assert (Ho : orphaned s 2 (lit "navigation:header") 0).
  { split; [|split; [|split]].
    - eexists. vm_compute. reflexivity.
    - rewrite Hr, elem_of_singleton. discriminate.
    - vm_compute. discriminate.
    - vm_compute. lia. }
  split; [vm_compute; reflexivity|].
  split; [vm_compute; reflexivity|].
  split; [vm_compute; reflexivity|].
  split; [exact Hr|split].
  - vm_compute. reflexivity.
  - destruct (orphaned_run rest s 2 _ 0 Ho) as ((c & Hc) & _).
    unfold control_of. rewrite Hc. reflexivity.
Qed.

(** ** Handlers of a replaced component *)

Lemma track_all_handlers (t : nat) (k : jsstring) (hs : list handler) :
  forall L,
    let L' := fold_left (fun L0 h => _trackEventListener L0 t k h) hs L in
    handlers_of L' k = handlers_of L k ++ hs
    /\ (forall k', k' <> k -> eventHandlers L' !! k' = eventHandlers L !! k')
    /\ log L' = rev (map (fun h => Ev t k (Tracked h)) hs) ++ log L.
Proof.
  induction hs as [|h hs IH]; intros L; simpl.
  - split; [|split]; [rewrite app_nil_r; reflexivity | reflexivity | reflexivity].
  - destruct (IH (_trackEventListener L t k h)) as (H1 & H2 & H3).
    simpl in H1, H2, H3. rewrite H1, H3. split; [|split].
    + unfold handlers_of, _trackEventListener. simpl.
      destruct (eventHandlers L !! k) as [old|] eqn:Hk.
      * rewrite lookup_alter_eq, Hk. simpl. rewrite <- app_assoc. reflexivity.
      * rewrite lookup_alter_eq, lookup_insert_eq. simpl. reflexivity.
    + intros k' Hne. rewrite (H2 k' Hne). unfold _trackEventListener. simpl.
      rewrite lookup_alter_ne by congruence.
      destruct (eventHandlers L !! k); [reflexivity|].
      apply lookup_insert_ne. congruence.
    + simpl. rewrite <- app_assoc. reflexivity.
Qed.

Lemma cleanup_spec (L : loader) (t : nat) (k : jsstring) :
  handlers_of (_cleanupEventListeners L t k) k = []
  /\ (forall k', k' <> k ->
        eventHandlers (_cleanupEventListeners L t k) !! k'
        = eventHandlers L !! k')
  /\ log (_cleanupEventListeners L t k)
     = rev (map (fun h => Ev t k (Detached h)) (handlers_of L k)) ++ log L.
Proof.
  unfold _cleanupEventListeners, handlers_of.
  destruct (eventHandlers L !! k) as [old|] eqn:Hk; simpl.
  - rewrite lookup_delete_eq. split; [reflexivity|]. split; [|reflexivity].
    intros k' Hne. apply lookup_delete_ne. congruence.
  - rewrite Hk. repeat split.
Qed.












(** ** Scripts of an injected fragment *)

Lemma markup_nested_ind (P : markup -> Prop) :
  (forall s, P (Text s)) ->
  (forall tag attrs kids, Forall P kids -> P (Element tag attrs kids)) ->
  forall m, P m.
Proof.
  intros HT HE. fix IH 1. intros [s|tag attrs kids]; [apply HT|].
  apply HE. induction kids as [|m kids IHk]; constructor; [apply IH|exact IHk].
Qed.

Lemma strip_removes_scripts (m : markup) :
  flat_map scripts_of (strip m) = [].
Proof.
  induction m as [s|tag attrs kids IH] using markup_nested_ind;
    [reflexivity|].
  simpl. destruct (is_script tag) eqn:Etag; [reflexivity|].
  simpl. rewrite Etag, app_nil_r. simpl.
  induction IH as [|m kids Hm _ IHk]; [reflexivity|].
  simpl. rewrite flat_map_app, Hm, IHk. reflexivity.
Qed.

Lemma strip_all_removes_scripts (fragment : list markup) :
  flat_map scripts_of (flat_map strip fragment) = [].
Proof.
  induction fragment as [|m fragment IH]; [reflexivity|].
  simpl. rewrite flat_map_app, strip_removes_scripts, IH. reflexivity.
Qed.

Lemma execute_in_order_spec (loads : jsstring -> bool) (scripts : list markup) :
  List.filter is_attach (fst (execute_in_order loads scripts))
  = map attach_event (until_failure loads scripts)
  /\ snd (execute_in_order loads scripts) = all_load loads scripts
  /\ loads_awaited (fst (execute_in_order loads scripts)) = true.
Proof.
  induction scripts as [|s scripts (IH1 & IH2 & IH3)];
    [repeat split; reflexivity|].
  assert (Ha : forall c src, src_of s = c :: src ->
                 attach_event s = LoadBegan (c :: src)).
  { intros c src E. unfold attach_event. rewrite E. reflexivity. }
  assert (Hi : src_of s = [] -> attach_event s = RanInline (textContent s)).
  { intros E. unfold attach_event. rewrite E. reflexivity. }
  simpl. unfold _executeScript.
  destruct (src_of s) as [|c src] eqn:Esrc.
  - destruct (execute_in_order loads scripts) as [evs ok]. simpl in *.
    rewrite (Hi eq_refl), IH1, IH2. split; [reflexivity|].
    split; [reflexivity | exact IH3].
  - destruct (loads (c :: src)) eqn:El.
    + destruct (execute_in_order loads scripts) as [evs ok]. simpl in *.
      rewrite (Ha c src eq_refl), IH1, IH2. split; [reflexivity|].
      split; [reflexivity|].
      rewrite decide_True by reflexivity. exact IH3.
    + simpl. rewrite (Ha c src eq_refl). split; [reflexivity|].
      split; [reflexivity|].
      rewrite decide_True by reflexivity. reflexivity.
Qed.

Lemma until_failure_prefix (loads : jsstring -> bool) (scripts : list markup) :
  exists rest, scripts = until_failure loads scripts ++ rest.
Proof.
  induction scripts as [|s scripts [rest IH]]; [exists []; reflexivity|].
  simpl. destruct (src_of s) as [|c src].
  - exists rest. simpl. f_equal. exact IH.
  - destruct (loads (c :: src)).
    + exists rest. simpl. f_equal. exact IH.
    + exists scripts. reflexivity.
Qed.

Lemma until_failure_all (loads : jsstring -> bool) (scripts : list markup) :
  all_load loads scripts = true -> until_failure loads scripts = scripts.
Proof.
  induction scripts as [|s scripts IH]; [reflexivity|].
  simpl. intros H. apply andb_true_iff in H as [Hs H].
  destruct (src_of s) as [|c src].
  - f_equal. apply IH, H.
  - rewrite Hs. f_equal. apply IH, H.
Qed.

(** C5 (as amended): with script execution enabled the content is inserted
    without its script elements, and the scripts are then attached one at
    a time in document order, an inline one running as it is attached, an
    external one beginning to load as it is attached and its load settling
    before anything else is attached.  When every external load succeeds
    all scripts are attached and the injection returns; a load that fails is
    the last event, the scripts after it are not attached, and the
    injection throws.  For an inline script followed by an external one the
    inline one runs before the load begins. *)
Theorem C5_scripts_run_in_document_order (loads : jsstring -> bool)
  (fragment : list markup) (append_mode : bool) :
  let scripts := flat_map scripts_of fragment in
  let content := flat_map strip fragment in
  exists evs,
    _injectWithDOM loads fragment append_mode true
    = ((if append_mode then [] else [ClearedTarget])
       ++ AppendedFragment content :: evs,
       all_load loads scripts)
    /\ flat_map scripts_of content = []
    /\ List.filter is_attach evs = map attach_event (until_failure loads scripts)
    /\ loads_awaited evs = true
    /\ (exists rest, scripts = until_failure loads scripts ++ rest)
    /\ (all_load loads scripts = true -> until_failure loads scripts = scripts)
    /\ fst (_injectWithDOM (fun _ => true) sample_fragment false true)
       = [ClearedTarget; AppendedFragment [Element (lit "div") [] []];
          RanInline (lit "A"); LoadBegan (lit "U"); LoadSettled (lit "U") true;
          RanInline (lit "B")].
Proof.
  intros scripts content.
  destruct (execute_in_order_spec loads scripts) as (H1 & H2 & H3).
  exists (fst (execute_in_order loads scripts)).
  split; [|split; [|split; [|split; [|split; [|split]]]]].
  - unfold _injectWithDOM. fold scripts. fold content.
    destruct (execute_in_order loads scripts) as [evs ok]. simpl in *.
    rewrite H2, <- app_assoc. reflexivity.
  - apply strip_all_removes_scripts.
  - exact H1.
  - exact H3.
  - apply until_failure_prefix.
  - apply until_failure_all.
  - vm_compute. reflexivity.
Qed.

(** C5, the claim as stated, fails: when the external script that comes
    first fails to load, the inline script after it has been removed from
    the inserted content and is never attached; the injection throws. *)
Lemma C5_failed_load_drops_later_scripts :
  flat_map scripts_of external_first = [external_script "U"; inline_script "B"]
  /\ _injectWithDOM (fun _ => false) external_first false true
     = ([ClearedTarget; AppendedFragment [];
         LoadBegan (lit "U"); LoadSettled (lit "U") false], false)
  /\ ~ In (RanInline (lit "B"))
        (fst (_injectWithDOM (fun _ => false) external_first false true)).
Proof.
  split; [reflexivity|]. split; [reflexivity|].
  simpl. intros H. repeat destruct H as [H|H]; try discriminate. exact H.
Qed.

(** ** The batch loader *)

Lemma settle_all_spec (total : nat) (completions : list (jsstring * bool)) :
  forall b,
    let b' := fold_left (settle_entry true total) completions b in
    loaded b' = loaded b + length (injected_names completions)
    /\ initialized b' = initialized b
    /\ exists evs,
         emitted b' = emitted b ++ evs
         /\ List.filter is_progress evs
            = progress_from (loaded b) total (injected_names completions)
         /\ List.filter is_failure evs
            = map LoggedFailure (failed_names completions)
         /\ length evs = length completions
         /\ ~ In ComponentsReady evs.
Proof.
  induction completions as [|[name injected] completions IH]; intros b; simpl.
  - split; [lia|]. split; [reflexivity|]. exists [].
    rewrite app_nil_r. repeat split. intros [].
  - destruct (IH (settle_entry true total b (name, injected)))
      as (H1 & H2 & evs & H3 & H4 & H5 & H6 & H7).
    simpl in H1, H2, H3. rewrite H1, H2, H3.
    unfold injected_names, failed_names in *. destruct injected; simpl in *.
    + split; [lia|]. split; [reflexivity|].
      exists (Progress (S (loaded b)) total name :: evs).
      rewrite <- app_assoc. simpl. rewrite H4, H5, H6.
      repeat split. intros [H|H]; [discriminate | exact (H7 H)].
    + split; [lia|]. split; [reflexivity|].
      exists (LoggedFailure name :: evs).
      rewrite <- app_assoc. simpl. rewrite H4, H5, H6.
      repeat split. intros [H|H]; [discriminate | exact (H7 H)].
Qed.

(** C7 (as amended): for every batch, in whatever order the entries
    settle, each entry whose injection succeeds increments the counter and
    calls [onProgress] with the new count, the total and its name; each
    entry whose injection fails is logged and neither increments the counter
    nor calls [onProgress]; every entry is accounted for, so a failure does
    not abort the batch; only after all entries have settled is the loader
    marked initialized and the readiness event emitted, once, as the last
    event. *)
Theorem C7_batch_progress (completions : list (jsstring * bool)) :
  let b := loadPageComponents completions true in
  let total := length completions in
  loaded b = length (injected_names completions)
  /\ initialized b = true
  /\ exists evs,
       emitted b = evs ++ [ComponentsReady]
       /\ List.filter is_progress evs
          = progress_from 0 total (injected_names completions)
       /\ List.filter is_failure evs
          = map LoggedFailure (failed_names completions)
       /\ length evs = total
       /\ ~ In ComponentsReady evs.
Proof.
  intros b total. unfold b, loadPageComponents.
  destruct (settle_all_spec (length completions) completions
              {| loaded := 0; initialized := false; emitted := [] |})
    as (H1 & _ & evs & H3 & H4 & H5 & H6 & H7).
  simpl in *. split; [exact H1|]. split; [reflexivity|].
  exists evs. rewrite H3. repeat split; assumption.
Qed.

(** C7, the claim as stated, fails: a batch of one entry whose injection
    fails ends with the counter at zero and without any call of
    [onProgress]; the claim has the counter at one and the call
    [onProgress(1, 1, "footer")]. *)
Lemma C7_failure_is_not_counted :
  loaded (loadPageComponents [(lit "footer", false)] true) = 0
  /\ emitted (loadPageComponents [(lit "footer", false)] true)
     = [LoggedFailure (lit "footer"); ComponentsReady]
  /\ ~ In (Progress 1 1 (lit "footer"))
        (emitted (loadPageComponents [(lit "footer", false)] true)).
Proof.
  split; [reflexivity|]. split; [reflexivity|].
  simpl. intros H. repeat destruct H as [H|H]; try discriminate. exact H.
Qed.

(** ** Single-flight loading *)


Lemma store_inv_new (cache : bool) : store_inv (new_store cache).
Proof.
  split; [|split]; simpl.
  - intros p n H. rewrite lookup_nil in H. discriminate.
  - intros c n p H. rewrite lookup_nil in H. discriminate.
  - intros c c' n n' p H. rewrite lookup_nil in H. discriminate.
Qed.

Lemma store_inv_add_callers (s : store) (x : caller) :
  (forall n p, x <> Owner n p) -> store_inv s -> store_inv (add_callers s [x]).
Proof.
  intros Hx (Ha & Hb & Hc). split; [|split]; simpl.
  - exact Ha.
  - intros c n p H. apply lookup_snoc_Some in H as [[_ H]|[_ H]]; [eauto|].
    exfalso. exact (Hx _ _ H).
  - intros c c' n n' p H H'.
    apply lookup_snoc_Some in H as [[_ H]|[_ H]];
      [|exfalso; exact (Hx _ _ H)].
    apply lookup_snoc_Some in H' as [[_ H']|[_ H']];
      [|exfalso; exact (Hx _ _ H')].
    eauto.
Qed.

Lemma store_inv_load (s : store) (name : jsstring) :
  store_inv s -> store_inv (loadComponent s name).
Proof.
  intros Hinv. unfold loadComponent.
  destruct (cached s name) as [html|].
  { apply (store_inv_add_callers s (FromCache html)); [discriminate|exact Hinv]. }
  destruct (loadingStates s !! name) as [p|] eqn:Hname.
  { apply (store_inv_add_callers s (Adopts p)); [discriminate|exact Hinv]. }
  destruct Hinv as (Ha & Hb & Hc). split; [|split]; simpl.
  - intros p n H. apply lookup_snoc_Some in H as [[_ H]|[-> H]].
    + pose proof (Ha _ _ H) as Hn. rewrite lookup_insert_ne; [exact Hn|].
      intros ->. rewrite Hname in Hn; discriminate.
    + injection H as <-. apply lookup_insert_eq.
  - intros c n p H. rewrite length_app. simpl.
    apply lookup_snoc_Some in H as [[_ H]|[_ H]].
    + destruct (Hb _ _ _ H) as [Hn Hp]. split; [|lia].
      rewrite lookup_insert_ne; [exact Hn|]. intros ->.
      rewrite Hname in Hn; discriminate.
    + injection H as <- <-. split; [apply lookup_insert_eq | lia].
  - intros c c' n n' p H H'.
    apply lookup_snoc_Some in H as [[_ H]|[-> H]];
      apply lookup_snoc_Some in H' as [[_ H']|[-> H']].
    + eauto.
    + injection H' as _ <-. destruct (Hb _ _ _ H) as [_ Hp]. lia.
    + injection H as _ <-. destruct (Hb _ _ _ H') as [_ Hp]. lia.
    + reflexivity.
Qed.

Lemma store_inv_settle (s : store) (p : promise) (o : outcome) :
  store_inv s -> store_inv (settle s p o).
Proof.
  intros (Ha & Hb & Hc). unfold settle.
  destruct (retrievals s !! p) as [[name [o'|]]|] eqn:Hp;
    try (split; [|split]; assumption).
  split; [|split]; simpl.
  - intros p' n H. apply list_lookup_insert_Some in H as [(_ & H & _)|[_ H]].
    + discriminate.
    + eauto.
  - intros c n p' H. rewrite length_insert. eauto.
  - exact Hc.
Qed.

Lemma store_inv_resume (s : store) (c : nat) :
  store_inv s -> store_inv (resume s c).
Proof.
  intros (Ha & Hb & Hc). unfold resume.
  destruct (callers s !! c) as [[html|p|name p|o]|] eqn:Hcaller;
    try (split; [|split]; assumption).
  destruct (retrievals s !! p) as [[name' [o|]]|] eqn:Hp;
    try (split; [|split]; assumption).
  destruct (Hb _ _ _ Hcaller) as [Hname _].
  split; [|split]; simpl.
  - intros p' n H. pose proof (Ha _ _ H) as Hn.
    rewrite lookup_delete_ne; [exact Hn|]. intros ->.
    rewrite Hname in Hn. injection Hn as ->. rewrite Hp in H. discriminate.
  - intros c' n p' H. apply list_lookup_insert_Some in H as [(_ & H & _)|[Hne H]].
    + discriminate.
    + destruct (Hb _ _ _ H) as [Hn Hlt]. split; [|exact Hlt].
      rewrite lookup_delete_ne; [exact Hn|]. intros ->.
      apply Hne. rewrite Hname in Hn. injection Hn as ->. eauto.
  - intros c1 c2 n n' p' H1 H2.
    apply list_lookup_insert_Some in H1 as [(_ & H1 & _)|[_ H1]];
      [discriminate|].
    apply list_lookup_insert_Some in H2 as [(_ & H2 & _)|[_ H2]];
      [discriminate|].
    eauto.
Qed.

Lemma store_inv_clear (s : store) (name : option jsstring) :
  store_inv s -> store_inv (clearCache s name).
Proof. intros Hinv. destruct name as [[|c name]|]; exact Hinv. Qed.

Lemma store_inv_destroy (s : store) :
  no_load_in_flight s = true -> store_inv s -> store_inv (destroy_store s).
Proof.
  intros Hq (Ha & Hb & Hc). unfold no_load_in_flight in Hq.
  apply bool_decide_eq_true in Hq.
  split; [|split]; simpl.
  - intros p n H. pose proof (Ha _ _ H) as Hn.
    rewrite Hq, lookup_empty in Hn. discriminate Hn.
  - intros c n p H. destruct (Hb _ _ _ H) as [Hn _].
    rewrite Hq, lookup_empty in Hn. discriminate Hn.
  - exact Hc.
Qed.

Lemma store_inv_run (actions : list store_action) :
  forall s, store_inv s -> quiet_destroys s actions = true ->
            store_inv (store_run s actions).
Proof.
  induction actions as [|a actions IH]; intros s Hinv Hq; [exact Hinv|].
  simpl in Hq. apply andb_true_iff in Hq as [Ha Hq].
  simpl. apply IH; [|exact Hq]. destruct a; simpl.
  - apply store_inv_load, Hinv.
  - apply store_inv_settle, Hinv.
  - apply store_inv_resume, Hinv.
  - apply store_inv_clear, Hinv.
  - apply store_inv_destroy; assumption.
Qed.

Lemma add_callers_nil (s : store) : add_callers s [] = s.
Proof. destruct s. unfold add_callers. simpl. rewrite app_nil_r. reflexivity. Qed.

Lemma add_callers_app (s : store) (xs ys : list caller) :
  add_callers (add_callers s xs) ys = add_callers s (xs ++ ys).
Proof. unfold add_callers. simpl. rewrite <- app_assoc. reflexivity. Qed.

Lemma loads_adopt (name : jsstring) (p : promise) (k : nat) :
  forall s, cached s name = None -> loadingStates s !! name = Some p ->
    store_run s (repeat (Load name) k) = add_callers s (repeat (Adopts p) k).
Proof.
  induction k as [|k IH]; intros s Hc Hl; simpl.
  - symmetry. apply add_callers_nil.
  - assert (E : loadComponent s name = add_callers s [Adopts p]).
    { unfold loadComponent. rewrite Hc, Hl. reflexivity. }
    rewrite E, IH, add_callers_app; [reflexivity | exact Hc | exact Hl].
Qed.

Lemma lookup_repeat {A : Type} (x : A) (n i : nat) :
  i < n -> repeat x n !! i = Some x.
Proof.
  revert i. induction n as [|n IH]; intros [|i] Hi; simpl; try lia;
    [reflexivity | apply IH; lia].
Qed.

Lemma store_run_app (s : store) (xs ys : list store_action) :
  store_run s (xs ++ ys) = store_run (store_run s xs) ys.
Proof. apply fold_left_app. Qed.

Lemma settle_pending (s : store) (p : promise) (name : jsstring) (o : outcome) :
  retrievals s !! p = Some (name, None) ->
  settle s p o
  = {| cacheEnabled := cacheEnabled s; components := components s;
       loadingStates := loadingStates s;
       retrievals := <[p := (name, Some o)]> (retrievals s);
       callers := callers s; removals := removals s |}.
Proof. intros H. unfold settle. rewrite H. reflexivity. Qed.

Lemma resume_owner (s : store) (c : nat) (name name' : jsstring)
  (p : promise) (o : outcome) :
  callers s !! c = Some (Owner name p) ->
  retrievals s !! p = Some (name', Some o) ->
  resume s c
  = {| cacheEnabled := cacheEnabled s;
       components :=
         match o with
         | Fetched html =>
             if cacheEnabled s then <[name := html]> (components s)
             else components s
         | FetchFailed _ => components s
         end;
       loadingStates := delete name (loadingStates s);
       retrievals := retrievals s;
       callers := <[c := Settled o]> (callers s);
       removals := removals s ++ [name] |}.
Proof. intros Hc Hp. unfold resume. rewrite Hc, Hp. reflexivity. Qed.

Section ConcurrentLoads.

Variables (s0 : store) (name : jsstring) (before after : nat) (o : outcome).
Hypothesis Huncached : cached s0 name = None.
Hypothesis Hidle : loadingStates s0 !! name = None.

Let p := length (retrievals s0).
Let c0 := length (callers s0).

Lemma concurrent_loads_run :
  store_run s0 (concurrent_loads s0 name before after o)
  = after_loads s0 name before after o.
Proof using Huncached Hidle.
  pose (s1 := {| cacheEnabled := cacheEnabled s0; components := components s0;
                 loadingStates := <[name := p]> (loadingStates s0);
                 retrievals := retrievals s0 ++ [(name, None)];
                 callers := callers s0 ++ [Owner name p];
                 removals := removals s0 |}).
  pose (s2 := add_callers s1 (repeat (Adopts p) before)).
  pose (s3 := {| cacheEnabled := cacheEnabled s0; components := components s0;
                 loadingStates := <[name := p]> (loadingStates s0);
                 retrievals := retrievals s0 ++ [(name, Some o)];
                 callers := (callers s0 ++ [Owner name p])
                            ++ repeat (Adopts p) before;
                 removals := removals s0 |}).
  pose (s4 := add_callers s3 (repeat (Adopts p) after)).
  assert (E1 : loadComponent s0 name = s1).
  { unfold loadComponent. rewrite Huncached, Hidle. reflexivity. }
  assert (E2 : store_run s1 (repeat (Load name) before) = s2).
  { apply loads_adopt; [exact Huncached | apply lookup_insert_eq]. }
  assert (E3 : settle s2 p o = s3).
  { rewrite (settle_pending s2 p name o).
    - unfold s3, s2, s1, add_callers. simpl. f_equal.
      rewrite insert_app_r_alt by (unfold p; lia).
      replace (p - length (retrievals s0)) with 0 by (unfold p; lia).
      reflexivity.
    - simpl. apply list_lookup_middle. reflexivity. }
  assert (E4 : store_run s3 (repeat (Load name) after) = s4).
  { apply loads_adopt; [exact Huncached | apply lookup_insert_eq]. }
  assert (E5 : resume s4 c0 = after_loads s0 name before after o).
  { rewrite (resume_owner s4 c0 name name p o).
    - reflexivity.
    - unfold s4, s3, add_callers. simpl. rewrite <- !app_assoc.
      apply list_lookup_middle. reflexivity.
    - simpl. apply list_lookup_middle. reflexivity. }
  unfold concurrent_loads. rewrite !store_run_app.
  change (repeat (Load name) (S before))
    with ([Load name] ++ repeat (Load name) before).
  rewrite store_run_app.
  change (store_run s0 [Load name]) with (loadComponent s0 name).
  rewrite E1, E2.
  change (store_run s2 [Settle (length (retrievals s0)) o]) with (settle s2 p o).
  rewrite E3, E4. exact E5.
Qed.

Lemma after_loads_result (i : nat) :
  i < S before + after ->
  result (after_loads s0 name before after o) (c0 + i) = Some o.
Proof.
  intros Hi. unfold result, after_loads.
  cbn [cacheEnabled components loadingStates retrievals callers removals].
  fold p. fold c0.
  destruct i as [|i].
  - rewrite Nat.add_0_r, list_lookup_insert_eq; [reflexivity|].
    rewrite !length_app. simpl. unfold c0. lia.
  - rewrite list_lookup_insert_ne by lia.
    rewrite <- !app_assoc, <- repeat_app.
    rewrite lookup_app_r by (unfold c0; lia).
    replace (c0 + S i - length (callers s0)) with (S i) by (unfold c0; lia).
    change (([Owner name p] ++ repeat (Adopts p) (before + after)) !! S i)
      with (repeat (Adopts p) (before + after) !! i).
    rewrite (lookup_repeat (Adopts p) (before + after) i) by lia.
    rewrite (list_lookup_middle (retrievals s0) [] (name, Some o) p eq_refl).
    reflexivity.
Qed.

End ConcurrentLoads.

(** C2 (as amended): let the store be in any state it can reach by calls
    of [loadComponent], settling retrievals, resuming calls, clearing the
    cache and destroying the loader, with [destroy] called only while no
    load is in flight; let a name be neither cached nor being loaded.  [K]
    calls for that name, made before the call that starts the retrieval
    resumes, cause exactly one retrieval; every one of the [K] calls
    resolves with the outcome of that retrieval, the text on success and
    the error on failure; the registration of the name is removed, once;
    and the text is cached when caching is on.  In every such state a
    retrieval that has not settled is the one registered for its name, so
    no name has two loads in flight. *)
Theorem C2_single_flight (cache : bool) (history : list store_action)
  (name : jsstring) (before after : nat) (o : outcome) :
  let s0 := store_run (new_store cache) history in
  let s := store_run s0 (concurrent_loads s0 name before after o) in
  quiet_destroys (new_store cache) history = true ->
  cached s0 name = None -> loadingStates s0 !! name = None ->
  retrievals s = retrievals s0 ++ [(name, Some o)]
  /\ length (callers s) = length (callers s0) + (S before + after)
  /\ (forall i, i < S before + after ->
        result s (length (callers s0) + i) = Some o)
  /\ loadingStates s !! name = None
  /\ removals s = removals s0 ++ [name]
  /\ (forall html, o = Fetched html -> cacheEnabled s0 = true ->
        components s !! name = Some html)
  /\ (forall p n, retrievals s0 !! p = Some (n, None) ->
        loadingStates s0 !! n = Some p)
  /\ (forall p p' n, retrievals s0 !! p = Some (n, None) ->
        retrievals s0 !! p' = Some (n, None) -> p = p').
Proof.
  intros s0 s Hquiet Huncached Hidle. unfold s.
  rewrite (concurrent_loads_run s0 name before after o Huncached Hidle).
  destruct (store_inv_run history (new_store cache) (store_inv_new cache) Hquiet)
    as (Ha & _ & _).
  fold s0 in Ha.
  split; [reflexivity|]. split; [|split; [|split; [|split; [|split; [|split]]]]].
  - unfold after_loads. simpl. rewrite length_insert, !length_app, !repeat_length.
    simpl. lia.
  - intros i Hi. apply after_loads_result. exact Hi.
  - unfold after_loads. simpl. apply lookup_delete_eq.
  - reflexivity.
  - intros html -> Hcache. unfold after_loads. simpl. rewrite Hcache.
    apply lookup_insert_eq.
  - exact Ha.
  - intros p p' n Hp Hp'. pose proof (Ha _ _ Hp) as E. pose proof (Ha _ _ Hp') as E'.
    rewrite E in E'. injection E' as ->. reflexivity.
Qed.

Lemma C2_single_flight_witness :
  let s0 := store_run (new_store true) torn_down in
  let s := store_run s0 (concurrent_loads s0 (lit "footer") 2 1 footer_text) in
  retrievals s = retrievals s0 ++ [(lit "footer", Some footer_text)]
  /\ result s 1 = Some footer_text
  /\ result s 4 = Some footer_text
  /\ removals s = [lit "header"; lit "footer"].
Proof.
  intros s0 s.
  pose proof (C2_single_flight true torn_down (lit "footer") 2 1 footer_text
                eq_refl eq_refl eq_refl) as (H1 & _ & H3 & _ & H5 & _).
  split; [exact H1|]. split; [exact (H3 0 ltac:(lia))|].
  split; [exact (H3 3 ltac:(lia)) | exact H5].
Defined.

(** C2, the claim as stated, fails: [destroy] forgets the load in flight
    without stopping it.  Of two calls for the footer made while it is
    neither cached nor retrieved, with a [destroy] between them, each
    starts a retrieval, and the two retrievals are in flight together. *)
Lemma C2_destroy_starts_second_retrieval :
  retrievals (store_run (new_store true) destroyed_in_flight)
  = [(lit "footer", None); (lit "footer", None)]
  /\ callers (store_run (new_store true) destroyed_in_flight)
     = [Owner (lit "footer") 0; Owner (lit "footer") 1]
  /\ quiet_destroys (new_store true) destroyed_in_flight = false.
Proof. repeat split. Qed.

(** * Further properties of the loader *)

(** ** Initializer names *)

Lemma is_lower_not_hyphen (c : ascii) : is_lower c = true -> is_hyphen c = false.
Proof.
  unfold is_hyphen, ascii_eqb. intros H.
  apply Ascii.eqb_neq. intros ->. vm_compute in H. discriminate.
Qed.

Lemma toUpperCase_char_not_lower (c : ascii) :
  is_lower (toUpperCase_char c) = false.
Proof.
  unfold toUpperCase_char. destruct (is_lower c) eqn:E; [|exact E].
  unfold is_lower in *. apply andb_true_iff in E as [H1 H2].
  apply Nat.leb_le in H1, H2.
  rewrite nat_ascii_embedding by lia.
  apply andb_false_iff. left. apply Nat.leb_gt. lia.
Qed.

Lemma toUpperCase_char_not_hyphen (c : ascii) :
  is_lower c = true -> is_hyphen (toUpperCase_char c) = false.
Proof.
  intros E. unfold toUpperCase_char. rewrite E.
  unfold is_lower in E. apply andb_true_iff in E as [H1 H2].
  apply Nat.leb_le in H1, H2.
  assert (Hb : nat_of_ascii c - 32 < 256) by lia.
  unfold is_hyphen, ascii_eqb. apply Ascii.eqb_neq. intros H.
  apply (f_equal nat_of_ascii) in H.
  rewrite (nat_ascii_embedding _ Hb) in H.
  change (nat_of_ascii "-") with 45 in H. lia.
Qed.

Lemma replace_hyphens_fixed (s : jsstring) :
  hyphens_replaced s = true -> replace_hyphens s = s.
Proof.
  induction s as [|c s IH]; [reflexivity|].
  simpl. intros H. apply andb_true_iff in H as [Hc Hs].
  rewrite (IH Hs). destruct (is_hyphen c); [|reflexivity].
  destruct s as [|d s]; [reflexivity|].
  apply negb_true_iff in Hc. rewrite Hc. reflexivity.
Qed.

Lemma hyphens_replaced_cons (c : ascii) (s : jsstring) :
  hyphens_replaced (c :: s)
  = (if is_hyphen c then
       match s with
       | d :: _ => negb (is_lower d)
       | [] => true
       end
     else true) && hyphens_replaced s.
Proof. reflexivity. Qed.

Lemma replace_hyphens_head (d : ascii) (s : jsstring) :
  is_lower d = false ->
  match replace_hyphens (d :: s) with
  | e :: _ => is_lower e = false
  | [] => True
  end.
Proof.
  intros Ed. simpl. destruct (is_hyphen d); [|exact Ed].
  destruct s as [|e s]; [exact Ed|].
  destruct (is_lower e); [apply toUpperCase_char_not_lower | exact Ed].
Qed.

Lemma replace_hyphens_done (s : jsstring) :
  hyphens_replaced (replace_hyphens s) = true.
Proof.
  remember (length s) as n eqn:Hn. revert s Hn.
  induction n as [n IH] using lt_wf_ind. intros s Hn.
  destruct s as [|c s]; [reflexivity|].
  simpl replace_hyphens. destruct (is_hyphen c) eqn:Ec.
  - destruct s as [|d s]; [simpl; rewrite Ec; reflexivity|].
    destruct (is_lower d) eqn:Ed.
    + rewrite hyphens_replaced_cons, (toUpperCase_char_not_hyphen d Ed).
      apply (IH (length s)); [simpl in Hn; lia | reflexivity].
    + rewrite hyphens_replaced_cons, Ec.
      rewrite (IH (length (d :: s))) by (simpl in *; lia || reflexivity).
      rewrite andb_true_r.
      pose proof (replace_hyphens_head d s Ed) as Hh.
      destruct (replace_hyphens (d :: s)) as [|e r]; [reflexivity|].
      rewrite Hh. reflexivity.
  - rewrite hyphens_replaced_cons, Ec.
    apply (IH (length s)); [simpl in Hn; lia | reflexivity].
Qed.

Lemma capitalize_keeps_replaced (s : jsstring) :
  hyphens_replaced s = true -> hyphens_replaced (capitalize s) = true.
Proof.
  destruct s as [|c s]; [reflexivity|].
  unfold capitalize. destruct (is_lower c) eqn:Ec; [|tauto].
  simpl. rewrite (is_lower_not_hyphen c Ec), (toUpperCase_char_not_hyphen c Ec).
  tauto.
Qed.

Lemma capitalize_idempotent (s : jsstring) :
  capitalize (capitalize s) = capitalize s.
Proof.
  destruct s as [|c s]; [reflexivity|].
  simpl. destruct (is_lower c) eqn:Ec; simpl.
  - rewrite toUpperCase_char_not_lower. reflexivity.
  - rewrite Ec. reflexivity.
Qed.

(** X1: converting a component name twice gives what converting it once
    gives, the converted name holds no hyphen followed by a lower-case
    letter and does not start with a lower-case letter; so a component
    name and its converted form select the same initializer. *)
Theorem toCamelCase_idempotent (str : jsstring) :
  _toCamelCase (_toCamelCase str) = _toCamelCase str
  /\ hyphens_replaced (_toCamelCase str) = true
  /\ (forall c rest, _toCamelCase str = c :: rest -> is_lower c = false)
  /\ initMethod (_toCamelCase str) = initMethod str.
Proof.
  assert (Hdone : hyphens_replaced (_toCamelCase str) = true).
  { apply capitalize_keeps_replaced, replace_hyphens_done. }
  assert (Hidem : _toCamelCase (_toCamelCase str) = _toCamelCase str).
  { unfold _toCamelCase at 1. rewrite (replace_hyphens_fixed _ Hdone).
    unfold _toCamelCase. apply capitalize_idempotent. }
  split; [exact Hidem|]. split; [exact Hdone|]. split.
  - intros c rest H. unfold _toCamelCase, capitalize in H.
    destruct (replace_hyphens str) as [|d r]; [discriminate|].
    destruct (is_lower d) eqn:Ed; injection H as <- _;
      [apply toUpperCase_char_not_lower | exact Ed].
  - unfold initMethod. rewrite Hidem. reflexivity.
Qed.

Lemma replace_hyphens_plain (w t : jsstring) :
  forallb (fun d => negb (is_hyphen d)) w = true ->
  replace_hyphens (w ++ t) = w ++ replace_hyphens t.
Proof.
  induction w as [|c w IH]; [reflexivity|].
  simpl. intros H. apply andb_true_iff in H as [Hc Hw].
  apply negb_true_iff in Hc. rewrite Hc, (IH Hw). reflexivity.
Qed.

Lemma replace_hyphens_twice (s : jsstring) :
  replace_hyphens ("-"%char :: "-"%char :: s)
  = "-"%char :: replace_hyphens ("-"%char :: s).
Proof. reflexivity. Qed.

Lemma replace_hyphens_after_hyphen (c : ascii) (s : jsstring) :
  replace_hyphens ("-"%char :: c :: s)
  = if is_lower c then toUpperCase_char c :: replace_hyphens s
    else "-"%char :: replace_hyphens (c :: s).
Proof. reflexivity. Qed.

Lemma join_cons_char (c : ascii) (v : jsstring) (ws : list jsstring) :
  join (lit "-") ((c :: v) :: ws) = c :: join (lit "-") (v :: ws).
Proof. destruct ws; reflexivity. Qed.

Lemma replace_hyphens_pieces (ws : list jsstring) :
  forallb hyphen_free ws = true ->
  forall w, hyphen_free w = true ->
    replace_hyphens (join (lit "-") (w :: ws)) = w ++ flat_map camel_piece ws.
Proof.
  induction ws as [|v ws IH]; intros Hws w Hw.
  - simpl. rewrite <- (app_nil_r w) at 1.
    rewrite (replace_hyphens_plain w [] Hw). reflexivity.
  - simpl in Hws. apply andb_true_iff in Hws as [Hv Hws].
    rewrite join_cons_cons, (replace_hyphens_plain w _ Hw). f_equal.
    change (flat_map camel_piece (v :: ws))
      with (camel_piece v ++ flat_map camel_piece ws).
    destruct v as [|c v].
    + pose proof (IH Hws [] eq_refl) as E.
      destruct ws as [|u ws]; [reflexivity|].
      change (join (lit "-") ([] :: u :: ws))
        with ("-"%char :: join (lit "-") (u :: ws)) in *.
      change (lit "-" ++ "-"%char :: join (lit "-") (u :: ws))
        with ("-"%char :: "-"%char :: join (lit "-") (u :: ws)).
      set (J := join (lit "-") (u :: ws)) in *.
      rewrite replace_hyphens_twice, E. reflexivity.
    + rewrite join_cons_char.
      change (lit "-" ++ c :: join (lit "-") (v :: ws))
        with ("-"%char :: c :: join (lit "-") (v :: ws)).
      rewrite replace_hyphens_after_hyphen.
      unfold camel_piece. destruct (is_lower c) eqn:Ec.
      * unfold hyphen_free in Hv. simpl in Hv.
        apply andb_true_iff in Hv as [_ Hv].
        rewrite (IH Hws v Hv). reflexivity.
      * rewrite <- join_cons_char, (IH Hws (c :: v) Hv). reflexivity.
Qed.

Lemma camel_piece_word (w : jsstring) :
  is_word w = true -> camel_piece w = capitalize w.
Proof.
  destruct w as [|c w]; [discriminate|]. simpl.
  intros H. apply andb_true_iff in H as [-> _]. reflexivity.
Qed.

(** X2: every name is a list of words without a hyphen, joined by
    hyphens.  [_toCamelCase] writes the first word with its first letter in
    upper case; after it, a word that begins with a lower-case letter loses
    the hyphen before it and has that letter written in upper case, and
    any other word, one that begins with a digit or is empty, keeps its
    hyphen.  So a name whose words all begin with a lower-case letter
    becomes the words written one after the other, each with its first
    letter in upper case. *)
Theorem toCamelCase_hyphenated_name (w : jsstring) (ws : list jsstring) :
  forallb hyphen_free (w :: ws) = true ->
  _toCamelCase (join (lit "-") (w :: ws))
  = capitalize (w ++ flat_map camel_piece ws)
  /\ (forallb is_word (w :: ws) = true ->
      _toCamelCase (join (lit "-") (w :: ws)) = flat_map capitalize (w :: ws)).
Proof.
  intros H. simpl in H. apply andb_true_iff in H as [Hw Hws].
  assert (E : _toCamelCase (join (lit "-") (w :: ws))
              = capitalize (w ++ flat_map camel_piece ws)).
  { unfold _toCamelCase. rewrite (replace_hyphens_pieces ws Hws w Hw).
    reflexivity. }
  split; [exact E|].
  intros Hwords. rewrite E. simpl in Hwords.
  apply andb_true_iff in Hwords as [Hw1 Hwords].
  assert (Hp : flat_map camel_piece ws = flat_map capitalize ws).
  { clear -Hwords. induction ws as [|v ws IH]; [reflexivity|].
    simpl in Hwords. apply andb_true_iff in Hwords as [Hv Hwords].
    simpl. rewrite (camel_piece_word v Hv), (IH Hwords). reflexivity. }
  rewrite Hp. destruct w as [|c w]; [discriminate|].
  simpl. destruct (is_lower c); reflexivity.
Qed.

(** A word that begins with a digit keeps its hyphen. *)
Lemma toCamelCase_hyphenated_name_witness :
  _toCamelCase (lit "my-2nd") = lit "My-2nd"
  /\ _toCamelCase (lit "contact-form") = lit "ContactForm".
Proof.
  split.
  - apply (proj1 (toCamelCase_hyphenated_name (lit "my") [lit "2nd"] eq_refl)).
  - apply (proj2 (toCamelCase_hyphenated_name (lit "contact") [lit "form"]
                    eq_refl) eq_refl).
Defined.

(** ** The e-mail test *)

Lemma in_cat_inv (r1 r2 : regex) (s : jsstring) :
  in_regex (RCat r1 r2) s ->
  exists s1 s2, s = s1 ++ s2 /\ in_regex r1 s1 /\ in_regex r2 s2.
Proof. intros H. inversion H; subst. eauto. Qed.

Lemma in_alt_inv (r1 r2 : regex) (s : jsstring) :
  in_regex (RAlt r1 r2) s -> in_regex r1 s \/ in_regex r2 s.
Proof. intros H. inversion H; subst; auto. Qed.

Lemma in_class_inv (p : ascii -> bool) (s : jsstring) :
  in_regex (RClass p) s -> exists c, s = [c] /\ p c = true.
Proof. intros H. inversion H; subst. eauto. Qed.

Lemma in_none_inv (s : jsstring) : ~ in_regex RNone s.
Proof. intros H. inversion H. Qed.

Lemma in_eps_inv (s : jsstring) : in_regex REps s -> s = [].
Proof. intros H. inversion H. reflexivity. Qed.

Lemma nullable_spec (r : regex) : nullable r = true <-> in_regex r [].
Proof.
  induction r as [| |p|r1 IH1 r2 IH2|r1 IH1 r2 IH2|r IH]; simpl.
  - split; [discriminate | intros H; destruct (in_none_inv _ H)].
  - split; [constructor | reflexivity].
  - split; [discriminate|]. intros H.
    apply in_class_inv in H as (c & E & _). discriminate.
  - rewrite andb_true_iff, IH1, IH2. split.
    + intros [H1 H2]. exact (in_cat r1 r2 [] [] H1 H2).
    + intros H. apply in_cat_inv in H as (s1 & s2 & E & H1 & H2).
      symmetry in E. apply app_eq_nil in E as [-> ->]. split; assumption.
  - rewrite orb_true_iff, IH1, IH2. split.
    + intros [H|H]; [apply in_alt_l | apply in_alt_r]; exact H.
    + apply in_alt_inv.
  - split; [constructor | reflexivity].
Qed.

Lemma star_cons_inv (r : regex) (s : jsstring) :
  in_regex (RStar r) s ->
  forall c s', s = c :: s' ->
    exists s1 s2, s' = s1 ++ s2 /\ in_regex r (c :: s1) /\ in_regex (RStar r) s2.
Proof.
  intros H. remember (RStar r) as rs eqn:Hrs.
  induction H as [| | | | | r0 | r0 s1 s2 H1 _ H2 IH2]; try discriminate Hrs.
  - intros c s' E. discriminate E.
  - assert (r0 = r) by congruence. subst r0. intros c s' E.
    destruct s1 as [|d s1].
    + simpl in E. apply (IH2 eq_refl c s' E).
    + simpl in E. injection E as -> <-. exists s1, s2. auto.
Qed.

Lemma deriv_spec (r : regex) :
  forall c s, in_regex (deriv c r) s <-> in_regex r (c :: s).
Proof.
  induction r as [| |p|r1 IH1 r2 IH2|r1 IH1 r2 IH2|r IH]; intros c s; simpl.
  - split; intros H; destruct (in_none_inv _ H).
  - split; intros H; [destruct (in_none_inv _ H)|].
    apply in_eps_inv in H. discriminate.
  - split.
    + intros H. destruct (p c) eqn:Hp; [|destruct (in_none_inv _ H)].
      apply in_eps_inv in H. subst. constructor. exact Hp.
    + intros H. apply in_class_inv in H as (c' & E & Hp).
      injection E as <- ->. rewrite Hp. constructor.
  - split.
    + intros H. apply in_alt_inv in H as [H|H].
      * apply in_cat_inv in H as (s1 & s2 & -> & Ha & Hb).
        apply IH1 in Ha. exact (in_cat r1 r2 (c :: s1) s2 Ha Hb).
      * destruct (nullable r1) eqn:Hn; [|destruct (in_none_inv _ H)].
        apply IH2 in H. apply nullable_spec in Hn.
        exact (in_cat r1 r2 [] (c :: s) Hn H).
    + intros H. apply in_cat_inv in H as (s1 & s2 & E & Ha & Hb).
      destruct s1 as [|d s1].
      * simpl in E. subst s2. apply in_alt_r.
        apply nullable_spec in Ha. rewrite Ha. apply IH2. exact Hb.
      * simpl in E. injection E as -> ->. apply in_alt_l.
        apply in_cat; [apply IH1; exact Ha | exact Hb].
  - split.
    + intros H. apply in_alt_inv in H as [H|H];
        [apply in_alt_l; apply IH1 | apply in_alt_r; apply IH2]; exact H.
    + intros H. apply in_alt_inv in H as [H|H];
        [apply in_alt_l; apply IH1 | apply in_alt_r; apply IH2]; exact H.
  - split.
    + intros H. apply in_cat_inv in H as (s1 & s2 & -> & Ha & Hb).
      apply IH in Ha. exact (in_star_app r (c :: s1) s2 Ha Hb).
    + intros H.
      destruct (star_cons_inv r (c :: s) H c s eq_refl) as (s1 & s2 & -> & Ha & Hb).
      apply in_cat; [apply IH; exact Ha | exact Hb].
Qed.

Lemma regex_test_spec (s : jsstring) :
  forall r, regex_test r s = true <-> in_regex r s.
Proof.
  unfold regex_test. induction s as [|c s IH]; intros r; simpl.
  - apply nullable_spec.
  - rewrite IH. apply deriv_spec.
Qed.

Lemma in_star_class (p : ascii -> bool) (s : jsstring) :
  in_regex (RStar (RClass p)) s <-> forallb p s = true.
Proof.
  split.
  - intros H. remember (RStar (RClass p)) as rs eqn:Hrs.
    induction H as [| | | | | r0 | r0 s1 s2 H1 _ H2 IH2];
      try discriminate Hrs.
    + reflexivity.
    + assert (r0 = RClass p) by congruence. subst r0.
      apply in_class_inv in H1 as (c & -> & Hp).
      simpl. rewrite Hp. apply IH2. reflexivity.
  - induction s as [|c s IH]; simpl; intros H; [constructor|].
    apply andb_true_iff in H as [Hc Hs].
    apply (in_star_app (RClass p) [c] s); [constructor; exact Hc | apply IH, Hs].
Qed.

Lemma in_plus_class (p : ascii -> bool) (s : jsstring) :
  in_regex (RPlus (RClass p)) s <-> s <> [] /\ forallb p s = true.
Proof.
  unfold RPlus. split.
  - intros H. apply in_cat_inv in H as (s1 & s2 & -> & Ha & Hb).
    apply in_class_inv in Ha as (c & -> & Hp).
    apply in_star_class in Hb. simpl.
    split; [discriminate|]. rewrite Hp. exact Hb.
  - intros [Hne H]. destruct s as [|c s]; [contradiction|].
    simpl in H. apply andb_true_iff in H as [Hc Hs].
    apply (in_cat (RClass p) _ [c] s); [constructor; exact Hc|].
    apply in_star_class, Hs.
Qed.

Lemma in_char (c : ascii) (s : jsstring) :
  in_regex (RClass (ascii_eqb c)) s <-> s = [c].
Proof.
  split.
  - intros H. apply in_class_inv in H as (d & -> & Hd).
    unfold ascii_eqb in Hd. apply Ascii.eqb_eq in Hd. subst. reflexivity.
  - intros ->. constructor. apply Ascii.eqb_refl.
Qed.

(** X3: the e-mail test accepts exactly the strings made of a non-empty
    run of address characters (anything but white space and the at sign),
    an at sign, another such run, a dot and a third such run.  An accepted
    string therefore holds no white space and exactly one at sign. *)
Theorem isValidEmail_spec (email : jsstring) :
  (_isValidEmail email = true <->
   exists name host tld,
     email = name ++ "@"%char :: host ++ "."%char :: tld
     /\ address_part name /\ address_part host /\ address_part tld)
  /\ (_isValidEmail email = true ->
      forallb (fun c => negb (is_ws c)) email = true
      /\ count_occ Ascii.ascii_dec email "@"%char = 1).
Proof.
  assert (Hspec : _isValidEmail email = true <->
            exists name host tld,
              email = name ++ "@"%char :: host ++ "."%char :: tld
              /\ address_part name /\ address_part host /\ address_part tld).
  { unfold _isValidEmail. rewrite regex_test_spec. unfold email_regex. split.
    - intros H.
      apply in_cat_inv in H as (s1 & t1 & -> & H1 & H2).
      apply in_cat_inv in H2 as (s2 & t2 & -> & H3 & H4).
      apply in_cat_inv in H4 as (s3 & t3 & -> & H5 & H6).
      apply in_cat_inv in H6 as (s4 & t4 & -> & H7 & H8).
      apply in_char in H3, H7. subst.
      apply in_plus_class in H1, H5, H8.
      exists s1, s3, t4. repeat split; try tauto.
    - intros (name & host & tld & -> & Hn & Hh & Ht).
      apply in_cat; [apply in_plus_class; exact Hn|].
      apply (in_cat _ _ ["@"%char]); [apply in_char; reflexivity|].
      apply in_cat; [apply in_plus_class; exact Hh|].
      apply (in_cat _ _ ["."%char]); [apply in_char; reflexivity|].
      apply in_plus_class; exact Ht. }
  split; [exact Hspec|].
  intros H. apply Hspec in H as (name & host & tld & -> & [_ Hn] & [_ Hh] & [_ Ht]).
  assert (Hws : forall s, forallb address_char s = true ->
                  forallb (fun c => negb (is_ws c)) s = true
                  /\ count_occ Ascii.ascii_dec s "@"%char = 0).
  { induction s as [|c s IH]; [split; reflexivity|].
    simpl. intros Hs. apply andb_true_iff in Hs as [Hc Hs].
    destruct (IH Hs) as [E1 E2]. unfold address_char in Hc.
    apply andb_true_iff in Hc as [Hc1 Hc2].
    rewrite Hc1, E1. split; [reflexivity|].
    destruct (Ascii.ascii_dec c "@") as [->|]; [discriminate | exact E2]. }
  destruct (Hws _ Hn) as [N1 N2], (Hws _ Hh) as [H1 H2], (Hws _ Ht) as [T1 T2].
  split.
  - rewrite forallb_app. simpl. rewrite forallb_app. simpl.
    rewrite N1, H1, T1. reflexivity.
  - rewrite count_occ_app. simpl. rewrite count_occ_app. simpl.
    rewrite N2, H2, T2. reflexivity.
Qed.

(** ** The contact form *)

Lemma same_control_refl (f : field) : same_control f f.
Proof. repeat split. Qed.

Lemma same_control_trans (f g h : field) :
  same_control f g -> same_control g h -> same_control f h.
Proof.
  unfold same_control.
  intros (?&?&?&?&?&?&?) (?&?&?&?&?&?&?).
  repeat split; congruence.
Qed.

Lemma same_control_message (f g : field) :
  same_control f g -> error_message f = error_message g.
Proof.
  intros (_ & _ & Hr & Ht & Hv & _). unfold error_message.
  rewrite Hr, Ht, Hv. reflexivity.
Qed.

Lemma same_control_mark (f : field) (err : bool) (d : option jsstring) :
  same_control f (mark f err d).
Proof. repeat split. Qed.

Lemma error_message_mark (f : field) (err : bool) (d : option jsstring) :
  error_message (mark f err d) = error_message f.
Proof. reflexivity. Qed.

(** What [_validateInput] leaves at the position it validates. *)
Lemma validateInput_at (F : form) (i : nat) (f : field) :
  fields F !! i = Some f ->
  exists d, fields (_validateInput F i) !! i
            = Some (mark f (negb (acceptable f)) d).
Proof.
  intros H. pose proof (lookup_lt_Some _ _ _ H) as Hlt.
  unfold _validateInput, acceptable. rewrite H.
  destruct (error_message f) as [|c m] eqn:E;
    destruct (error_elements F !! f_parent f) as [[id t]|]; simpl;
    rewrite list_lookup_insert_eq by exact Hlt; eexists; reflexivity.
Qed.

(** It writes to no other position. *)
Lemma validateInput_other (F : form) (i j : nat) :
  i <> j -> fields (_validateInput F i) !! j = fields F !! j.
Proof.
  intros Hne. unfold _validateInput.
  destruct (fields F !! i) as [f|]; [|reflexivity].
  destruct (error_message f) as [|c m];
    destruct (error_elements F !! f_parent f) as [[id t]|]; simpl;
    apply list_lookup_insert_ne; exact Hne.
Qed.

Lemma validateInput_controls (F : form) (i : nat) :
  Forall2 same_control (fields F) (fields (_validateInput F i)).
Proof.
  apply Forall2_same_length_lookup_2.
  - unfold _validateInput.
    destruct (fields F !! i) as [f|]; [|reflexivity].
    destruct (error_message f) as [|c m];
      destruct (error_elements F !! f_parent f) as [[id t]|]; simpl;
      rewrite length_insert; reflexivity.
  - intros j f g Hf Hg. destruct (decide (i = j)) as [->|Hne].
    + destruct (validateInput_at F j f Hf) as [d Hd].
      rewrite Hd in Hg. injection Hg as <-. apply same_control_mark.
    + rewrite validateInput_other in Hg by exact Hne.
      rewrite Hf in Hg. injection Hg as <-. apply same_control_refl.
Qed.

Lemma verdict_validateInput (F : form) (i j : nat) :
  verdict (_validateInput F j) i = verdict F i.
Proof.
  unfold verdict.
  pose proof (validateInput_controls F j) as H.
  destruct (fields F !! i) as [f|] eqn:Ef.
  - destruct (Forall2_lookup_l _ _ _ _ _ H Ef) as (g & -> & Hs).
    unfold acceptable. rewrite (same_control_message _ _ Hs). reflexivity.
  - apply Forall2_length in H.
    apply lookup_ge_None in Ef.
    rewrite (proj2 (lookup_ge_None _ _)); [reflexivity | lia].
Qed.

Lemma has_error_validateInput (F : form) (i : nat) :
  has_error (_validateInput F i) i = verdict F i.
Proof.
  unfold has_error, verdict.
  destruct (fields F !! i) as [f|] eqn:Ef.
  - destruct (validateInput_at F i f Ef) as [d ->]. reflexivity.
  - unfold _validateInput. rewrite Ef, Ef. reflexivity.
Qed.

Lemma validate_fold (l : list nat) (F : form) (acc : list nat) :
  let r := fold_left validate_step l (F, acc) in
  snd r = acc ++ List.filter (verdict F) l
  /\ Forall2 same_control (fields F) (fields (fst r))
  /\ (forall j, ~ In j l -> fields (fst r) !! j = fields F !! j).
Proof.
  revert F acc. induction l as [|i l IH]; intros F acc; simpl.
  - split; [symmetry; apply app_nil_r|].
    split; [|reflexivity].
    apply Forall2_same_length_lookup_2; [reflexivity|].
    intros j f g Hf Hg. rewrite Hf in Hg. injection Hg as <-.
    apply same_control_refl.
  - change (validate_step (F, acc) i)
      with (_validateInput F i,
            if has_error (_validateInput F i) i then acc ++ [i] else acc).
    destruct (IH (_validateInput F i)
                 (if has_error (_validateInput F i) i then acc ++ [i] else acc))
      as (E1 & E2 & E3).
    split; [|split].
    + rewrite E1. rewrite has_error_validateInput.
      assert (Hf : List.filter (verdict (_validateInput F i)) l
                   = List.filter (verdict F) l).
      { apply filter_ext. intros k. apply verdict_validateInput. }
      rewrite Hf. destruct (verdict F i); [|reflexivity].
      rewrite <- app_assoc. reflexivity.
    + pose proof (validateInput_controls F i) as H0.
      apply Forall2_same_length_lookup_2.
      * rewrite (Forall2_length _ _ _ H0). apply (Forall2_length _ _ _ E2).
      * intros j f g Hf Hg.
        destruct (Forall2_lookup_l _ _ _ _ _ H0 Hf) as (h & Hh & Hs1).
        destruct (Forall2_lookup_l _ _ _ _ _ E2 Hh) as (g' & Hg' & Hs2).
        rewrite Hg in Hg'. injection Hg' as <-.
        exact (same_control_trans _ _ _ Hs1 Hs2).
    + intros j Hj. simpl in Hj. rewrite E3 by tauto.
      apply validateInput_other. tauto.
Qed.

Lemma validateForm_fold (F : form) :
  _validateForm F
  = fold_left validate_step (required_from 0 (fields F)) (F, []).
Proof. reflexivity. Qed.

Lemma required_from_spec (fs : list field) (n i : nat) :
  In i (required_from n fs) <->
  exists f, n <= i /\ fs !! (i - n) = Some f /\ f_required f = true.
Proof.
  revert n. induction fs as [|f rest IH]; intros n; simpl.
  - split; [tauto | intros (f & _ & H & _); discriminate H].
  - rewrite in_app_iff, IH. split.
    + intros [H | (g & Hle & Hg & Hr)].
      * destruct (f_required f) eqn:Er; [|destruct H].
        destruct H as [<-|[]]. exists f.
        replace (n - n) with 0 by lia.
        split; [lia|]. split; [reflexivity | exact Er].
      * exists g. split; [lia|]. split; [|exact Hr].
        replace (i - n) with (S (i - S n)) by lia. exact Hg.
    + intros (g & Hle & Hg & Hr).
      destruct (decide (i = n)) as [->|Hne].
      * left. replace (n - n) with 0 in Hg by lia. simpl in Hg.
        injection Hg as ->. rewrite Hr. left; reflexivity.
      * right. exists g. split; [lia|]. split; [|exact Hr].
        replace (i - n) with (S (i - S n)) in Hg by lia. exact Hg.
Qed.

Lemma rejected_filter (F : form) (pre fs : list field) :
  fields F = pre ++ fs ->
  List.filter (verdict F) (required_from (length pre) fs)
  = rejected_from (length pre) fs.
Proof.
  revert pre. induction fs as [|f rest IH]; intros pre HF; [reflexivity|].
  simpl. rewrite List.filter_app.
  assert (Hv : verdict F (length pre) = negb (acceptable f)).
  { unfold verdict. rewrite HF, list_lookup_middle by reflexivity.
    reflexivity. }
  specialize (IH (pre ++ [f])).
  rewrite length_app in IH. simpl in IH.
  replace (length pre + 1) with (S (length pre)) in IH by lia.
  rewrite IH by (rewrite <- app_assoc; exact HF).
  destruct (f_required f); simpl; [|reflexivity].
  rewrite Hv. destruct (acceptable f); reflexivity.
Qed.

(** X4. Validating a control marks it by its value alone: afterwards it
    carries the error class exactly when the value is not accepted,
    [aria-invalid] goes with the class, a rejected control has its message
    in the error element of its parent, and what the control is (its
    names, type, value) is as before.  Validating it a second time changes
    nothing. *)
Theorem validateInput_marks (F : form) (i : nat) (f : field) :
  fields F !! i = Some f ->
  let F' := _validateInput F i in
  (exists g, fields F' !! i = Some g
     /\ same_control f g
     /\ f_error g = negb (acceptable f)
     /\ f_aria_invalid g = f_error g
     /\ (acceptable f = false ->
         exists id, error_elements F' !! f_parent f
                    = Some (id, error_message f)
                    /\ (f_describedby g = Some id
                        \/ f_describedby g = f_describedby f))
     /\ (acceptable f = true -> error_elements F' !! f_parent f = None))
  /\ _validateInput F' i = F'.
Proof.
  intros H F'. subst F'.
  pose proof (lookup_lt_Some _ _ _ H) as Hlt.
  assert (Hstep : forall g,
            same_control f g ->
            forall G, fields G !! i = Some g ->
            _validateInput G i
            = match error_message f with
              | [] =>
                  match error_elements G !! f_parent f with
                  | Some _ =>
                      {| fields := <[i := mark g false None]> (fields G);
                         error_elements :=
                           delete (f_parent f) (error_elements G) |}
                  | None =>
                      {| fields :=
                           <[i := mark g false (f_describedby g)]> (fields G);
                         error_elements := error_elements G |}
                  end
              | message =>
                  match error_elements G !! f_parent f with
                  | Some (id, _) =>
                      {| fields :=
                           <[i := mark g true (f_describedby g)]> (fields G);
                         error_elements :=
                           <[f_parent f := (id, message)]> (error_elements G) |}
                  | None =>
                      {| fields :=
                           <[i := mark g true (Some (error_element_id g))]>
                             (fields G);
                         error_elements :=
                           <[f_parent f := (error_element_id g, message)]>
                             (error_elements G) |}
                  end
              end).
  { intros g Hs G HG. unfold _validateInput. rewrite HG.
    rewrite <- (same_control_message _ _ Hs).
    destruct Hs as (_ & _ & _ & _ & _ & _ & <-). reflexivity. }
  rewrite (Hstep f (same_control_refl f) F H).
  unfold acceptable.
  destruct (error_message f) as [|c m] eqn:E;
    destruct (error_elements F !! f_parent f) as [[id t]|] eqn:El;
    (split;
     [ eexists; split; [cbn [fields]; apply list_lookup_insert_eq; exact Hlt|];
       split; [apply same_control_mark|];
       split; [reflexivity|]; split; [reflexivity|]
     | erewrite (Hstep _ (same_control_mark f _ _));
       [|cbn [fields]; apply list_lookup_insert_eq; exact Hlt];
       rewrite ?E; cbn [fields error_elements] ]).
  - split; [discriminate|]. intros _. apply lookup_delete_eq.
  - rewrite lookup_delete_eq, list_insert_insert_eq. reflexivity.
  - split; [discriminate|]. intros _. exact El.
  - rewrite El, list_insert_insert_eq. reflexivity.
  - split; [|discriminate]. intros _. exists id.
    split; [apply lookup_insert_eq | right; reflexivity].
  - rewrite lookup_insert_eq, list_insert_insert_eq, insert_insert_eq.
    reflexivity.
  - split; [|discriminate]. intros _. exists (error_element_id f).
    split; [apply lookup_insert_eq | left; reflexivity].
  - rewrite lookup_insert_eq, list_insert_insert_eq, insert_insert_eq.
    reflexivity.
Qed.

Lemma validateInput_marks_witness :
  has_error (_validateInput blank_name_form 0) 0 = true
  /\ _validateInput (_validateInput blank_name_form 0) 0
     = _validateInput blank_name_form 0.
Proof.
  pose proof (validateInput_marks blank_name_form 0 _ eq_refl) as W.
  cbv zeta in W. destruct W as [(g & Hg & _ & He & _) Hi].
  split; [|exact Hi].
  unfold has_error. rewrite Hg, He. reflexivity.
Defined.

Lemma validateInput_accepted (F : form) (i : nat) (f : field) :
  fields F !! i = Some f -> acceptable f = true ->
  error_elements (_validateInput F i) !! f_parent f = None.
Proof.
  intros H Ha. unfold _validateInput. rewrite H.
  unfold acceptable in Ha.
  destruct (error_message f) as [|c m]; [|discriminate Ha].
  destruct (error_elements F !! f_parent f) as [[id t]|] eqn:El; simpl.
  - apply lookup_delete_eq.
  - exact El.
Qed.

(** X5. The error element belongs to the parent, not to the control: when
    two controls share a parent and the one validated last is accepted,
    the parent is left without a message although the other control still
    carries the error class. *)
Theorem validateInput_shared_parent (F : form) (i j : nat) (f g : field) :
  i <> j ->
  fields F !! i = Some f -> fields F !! j = Some g ->
  f_parent f = f_parent g ->
  acceptable f = false -> acceptable g = true ->
  let F' := _validateInput (_validateInput F i) j in
  has_error F' i = true /\ error_elements F' !! f_parent f = None.
Proof.
  intros Hne Hf Hg Hp Hrej Hacc F'. subst F'. split.
  - unfold has_error. rewrite validateInput_other by congruence.
    destruct (validateInput_at F i f Hf) as [d ->]. simpl.
    rewrite Hrej. reflexivity.
  - rewrite Hp. apply validateInput_accepted; [|exact Hacc].
    rewrite validateInput_other by exact Hne. exact Hg.
Qed.

Lemma validateInput_shared_parent_witness :
  has_error (_validateInput (_validateInput shared_parent_form 0) 1) 0 = true
  /\ error_elements (_validateInput (_validateInput shared_parent_form 0) 1)
       !! 1 = None.
Proof.
  apply (validateInput_shared_parent shared_parent_form 0 1
           (text_field "first" "" true 1) (text_field "last" "Lovelace" true 1));
    [lia | reflexivity | reflexivity | reflexivity
     | vm_compute; reflexivity | vm_compute; reflexivity].
Defined.

(** X6. [_validateForm] reports exactly the required controls whose value is
    not accepted, in document order, whatever marks the controls carried
    before.  It leaves every control what it was, and a control without
    [required] is not looked at: it keeps even its marks. *)
Theorem validateForm_errors (F : form) :
  snd (_validateForm F) = rejected_from 0 (fields F)
  /\ Forall2 same_control (fields F) (fields (fst (_validateForm F)))
  /\ (forall i f, fields F !! i = Some f -> f_required f = false ->
                  fields (fst (_validateForm F)) !! i = Some f).
Proof.
  rewrite validateForm_fold.
  destruct (validate_fold (required_from 0 (fields F)) F []) as (E1 & E2 & E3).
  split; [|split].
  - rewrite E1. simpl. apply (rejected_filter F []). reflexivity.
  - exact E2.
  - intros i f Hf Hr. rewrite E3; [exact Hf|].
    intros Hin. apply required_from_spec in Hin as (g & _ & Hg & Hreq).
    replace (i - 0) with i in Hg by lia. congruence.
Qed.

Lemma validateForm_rejected (F : form) :
  snd (_validateForm F) = rejected_from 0 (fields F).
Proof.
  rewrite validateForm_fold.
  destruct (validate_fold (required_from 0 (fields F)) F []) as (E1 & _).
  rewrite E1. simpl. apply (rejected_filter F []). reflexivity.
Qed.

(** X7. When a required control is rejected, the submit handler sends
    nothing and shows no message: it announces the number of rejected
    controls in the live region and moves the focus to the first of them,
    whatever endpoint is configured. *)
Theorem submit_invalid (F : form) (endpoint : jsstring) (host : answer)
    (first : nat) (rest : list nat) :
  rejected_from 0 (fields F) = first :: rest ->
  submitHandler F endpoint host
  = (fst (_validateForm F),
     [PreventedDefault;
      LiveRegion (error_count_text (S (length rest)));
      Focused first]).
Proof.
  intros H. unfold submitHandler.
  pose proof (validateForm_rejected F) as Hv.
  destruct (_validateForm F) as [F' errs]. simpl in Hv. subst errs.
  rewrite H. reflexivity.
Qed.

Lemma submit_invalid_witness :
  snd (submitHandler blank_name_form (lit "/api/contact") (Some (true, true)))
  = [PreventedDefault;
     LiveRegion (lit "Form has 1 errors. Please correct them.");
     Focused 0].
Proof.
  rewrite (submit_invalid blank_name_form (lit "/api/contact")
             (Some (true, true)) 0 []); [reflexivity|].
  vm_compute. reflexivity.
Defined.

(** X8. What a submission does, by its events.  A request is sent exactly
    when the form is valid and an endpoint is configured, and only to that
    endpoint.  The success message is shown, and the form reset, exactly
    when the form is valid and either the host answered with a success
    status and a body that reads as JSON, or no endpoint is configured at
    all: in that case a warning is logged and nothing is sent.  The failure
    message is shown exactly when a request was sent and did not end so. *)
Theorem submit_outcome (F : form) (endpoint : jsstring) (host : answer) :
  let evs := snd (submitHandler F endpoint host) in
  let valid := rejected_from 0 (fields F) = [] in
  (forall e, In (Posted e) evs <-> valid /\ endpoint <> [] /\ e = endpoint)
  /\ ((exists t, In (Message true t) evs) <->
      valid /\ (endpoint = [] \/ host = Some (true, true)))
  /\ (In FormReset evs <-> exists t, In (Message true t) evs)
  /\ (In Warned evs <-> valid /\ endpoint = [])
  /\ ((exists t, In (Message false t) evs) <->
      valid /\ endpoint <> [] /\ host <> Some (true, true)).
Proof.
  intros evs valid. subst evs valid. unfold submitHandler.
  pose proof (validateForm_rejected F) as Hv.
  destruct (_validateForm F) as [F' errs]. simpl in Hv. subst errs.
  destruct (rejected_from 0 (fields F)) as [|first rest].
  - destruct endpoint as [|c e]; [|destruct host as [[[] []]|]]; simpl;
      (split; [intros e0|split; [|split; [|split]]]; split;
       try (intros [t Ht]); intros;
       repeat match goal with
              | H : _ \/ _ |- _ => destruct H
              | H : _ /\ _ |- _ => destruct H
              | H : False |- _ => destruct H
              end;
       try discriminate; try congruence;
       try match goal with H : Posted _ = Posted _ |- _ => injection H as <- end;
       subst; try (repeat split; congruence); eauto 10).
  - simpl.
    split; [intros e0|split; [|split; [|split]]]; split;
      try (intros [t Ht]); intros;
      repeat match goal with
             | H : _ \/ _ |- _ => destruct H
             | H : _ /\ _ |- _ => destruct H
             | H : False |- _ => destruct H
             end;
      try discriminate; try congruence.
Qed.

(** ** Preloading, clearing the cache, and [destroy] *)

Lemma cached_add_caller (s : store) (x : caller) (n : jsstring) :
  cached (add_callers s [x]) n = cached s n.
Proof. reflexivity. Qed.

Lemma loadComponent_cases (s : store) (name : jsstring) :
  (exists x, (is_Some (cached s name) \/ is_Some (loadingStates s !! name))
             /\ loadComponent s name = add_callers s [x])
  \/ (cached s name = None /\ loadingStates s !! name = None
      /\ loadComponent s name
         = {| cacheEnabled := cacheEnabled s; components := components s;
              loadingStates :=
                <[name := length (retrievals s)]> (loadingStates s);
              retrievals := retrievals s ++ [(name, None)];
              callers := callers s ++ [Owner name (length (retrievals s))];
              removals := removals s |}).
Proof.
  unfold loadComponent.
  destruct (cached s name) as [html|] eqn:Ec.
  - left. exists (FromCache html). split; [left; eauto | reflexivity].
  - destruct (loadingStates s !! name) as [p|] eqn:El.
    + left. exists (Adopts p). split; [right; eauto | reflexivity].
    + right. repeat split.
Qed.

(** X9. Preloading a list of names starts one retrieval for each distinct
    name that is neither cached nor already being retrieved, and no other:
    a name listed twice is retrieved once.  Every name listed gets its
    call, and the cache is not written before a retrieval settles. *)
Theorem preloadComponents_retrievals (s : store) (names : list jsstring) :
  let s' := preloadComponents s names in
  exists new,
    retrievals s' = retrievals s ++ map (fun n => (n, None)) new
    /\ List.NoDup new
    /\ (forall n, In n new <->
          In n names /\ cached s n = None /\ loadingStates s !! n = None)
    /\ length (callers s') = length (callers s) + length names
    /\ components s' = components s.
Proof.
  unfold preloadComponents. revert s.
  induction names as [|name names IH]; intros s; simpl.
  - exists []. simpl. rewrite app_nil_r. split; [reflexivity|].
    split; [constructor|]. split; [tauto|]. split; [lia | reflexivity].
  - destruct (IH (loadComponent s name)) as (new & E1 & E2 & E3 & E4 & E5).
    destruct (loadComponent_cases s name)
      as [(x & Hknown & E) | (Hc & Hl & E)]; rewrite E in *; clear E.
    + exists new. simpl in *. split; [exact E1|]. split; [exact E2|].
      split; [|split; [rewrite E4, length_app; simpl; lia | exact E5]].
      intros n. rewrite E3, cached_add_caller. split.
      * tauto.
      * intros ([<-|Hin] & H1 & H2); [|tauto].
        destruct Hknown as [[v Hv]|[v Hv]]; congruence.
    + exists (name :: new). simpl in *.
      split; [rewrite E1, <- app_assoc; reflexivity|].
      assert (Hfresh : ~ In name new).
      { intros Hin. apply E3 in Hin as (_ & _ & Hin).
        rewrite lookup_insert_eq in Hin. discriminate Hin. }
      split; [constructor; assumption|].
      split; [|split; [rewrite E4, length_app; simpl; lia | exact E5]].
      intros n. rewrite E3. unfold cached. simpl. split.
      * intros [<-|(Hin & H1 & H2)]; [tauto|].
        destruct (decide (n = name)) as [->|Hne].
        -- rewrite lookup_insert_eq in H2. discriminate H2.
        -- rewrite lookup_insert_ne in H2 by congruence. tauto.
      * intros (Hin & H1 & H2).
        destruct (decide (n = name)) as [->|Hne]; [left; reflexivity|].
        right. rewrite lookup_insert_ne by congruence.
        destruct Hin as [<-|Hin]; [contradiction | tauto].
Qed.

(** X10. Once a name has been cleared from the cache, the next load of it
    retrieves it anew, while every other cached name is still answered
    from the cache.  Clearing with no name, or with the empty name, empties
    the cache. *)
Theorem clearCache_reload (s : store) (name : jsstring) :
  name <> [] -> loadingStates s !! name = None ->
  (let s' := loadComponent (clearCache s (Some name)) name in
   retrievals s' = retrievals s ++ [(name, None)]
   /\ callers s' = callers s ++ [Owner name (length (retrievals s))])
  /\ (forall m, m <> name ->
        cached (clearCache s (Some name)) m = cached s m)
  /\ (forall m, cached (clearCache s None) m = None
                /\ cached (clearCache s (Some [])) m = None).
Proof.
  intros Hne Hl. destruct name as [|c name]; [contradiction|].
  split; [|split].
  - unfold loadComponent, cached. simpl.
    rewrite lookup_delete_eq, Hl.
    destruct (cacheEnabled s); split; reflexivity.
  - intros m Hm. unfold cached. simpl.
    rewrite lookup_delete_ne by congruence. reflexivity.
  - intros m. unfold cached. simpl. rewrite lookup_empty.
    destruct (cacheEnabled s); split; reflexivity.
Qed.

Lemma clearCache_reload_witness :
  retrievals (loadComponent (clearCache footer_cached (Some (lit "footer")))
                (lit "footer"))
  = retrievals footer_cached ++ [(lit "footer", None)].
Proof.
  refine (proj1 (proj1 (clearCache_reload footer_cached (lit "footer") _ _))).
  - discriminate.
  - vm_compute. reflexivity.
Defined.

(** X11. Clearing the cache does not reach a load in flight: when the call
    that started the retrieval resumes with the text, the name is in the
    cache again. *)
Theorem clearCache_during_load (s : store) (x : option jsstring) (c : nat)
    (name name' : jsstring) (p : promise) (html : jsstring) :
  cacheEnabled s = true ->
  callers s !! c = Some (Owner name p) ->
  retrievals s !! p = Some (name', Some (Fetched html)) ->
  cached (resume (clearCache s x) c) name = Some html.
Proof.
  intros He Hc Hr.
  assert (E : forall s0, cacheEnabled s0 = true ->
                callers s0 !! c = Some (Owner name p) ->
                retrievals s0 !! p = Some (name', Some (Fetched html)) ->
                cached (resume s0 c) name = Some html).
  { intros s0 H0 H1 H2. unfold resume. rewrite H1, H2.
    unfold cached. simpl. rewrite H0. apply lookup_insert_eq. }
  apply E; destruct x as [[|a n]|]; assumption.
Qed.

Lemma clearCache_during_load_witness :
  cached (resume (clearCache (settle footer_loading 0 footer_text) None) 0)
    (lit "footer")
  = Some (lit "<footer></footer>").
Proof.
  apply (clearCache_during_load _ None 0 (lit "footer") (lit "footer") 0);
    reflexivity.
Defined.

(** X12. [destroy] forgets the retrievals in flight without stopping them.
    A load of the same name made afterwards starts a second retrieval
    beside the first; and when the first call resumes, its [finally]
    removes the registration of the second, which is still in flight. *)
Theorem destroy_restarts_retrieval (s : store) (c : nat) (name : jsstring)
    (p : promise) (o : outcome) :
  callers s !! c = Some (Owner name p) ->
  retrievals s !! p = Some (name, None) ->
  let s1 := loadComponent (destroy_store s) name in
  let q := length (retrievals s) in
  p <> q
  /\ retrievals s1 !! p = Some (name, None)
  /\ retrievals s1 !! q = Some (name, None)
  /\ loadingStates s1 !! name = Some q
  /\ (let s2 := resume (settle s1 p o) c in
      retrievals s2 !! q = Some (name, None)
      /\ loadingStates s2 !! name = None).
Proof.
  intros Hc Hr s1 q.
  pose proof (lookup_lt_Some _ _ _ Hr) as Hlt.
  pose proof (lookup_lt_Some _ _ _ Hc) as Hltc.
  assert (Hpq : p <> q) by (unfold q; lia).
  assert (E1 : s1 = {| cacheEnabled := cacheEnabled s; components := ∅;
                       loadingStates := <[name := q]> ∅;
                       retrievals := retrievals s ++ [(name, None)];
                       callers := callers s ++ [Owner name q];
                       removals := removals s |}).
  { unfold s1, loadComponent, cached. simpl. rewrite !lookup_empty.
    destruct (cacheEnabled s); reflexivity. }
  assert (R1 : retrievals s1 !! p = Some (name, None)).
  { rewrite E1. simpl. rewrite lookup_app_l by exact Hlt. exact Hr. }
  assert (R2 : retrievals s1 !! q = Some (name, None)).
  { rewrite E1. simpl. apply list_lookup_middle. reflexivity. }
  split; [exact Hpq|]. split; [exact R1|]. split; [exact R2|].
  split; [rewrite E1; simpl; apply lookup_insert_eq|].
  intros s2. unfold s2, settle. rewrite R1.
  unfold resume. cbn [callers retrievals].
  assert (C1 : callers s1 !! c = Some (Owner name p)).
  { rewrite E1. simpl. rewrite lookup_app_l by exact Hltc. exact Hc. }
  rewrite C1.
  rewrite list_lookup_insert_eq by (rewrite E1; simpl; rewrite length_app; lia).
  simpl. split.
  - rewrite list_lookup_insert_ne by exact Hpq. exact R2.
  - apply lookup_delete_eq.
Qed.

Lemma destroy_restarts_retrieval_witness :
  loadingStates
    (resume (settle (loadComponent (destroy_store footer_loading) (lit "footer"))
               0 footer_text) 0)
    !! lit "footer" = None
  /\ retrievals
       (resume (settle (loadComponent (destroy_store footer_loading)
                          (lit "footer")) 0 footer_text) 0)
       !! 1 = Some (lit "footer", None).
Proof.
  destruct (destroy_restarts_retrieval footer_loading 0 (lit "footer") 0
              footer_text eq_refl eq_refl) as (_ & _ & _ & _ & H1 & H2).
  split; [exact H2 | exact H1].
Defined.

Lemma flat_map_agree {A B : Type} (f g : A -> list B) (l : list A) :
  (forall x, In x l -> f x = g x) -> flat_map f l = flat_map g l.
Proof.
  induction l as [|x l IH]; intros H; simpl; [reflexivity|].
  rewrite (H x) by (left; reflexivity).
  rewrite IH; [reflexivity|]. intros y Hy. apply H. right. exact Hy.
Qed.

Lemma cleanup_all_spec (t : nat) (order : list jsstring) :
  List.NoDup order ->
  forall L,
    let L' := fold_left (fun L0 k => _cleanupEventListeners L0 t k) order L in
    (forall k, In k order -> eventHandlers L' !! k = None)
    /\ (forall k, ~ In k order ->
          eventHandlers L' !! k = eventHandlers L !! k)
    /\ log L' = rev (flat_map (detach_events L t) order) ++ log L
    /\ injectionLocks L' = injectionLocks L
    /\ _currentReleaseLock L' = _currentReleaseLock L
    /\ resolved L' = resolved L.
Proof.
  induction 1 as [|k order Hk Hnd IH]; intros L; simpl.
  - split; [tauto|]. repeat split.
  - destruct (IH (_cleanupEventListeners L t k))
      as (E0 & E1 & E2 & E3 & E4 & E5).
    simpl in E0, E1, E2, E3, E4, E5.
    destruct (cleanup_spec L t k) as (C1 & C2 & C3).
    assert (Ck : eventHandlers (_cleanupEventListeners L t k) !! k = None).
    { unfold _cleanupEventListeners.
      destruct (eventHandlers L !! k) eqn:Ek; simpl.
      - apply lookup_delete_eq.
      - exact Ek. }
    split; [|split; [|split; [|split; [|split]]]].
    + intros k' [<-|Hin]; [|apply E0; exact Hin].
      rewrite E1 by exact Hk. exact Ck.
    + intros k' Hout. rewrite E1 by tauto. apply C2.
      intros ->. tauto.
    + rewrite E2, C3, rev_app_distr, <- app_assoc.
      assert (Hsame : flat_map (detach_events (_cleanupEventListeners L t k) t)
                        order
                      = flat_map (detach_events L t) order).
      { apply flat_map_agree. intros k' Hin. unfold detach_events, handlers_of.
        rewrite C2; [reflexivity|]. intros ->. contradiction. }
      rewrite Hsame. reflexivity.
    + rewrite E3. unfold _cleanupEventListeners.
      destruct (eventHandlers L !! k); reflexivity.
    + rewrite E4. unfold _cleanupEventListeners.
      destruct (eventHandlers L !! k); reflexivity.
    + rewrite E5. unfold _cleanupEventListeners.
      destruct (eventHandlers L !! k); reflexivity.
Qed.

(** X13. [destroy] detaches every handler on record, each once, key by key
    in the order of the registry and within a key in the order of
    tracking, and leaves the registry and the locks empty.  It settles no
    promise: the resolver the loader holds and the set of resolved promises
    are as before. *)
Theorem destroy_detaches_all (L : loader) (t : nat) (order : list jsstring) :
  visits L order ->
  let L' := destroy_loader L t order in
  eventHandlers L' = ∅
  /\ injectionLocks L' = ∅
  /\ log L' = rev (flat_map (detach_events L t) order) ++ log L
  /\ _currentReleaseLock L' = _currentReleaseLock L
  /\ resolved L' = resolved L.
Proof.
  intros [Hnd Hall] L'. subst L'. unfold destroy_loader. simpl.
  destruct (cleanup_all_spec t order Hnd L) as (E0 & E1 & E2 & E3 & E4 & E5).
  simpl in E0, E1, E2, E3, E4, E5.
  split; [|split; [reflexivity|split; [exact E2|split; [exact E4|exact E5]]]].
  apply map_eq. intros k. rewrite lookup_empty.
  destruct (eventHandlers L !! k) as [hs|] eqn:Ek.
  - apply E0, Hall. eauto.
  - rewrite E1; [exact Ek|].
    intros Hin. apply Hall in Hin as [hs Hin]. congruence.
Qed.

Lemma destroy_detaches_all_witness :
  log (destroy_loader used_loader 7 [lit "navigation:header"])
  = [Ev 7 (lit "navigation:header") (Detached (click_handler 2));
     Ev 7 (lit "navigation:header") (Detached (click_handler 1))].
Proof.
  assert (V : visits used_loader [lit "navigation:header"]).
  { split; [repeat constructor; simpl; tauto|].
    intros k. unfold used_loader. simpl. split.
    - intros [<-|[]]. rewrite lookup_singleton_eq. eauto.
    - intros [v Hv]. apply lookup_singleton_Some in Hv as [<- _].
      left; reflexivity. }
  destruct (destroy_detaches_all used_loader 7 _ V) as (_ & _ & E & _).
  rewrite E. unfold detach_events, handlers_of, used_loader. simpl.
  rewrite lookup_singleton_eq. reflexivity.
Defined.

(** X14. [destroy] clears the locks under the calls that hold them.  While
    one injection is inside its [try] block, an injection for the same key
    made after [destroy] does not wait: both are inside the block at
    once. *)
Theorem destroy_breaks_exclusion (s : system) (t0 t1 t2 : nat)
    (order : list jsstring) (c1 c2 : call) (k : jsstring)
    (todo : list stage) (targetElement : node) (ok : bool) :
  t1 <> t2 ->
  calls s !! t1 = Some (c1, Running k todo) ->
  calls s !! t2 = Some (c2, Called) ->
  _resolveTarget (doc s) (call_target c2) = Returns (Some targetElement) ->
  _getInstanceKey (doc s) (componentName c2) targetElement = Some k ->
  let s' := step (destroy_system s t0 order) t2 ok in
  control_of s' t1 = Some (Running k todo)
  /\ control_of s' t2 = Some (Running k (try_block (call_options c2))).
Proof.
  intros Hne H1 H2 Ht Hk s'. subst s'.
  unfold step. cbn [calls destroy_system doc]. rewrite H2, Ht, Hk.
  unfold enter, _acquireLock. cbn [ldr destroy_system destroy_loader
                                    injectionLocks].
  rewrite lookup_empty. unfold control_of. split.
  - rewrite lookup_set_call_ne by congruence.
    change (calls (destroy_system s t0 order)) with (calls s).
    rewrite H1. reflexivity.
  - erewrite lookup_set_call_eq; [reflexivity | exact H2].
Qed.

Lemma destroy_breaks_exclusion_witness :
  let s := step (destroy_system (run (start page_doc three_calls) [(0, true)])
                   3 []) 2 true in
  control_of s 0
  = Some (Running (lit "navigation:header") (try_block default_options))
  /\ control_of s 2
     = Some (Running (lit "navigation:header") (try_block default_options)).
Proof.
  apply (destroy_breaks_exclusion
           (run (start page_doc three_calls) [(0, true)]) 3 0 2 []
           {| componentName := lit "navigation"; call_target := TElement 1;
              call_options := default_options |}
           {| componentName := lit "navigation"; call_target := TElement 1;
              call_options := default_options |}
           (lit "navigation:header") (try_block default_options) 1 true);
    [lia | vm_compute; reflexivity | vm_compute; reflexivity
     | vm_compute; reflexivity | vm_compute; reflexivity].
Defined.

(** ** Retrieving a fragment *)

(** X15. [_fetchComponent] makes one request, to the address built from the
    configuration and the name.  It gives the text exactly when the host
    answers with a success status and the body can be read; the body of
    any other response is never read.  When it fails it has logged one
    error, the one it fails with, and it logs nothing otherwise. *)
Theorem fetchComponent_outcome (cfg : config) (fetch : jsstring -> response)
    (name : jsstring) :
  let url := component_url cfg name in
  let r := _fetchComponent cfg fetch name in
  List.filter is_request (fst r) = [Requested url]
  /\ (forall html,
        snd r = Fetched html <->
        exists status text, fetch url = Response true status text (inl html))
  /\ (forall err,
        snd r = FetchFailed err <->
        exists text, List.filter is_logged (fst r) = [ErrorLogged text err])
  /\ (In (BodyRead url) (fst r) <->
      exists status text b, fetch url = Response true status text b).
Proof.
  intros url r. subst r. unfold _fetchComponent. fold url. unfold fetch_at.
  destruct (fetch url) as [e|[] status text [html|e]]; simpl;
    (split; [reflexivity|]); (split; [|split]).
  all: try (intros x; split;
            [ intros H; try discriminate H; try (injection H as <-); eauto
            | intros (a & H); try (destruct H as (b & H));
              try discriminate H; try (injection H as <-); try congruence ]).
  all: try (split;
            [ intros H;
              repeat match goal with
                     | H : _ \/ _ |- _ => destruct H
                     | H : False |- _ => destruct H
                     end; try discriminate; eauto
            | intros (a & b & c & H); try discriminate H; auto ]).
Qed.

(** X16. For one configuration different names have different addresses.
    The reduced loader asks for another address than the full one: the one
    the full loader would build for the name followed by a slash; so its
    request is answered as that one would be.  A base path or an extension
    that is absent or empty gives way to the default. *)
Theorem component_url_names (cfg : config) (fetch : jsstring -> response)
    (n1 n2 : jsstring) :
  (component_url cfg n1 = component_url cfg n2 -> n1 = n2)
  /\ ReducedLoader.component_url cfg n1 = component_url cfg (n1 ++ lit "/")
  /\ ReducedLoader.component_url cfg n1 <> component_url cfg n1
  /\ snd (ReducedLoader._fetchComponent cfg fetch n1)
     = snd (_fetchComponent cfg fetch (n1 ++ lit "/"))
  /\ (forall b e, (b = None \/ b = Some []) -> (e = None \/ e = Some []) ->
        component_url (new_config b e) n1
        = lit "/components/" ++ n1 ++ lit ".html").
Proof.
  assert (E : ReducedLoader.component_url cfg n1
              = component_url cfg (n1 ++ lit "/")).
  { unfold ReducedLoader.component_url, component_url.
    rewrite <- (app_assoc n1). reflexivity. }
  split; [|split; [exact E|split; [|split]]].
  - unfold component_url. intros H.
    apply app_inv_head in H. apply app_inv_head in H.
    apply app_inv_tail in H. exact H.
  - unfold ReducedLoader.component_url, component_url. intros H.
    apply (f_equal (@length ascii)) in H.
    rewrite !length_app in H. simpl in H. lia.
  - unfold ReducedLoader._fetchComponent, _fetchComponent. rewrite E.
    unfold fetch_at.
    destruct (fetch (component_url cfg (n1 ++ lit "/")))
      as [e|[] status text [html|e]]; reflexivity.
  - intros b e [->| ->] [->| ->]; reflexivity.
Qed.

(** ** Injection into a shadow root *)

(** X17. Injection into a shadow root always replaces: the [append] option
    does not reach it.  With script execution on, the shadow root sees
    what a replacing injection into the element itself would make the
    element see, scripts in the same order and with the same outcome; with
    it off, the markup is set as it is and no script runs.  The [shadow]
    option without the loader's [enableShadowDOM] setting is an injection
    into the element itself. *)
Theorem shadow_injection_replaces (loads : jsstring -> bool)
    (fragment : list markup) (append_mode executeScripts_on has_root : bool) :
  inject_content loads fragment append_mode true true executeScripts_on has_root
  = inject_content loads fragment false true true executeScripts_on has_root
  /\ _injectWithShadowDOM loads fragment true has_root
     = ((if has_root then [] else [AttachedShadow])
        ++ map InShadow (fst (_injectWithDOM loads fragment false true)),
        snd (_injectWithDOM loads fragment false true))
  /\ _injectWithShadowDOM loads fragment false has_root
     = ((if has_root then [] else [AttachedShadow]) ++ [ShadowHTMLSet fragment],
        true)
  /\ inject_content loads fragment append_mode true false executeScripts_on
       has_root
     = inject_content loads fragment append_mode false false executeScripts_on
         has_root.
Proof.
  split; [reflexivity|]. split; [|split; reflexivity].
  unfold _injectWithShadowDOM, _injectWithDOM.
  destruct (execute_in_order loads (flat_map scripts_of fragment)) as [evs ok].
  simpl. reflexivity.
Qed.

(** ** The navigation menu *)

Lemma toggleHandler_in_step (m : menu) : in_step (fst (toggleHandler m)).
Proof. unfold in_step, toggleHandler. simpl. reflexivity. Qed.

Lemma escapeHandler_in_step (m : menu) (key : jsstring) :
  in_step m -> in_step (fst (escapeHandler m key)).
Proof.
  unfold escapeHandler. intros H.
  destruct (decide (key = lit "Escape")); simpl; [|exact H].
  destruct (hidden m); simpl; [exact H | reflexivity].
Qed.

Lemma nav_run_cons (m : menu) (e : nav_event) (es : list nav_event) :
  fst (nav_run m (e :: es)) = fst (nav_run (fst (nav_step m e)) es).
Proof.
  simpl. destruct (nav_step m e) as [m1 f1]. simpl.
  destruct (nav_run m1 es) as [m2 f2]. reflexivity.
Qed.

Lemma nav_run_in_step (es : list nav_event) :
  forall m, in_step m -> in_step (fst (nav_run m es)).
Proof.
  induction es as [|e es IH]; intros m H; [exact H|].
  rewrite nav_run_cons. apply IH. destruct e as [|key]; simpl.
  - apply toggleHandler_in_step.
  - apply escapeHandler_in_step, H.
Qed.

(** X18. Once the toggle has been clicked, [aria-expanded] says at every
    moment whether the menu is shown, whatever clicks and keys follow; and
    it keeps doing so from the start when the markup had it right. *)
Theorem menu_stays_in_step (m : menu) (es : list nav_event) :
  in_step m \/ existsb is_click es = true ->
  in_step (fst (nav_run m es)).
Proof.
  revert m. induction es as [|e es IH]; intros m [H|H].
  - exact H.
  - discriminate H.
  - apply nav_run_in_step, H.
  - rewrite nav_run_cons. destruct e as [|key]; simpl in *.
    + apply nav_run_in_step, toggleHandler_in_step.
    + apply IH. right. exact H.
Qed.

Lemma menu_stays_in_step_witness :
  in_step (fst (nav_run unlabelled_menu [KeyDown (lit "Tab"); Click])).
Proof.
  apply menu_stays_in_step. right. reflexivity.
Defined.

(** X19. Keys alone never show a hidden menu and move no focus; a key other
    than Escape does nothing at all.  Two clicks in a row leave the menu
    hidden or shown as it was, and with a link in the menu exactly the
    click that shows it moves the focus to the first link. *)
Theorem menu_keys_and_clicks (m : menu) (es : list nav_event) :
  (existsb is_click es = false -> hidden m = true -> nav_run m es = (m, []))
  /\ (forall key, key <> lit "Escape" -> nav_step m (KeyDown key) = (m, []))
  /\ hidden (fst (nav_run m [Click; Click])) = hidden m
  /\ (has_link m = true ->
      snd (nav_step m Click) = if hidden m then [FocusFirstLink] else []).
Proof.
  split; [|split; [|split]].
  - induction es as [|e es IH]; intros Hk Hh; [reflexivity|].
    destruct e as [|key]; [discriminate Hk|]. simpl in Hk.
    simpl. unfold escapeHandler. rewrite Hh, andb_false_r.
    rewrite (IH Hk Hh). reflexivity.
  - intros key Hne. simpl. unfold escapeHandler.
    destruct (decide (key = lit "Escape")); [contradiction | reflexivity].
  - simpl. apply negb_involutive.
  - intros Hl. simpl. rewrite Hl, negb_involutive. reflexivity.
Qed.

Lemma starts_with_spec (p s : jsstring) :
  starts_with p s = true <-> exists rest, s = p ++ rest.
Proof.
  revert s. induction p as [|a p IH]; intros s; simpl.
  - split; [eauto | reflexivity].
  - destruct s as [|b s].
    + split; [discriminate | intros (rest & H); discriminate H].
    + rewrite andb_true_iff, IH. unfold ascii_eqb. rewrite Ascii.eqb_eq.
      split.
      * intros (-> & rest & ->). eauto.
      * intros (rest & H). injection H as -> ->. eauto.
Qed.

Lemma endsWith_spec (s suffix : jsstring) :
  endsWith s suffix = true <-> exists pre, s = pre ++ suffix.
Proof.
  unfold endsWith. rewrite starts_with_spec. split.
  - intros (rest & H). exists (rev rest).
    rewrite <- (rev_involutive s), H, rev_app_distr, rev_involutive.
    reflexivity.
  - intros (pre & ->). exists (rev pre). apply rev_app_distr.
Qed.

(** X20. [_setActiveNavigation] marks a link by its [href] and the path of
    the page alone, whatever marks it had: the class [active] and
    [aria-current] go together, and marking again changes nothing.  A link
    is marked exactly when the path ends with its [href], or the path ends
    with a slash and the [href] is [index.html]; so a link with an empty
    [href] is marked on every page. *)
Theorem setActiveNavigation_marks (path : jsstring) (links : list link) :
  let ls := _setActiveNavigation path links in
  map href ls = map href links
  /\ Forall (fun l => active l = isActive path (href l)
                      /\ aria_current l
                         = if active l then Some (lit "page") else None) ls
  /\ _setActiveNavigation path ls = ls
  /\ (forall h, isActive path h = true <->
        (exists pre, path = pre ++ h)
        \/ (h = lit "index.html" /\ exists pre, path = pre ++ lit "/"))
  /\ isActive path [] = true.
Proof.
  intros ls. subst ls. unfold _setActiveNavigation.
  split; [|split; [|split; [|split]]].
  - rewrite map_map. apply map_ext. intros l.
    destruct (isActive path (href l)); reflexivity.
  - apply Forall_map, Forall_forall. intros l _.
    destruct (isActive path (href l)) eqn:E; simpl; rewrite E; split;
      reflexivity.
  - rewrite map_map. apply map_ext. intros l.
    destruct (isActive path (href l)) eqn:E; simpl; rewrite E; reflexivity.
  - intros h. unfold isActive.
    rewrite orb_true_iff, andb_true_iff, !endsWith_spec.
    destruct (decide (h = lit "index.html")) as [->|Hne].
    + split; [intros [H|[H _]]; [left|right]; auto | ].
      intros [H|[_ H]]; [left | right]; auto.
    + split; [intros [H|[_ H]]; [left; exact H | discriminate H] | ].
      intros [H|[H _]]; [left; exact H | contradiction].
  - unfold isActive, endsWith. reflexivity.
Qed.

(** ** Calls for one key *)

Lemma lookup_updated_call (s : system) (t : nat) (c : call)
    (ctl ctl' : control) (t0 : nat) (c0 : call) (ctl0 : control) :
  calls s !! t = Some (c, ctl) ->
  <[t := (c, ctl')]> (calls s) !! t0 = Some (c0, ctl0) ->
  (t0 = t /\ c0 = c /\ ctl0 = ctl')
  \/ (t0 <> t /\ calls s !! t0 = Some (c0, ctl0)).
Proof.
  intros Hat H0. destruct (decide (t0 = t)) as [->|Hne].
  - rewrite list_lookup_insert_eq in H0 by (apply (lookup_lt_Some _ _ _ Hat)).
    injection H0 as <- <-. left. auto.
  - rewrite list_lookup_insert_ne in H0 by congruence. right. auto.
Qed.

(** The invariant is kept by a step that leaves the key to whom it was
    and puts the call at a control point [ctl']; a call that begins to
    wait must wait on the promise registered for the key. *)
Lemma single_key_keep (d : dom) (k : jsstring) (s : system) (t : nat)
    (c : call) (ctl ctl' : control) (L : loader) :
  calls s !! t = Some (c, ctl) ->
  injectionLocks L = injectionLocks (ldr s) ->
  _currentReleaseLock L = _currentReleaseLock (ldr s) ->
  resolved L = resolved (ldr s) ->
  (forall k' p, ctl' = Awaiting k' p ->
     k' = k /\ injectionLocks (ldr s) !! k = Some p) ->
  (forall k' todo, ctl' = Running k' todo -> k' = k) ->
  single_key_inv d k s -> single_key_inv d k (set_call s t c ctl' L).
Proof.
  intros Hat E1 E2 E3 Ha Hi (Hd & Hc & Hw & Hr & Hl).
  split; [exact Hd|]. split; [|split; [|split]].
  - intros t0 c0 ctl0 H0.
    apply (lookup_updated_call _ _ _ _ _ _ _ _ Hat) in H0
      as [(-> & -> & ->)|[Hne H0]]; eauto.
  - intros t0 c0 k' p H0.
    apply (lookup_updated_call _ _ _ _ _ _ _ _ Hat) in H0
      as [(-> & -> & E)|[Hne H0]]; [|eauto].
    symmetry in E. apply (Ha _ _ E).
  - intros t0 c0 k' todo H0.
    apply (lookup_updated_call _ _ _ _ _ _ _ _ Hat) in H0
      as [(-> & -> & E)|[Hne H0]]; [|eauto].
    symmetry in E. apply (Hi _ _ E).
  - cbn [ldr set_call]. rewrite E1, E2, E3.
    destruct (injectionLocks (ldr s) !! k) as [q|] eqn:Hk.
    + destruct Hl as [Hq Hl]. split; [exact Hq|].
      intros t0 c0 k' p H0.
      apply (lookup_updated_call _ _ _ _ _ _ _ _ Hat) in H0
        as [(-> & -> & E)|[Hne H0]]; [|eauto].
      symmetry in E. destruct (Ha _ _ E) as [_ Hp].
      right. congruence.
    + intros t0 c0 k' p H0.
      apply (lookup_updated_call _ _ _ _ _ _ _ _ Hat) in H0
        as [(-> & -> & E)|[Hne H0]]; [|eauto].
      symmetry in E. destruct (Ha _ _ E) as [_ Hp]. congruence.
Qed.

Lemma single_key_enter (d : dom) (k : jsstring) (s : system) (t : nat)
    (c : call) (ctl : control) :
  calls s !! t = Some (c, ctl) -> idle ctl ->
  single_key_inv d k s -> single_key_inv d k (enter s t c k).
Proof.
  intros Hat Hi Hinv. unfold enter, _acquireLock.
  destruct (injectionLocks (ldr s) !! k) as [q|] eqn:Hk.
  - apply (single_key_keep d k s t c ctl _ _ Hat); auto.
    + intros k' p E. injection E as <- <-. auto.
    + intros k' todo E. discriminate E.
  - destruct Hinv as (Hd & Hc & Hw & Hr & Hl). rewrite Hk in Hl.
    split; [exact Hd|]. split; [|split; [|split]].
    + intros t0 c0 ctl0 H0.
      apply (lookup_updated_call _ _ _ _ _ _ _ _ Hat) in H0
        as [(-> & -> & ->)|[Hne H0]]; eauto.
    + intros t0 c0 k' p H0.
      apply (lookup_updated_call _ _ _ _ _ _ _ _ Hat) in H0
        as [(-> & -> & E)|[Hne H0]]; [discriminate E | eauto].
    + intros t0 c0 k' todo H0.
      apply (lookup_updated_call _ _ _ _ _ _ _ _ Hat) in H0
        as [(-> & -> & E)|[Hne H0]]; [|eauto].
      injection E as -> _. reflexivity.
    + cbn [ldr set_call injectionLocks _currentReleaseLock resolved].
      rewrite lookup_insert_eq. split; [reflexivity|].
      intros t0 c0 k' p H0.
      apply (lookup_updated_call _ _ _ _ _ _ _ _ Hat) in H0
        as [(-> & -> & E)|[Hne H0]]; [discriminate E|].
      left. eauto.
Qed.

Lemma single_key_release (d : dom) (k : jsstring) (s : system) (t : nat)
    (c : call) (todo : list stage) (ctl' : control) (es : list event) :
  calls s !! t = Some (c, Running k todo) ->
  (forall k' p, ctl' <> Awaiting k' p) -> idle ctl' ->
  single_key_inv d k s ->
  single_key_inv d k
    (set_call s t c ctl' (_releaseLock (add_events (ldr s) es) t k)).
Proof.
  intros Hat Ha Hi (Hd & Hc & Hw & Hr & Hl).
  split; [exact Hd|]. split; [|split; [|split]].
  - intros t0 c0 ctl0 H0.
    apply (lookup_updated_call _ _ _ _ _ _ _ _ Hat) in H0
      as [(-> & -> & ->)|[Hne H0]]; eauto.
  - intros t0 c0 k' p H0.
    apply (lookup_updated_call _ _ _ _ _ _ _ _ Hat) in H0
      as [(-> & -> & E)|[Hne H0]]; [|eauto].
    symmetry in E. exfalso. exact (Ha _ _ E).
  - intros t0 c0 k' todo0 H0.
    apply (lookup_updated_call _ _ _ _ _ _ _ _ Hat) in H0
      as [(-> & -> & E)|[Hne H0]]; [|eauto].
    symmetry in E. exfalso. exact (Hi _ _ E).
  - cbn [ldr set_call injectionLocks _currentReleaseLock resolved
         _releaseLock add_events].
    rewrite lookup_delete_eq.
    intros t0 c0 k' p H0.
    apply (lookup_updated_call _ _ _ _ _ _ _ _ Hat) in H0
      as [(-> & -> & E)|[Hne H0]].
    + symmetry in E. exfalso. exact (Ha _ _ E).
    + destruct (injectionLocks (ldr s) !! k) as [q|].
      * destruct Hl as [Hq Hl]. rewrite Hq.
        destruct (Hl _ _ _ _ H0) as [Hp| ->]; set_solver.
      * pose proof (Hl _ _ _ _ H0) as Hp.
        destruct (_currentReleaseLock (ldr s)); set_solver.
Qed.

Lemma single_key_step (d : dom) (k : jsstring) (s : system) (t : nat)
    (ok : bool) :
  single_key_inv d k s -> single_key_inv d k (step s t ok).
Proof.
  intros Hinv. unfold step.
  destruct (calls s !! t) as [[c ctl]|] eqn:Hat; [|exact Hinv].
  pose proof Hinv as (Hd & Hc & Hw & Hr & Hl).
  destruct ctl as [|k' p|k' [|st todo]| | |]; try exact Hinv.
  - destruct (Hc _ _ _ Hat) as (e & He & Hk). rewrite Hd, He, Hk.
    apply (single_key_enter d k s t c Called Hat); [|exact Hinv].
    intros ? ?; discriminate.
  - case_decide; [|exact Hinv].
    rewrite (Hw _ _ _ _ Hat).
    apply (single_key_enter d k s t c _ Hat); [|exact Hinv].
    intros ? ?; discriminate.
  - pose proof (Hr _ _ _ _ Hat) as ->.
    apply (single_key_release d k s t c [] Returned [] Hat); auto;
      intros ? ?; discriminate.
  - pose proof (Hr _ _ _ _ Hat) as ->. destruct ok.
    + destruct (run_stage_spec (ldr s) t k (call_options c) st)
        as (H1 & H2 & H3 & _).
      apply (single_key_keep d k s t c _ _ _ Hat); auto.
      * intros k' p E. discriminate E.
      * intros k' todo0 E. injection E as -> _. reflexivity.
    + apply (single_key_release d k s t c (st :: todo) _
               [Ev t k (Failed st)] Hat); auto; intros ? ?; discriminate.
Qed.

Lemma single_key_start (d : dom) (k : jsstring) (cs : list call) :
  Forall (targets_key d k) cs -> single_key_inv d k (start d cs).
Proof.
  intros Hall. split; [reflexivity|]. split; [|split; [|split]].
  - intros t c ctl H. simpl in H. rewrite list_lookup_fmap in H.
    destruct (cs !! t) as [c0|] eqn:E; simpl in H; [|discriminate H].
    injection H as <- _.
    exact (Forall_lookup_1 _ _ _ _ Hall E).
  - intros t c k' p H. simpl in H. rewrite list_lookup_fmap in H.
    destruct (cs !! t); simpl in H; discriminate H.
  - intros t c k' todo H. simpl in H. rewrite list_lookup_fmap in H.
    destruct (cs !! t); simpl in H; discriminate H.
  - simpl. rewrite lookup_empty.
    intros t c k' p H. rewrite list_lookup_fmap in H.
    destruct (cs !! t); simpl in H; discriminate H.
Qed.

Lemma single_key_run (d : dom) (k : jsstring) (schedule : list (nat * bool)) :
  forall s, single_key_inv d k s -> single_key_inv d k (run s schedule).
Proof.
  induction schedule as [|[t ok] rest IH]; intros s Hinv; [exact Hinv|].
  simpl. apply IH, single_key_step, Hinv.
Qed.

(** X21. When every call is for the same key, no call is left waiting for
    good.  A call that waits, waits on a promise that is already resolved
    or is the one the present holder of the key resolves on its release;
    and whenever no call is inside its [try] block, a waiting call that is
    run next enters the block. *)
Theorem single_key_waiters_wake (d : dom) (cs : list call)
    (schedule : list (nat * bool)) (k : jsstring) :
  Forall (targets_key d k) cs ->
  let s := run (start d cs) schedule in
  forall t c k' p,
    calls s !! t = Some (c, Awaiting k' p) ->
    k' = k
    /\ (p ∈ resolved (ldr s)
        \/ (injectionLocks (ldr s) !! k = Some p
            /\ _currentReleaseLock (ldr s) = Some p))
    /\ ((forall t' c' k'' todo, calls s !! t' <> Some (c', Running k'' todo)) ->
        forall ok,
          control_of (step s t ok) t
          = Some (Running k (try_block (call_options c)))).
Proof.
  intros Hall s t c k' p Hat.
  pose proof (single_key_run d k schedule _ (single_key_start d k cs Hall))
    as (Hd & Hc & Hw & Hr & Hl).
  fold s in Hd, Hc, Hw, Hr, Hl.
  pose proof (Hw _ _ _ _ Hat) as ->.
  split; [reflexivity|]. split.
  - destruct (injectionLocks (ldr s) !! k) as [q|].
    + destruct Hl as [Hq Hl]. destruct (Hl _ _ _ _ Hat) as [Hp| ->]; auto.
    + left. eauto.
  - intros Hnone ok.
    destruct (inv_run schedule (start d cs) (inv_start d cs))
      as (H & Hlog & Hdom & _ & Hheld).
    fold s in Hlog, Hdom, Hheld.
    assert (Hfree : injectionLocks (ldr s) !! k = None).
    { apply Hdom. destruct (H !! k) as [t'|] eqn:E; [|reflexivity].
      destruct (Hheld _ _ E) as (c' & todo & Ht'). exfalso.
      exact (Hnone _ _ _ _ Ht'). }
    rewrite Hfree in Hl.
    unfold step. rewrite Hat.
    rewrite decide_True by (exact (Hl _ _ _ _ Hat)).
    unfold enter, _acquireLock. rewrite Hfree.
    unfold control_of.
    rewrite (lookup_set_call_eq _ _ _ _ _ _ Hat). reflexivity.
Qed.

Lemma single_key_waiters_wake_witness :
  let s := run (start page_doc same_target_calls) [(0, true); (1, true)] in
  0 ∈ resolved (ldr s)
  \/ (injectionLocks (ldr s) !! lit "navigation:header" = Some 0
      /\ _currentReleaseLock (ldr s) = Some 0).
Proof.
  intros s.
  refine (proj1 (proj2 (single_key_waiters_wake page_doc same_target_calls
                          [(0, true); (1, true)] (lit "navigation:header")
                          _ 1 _ (lit "navigation:header") 0 _))).
  - repeat constructor; exists 1; split; vm_compute; reflexivity.
  - vm_compute. reflexivity.
Defined.

(** ** The release of the lock *)

Lemma neutral_no_lock (t : nat) (k : jsstring) (es : list event) :
  neutral t k es ->
  forall t', List.filter (is_acquisition_of t') es = []
             /\ List.filter (is_release_of t') es = [].
Proof.
  induction 1 as [|e es (a & -> & Ha & Hr) _ IH]; intros t'.
  - split; reflexivity.
  - destruct (IH t') as [E1 E2]. simpl. rewrite E1, E2.
    destruct a; try contradiction; split; reflexivity.
Qed.

Lemma acquisitions_cons (l : list event) (t t' : nat) (k : jsstring)
    (a : action) :
  acquisitions (Ev t' k a :: l) t
  = (if is_acquisition_of t (Ev t' k a) then 1 else 0) + acquisitions l t.
Proof.
  unfold acquisitions. cbn [List.filter].
  destruct (is_acquisition_of t (Ev t' k a)); reflexivity.
Qed.

Lemma releases_cons (l : list event) (t t' : nat) (k : jsstring)
    (a : action) :
  releases (Ev t' k a :: l) t
  = (if is_release_of t (Ev t' k a) then 1 else 0) + releases l t.
Proof.
  unfold releases. cbn [List.filter].
  destruct (is_release_of t (Ev t' k a)); reflexivity.
Qed.

Lemma counts_neutral (t : nat) (k : jsstring) (es l : list event) (t' : nat) :
  neutral t k es ->
  acquisitions (es ++ l) t' = acquisitions l t'
  /\ releases (es ++ l) t' = releases l t'.
Proof.
  intros Hn. destruct (neutral_no_lock t k es Hn t') as [E1 E2].
  unfold acquisitions, releases. rewrite !List.filter_app, E1, E2.
  split; reflexivity.
Qed.

(** A step that changes the control of one call and leaves the counts of
    the others. *)
Lemma lock_counts_set (s : system) (t : nat) (c : call) (ctl ctl' : control)
    (L : loader) :
  calls s !! t = Some (c, ctl) -> lock_counts s ->
  (forall t', t' <> t ->
     acquisitions (log L) t' = acquisitions (log (ldr s)) t'
     /\ releases (log L) t' = releases (log (ldr s)) t') ->
  acquisitions (log L) t = (if has_entered ctl' then 1 else 0) ->
  releases (log L) t = (if has_left ctl' then 1 else 0) ->
  lock_counts (set_call s t c ctl' L).
Proof.
  intros Hat Hcount Hother Ha Hr t0 c0 ctl0 H0.
  destruct (decide (t0 = t)) as [->|Hne].
  - rewrite (lookup_set_call_eq _ _ _ _ _ _ Hat) in H0.
    injection H0 as _ <-. simpl. split; assumption.
  - rewrite lookup_set_call_ne in H0 by exact Hne. simpl.
    destruct (Hother t0 Hne) as [-> ->]. exact (Hcount _ _ _ H0).
Qed.

Lemma lock_counts_enter (s : system) (t : nat) (c : call) (ctl : control)
    (k : jsstring) :
  calls s !! t = Some (c, ctl) -> has_entered ctl = false ->
  lock_counts s -> lock_counts (enter s t c k).
Proof.
  intros Hat Hctl Hcount. destruct (Hcount _ _ _ Hat) as [Ha Hr].
  rewrite Hctl in Ha.
  assert (Hl : has_left ctl = false) by (destruct ctl as [| | | |[]|]; auto;
                                         discriminate Hctl).
  rewrite Hl in Hr.
  unfold enter, _acquireLock.
  destruct (injectionLocks (ldr s) !! k) as [q|].
  - apply (lock_counts_set s t c ctl _ _ Hat Hcount); auto.
  - apply (lock_counts_set s t c ctl _ _ Hat Hcount); simpl.
    + intros t' Hne. rewrite acquisitions_cons, releases_cons. simpl.
      destruct (Nat.eqb_spec t' t); [contradiction|]. split; reflexivity.
    + rewrite acquisitions_cons, Ha. simpl. rewrite Nat.eqb_refl. reflexivity.
    + rewrite releases_cons, Hr. reflexivity.
Qed.

Lemma lock_counts_release (s : system) (t : nat) (c : call) (k : jsstring)
    (todo : list stage) (ctl' : control) (es : list event) :
  calls s !! t = Some (c, Running k todo) -> has_left ctl' = true ->
  neutral t k es -> lock_counts s ->
  lock_counts (set_call s t c ctl' (_releaseLock (add_events (ldr s) es) t k)).
Proof.
  intros Hat Hctl Hes Hcount. destruct (Hcount _ _ _ Hat) as [Ha Hr].
  simpl in Ha, Hr.
  assert (He : has_entered ctl' = true)
    by (destruct ctl' as [| | | |[]|]; auto; discriminate Hctl).
  apply (lock_counts_set s t c _ _ _ Hat Hcount); simpl.
  - intros t' Hne. rewrite acquisitions_cons, releases_cons. simpl.
    destruct (Nat.eqb_spec t' t); [contradiction|].
    apply (counts_neutral t k es _ t' Hes).
  - rewrite acquisitions_cons, He. simpl.
    rewrite (proj1 (counts_neutral t k es _ t Hes)). exact Ha.
  - rewrite releases_cons, Hctl. simpl. rewrite Nat.eqb_refl.
    rewrite (proj2 (counts_neutral t k es _ t Hes)), Hr. reflexivity.
Qed.

Lemma lock_counts_step (s : system) (t : nat) (ok : bool) :
  lock_counts s -> lock_counts (step s t ok).
Proof.
  intros Hcount. unfold step.
  destruct (calls s !! t) as [[c ctl]|] eqn:Hat; [|exact Hcount].
  destruct ctl as [|k p|k [|st todo]| | |]; try exact Hcount.
  - destruct (_resolveTarget (doc s) (call_target c)) as [[e|]|].
    + destruct (_getInstanceKey (doc s) (componentName c) e) as [k|].
      * apply (lock_counts_enter s t c Called k Hat); auto.
      * destruct (Hcount _ _ _ Hat) as [Ha Hr].
        apply (lock_counts_set s t c _ _ _ Hat Hcount); auto.
    + destruct (Hcount _ _ _ Hat) as [Ha Hr].
      apply (lock_counts_set s t c _ _ _ Hat Hcount); auto.
    + destruct (Hcount _ _ _ Hat) as [Ha Hr].
      apply (lock_counts_set s t c _ _ _ Hat Hcount); auto.
  - case_decide; [|exact Hcount].
    apply (lock_counts_enter s t c _ k Hat); auto.
  - apply (lock_counts_release s t c k [] Returned [] Hat); auto.
    constructor.
  - destruct ok.
    + destruct (Hcount _ _ _ Hat) as [Ha Hr].
      destruct (run_stage_spec (ldr s) t k (call_options c) st)
        as (_ & _ & _ & _ & es & H5 & H6).
      apply (lock_counts_set s t c _ _ _ Hat Hcount); rewrite H5.
      * intros t' _. apply (counts_neutral t k es _ t' H6).
      * rewrite (proj1 (counts_neutral t k es _ t H6)). exact Ha.
      * rewrite (proj2 (counts_neutral t k es _ t H6)). exact Hr.
    + apply (lock_counts_release s t c k (st :: todo) _
               [Ev t k (Failed st)] Hat); auto.
      constructor; [|constructor]. eexists. repeat split; discriminate.
Qed.

Lemma lock_counts_run (schedule : list (nat * bool)) :
  forall s, lock_counts s -> lock_counts (run s schedule).
Proof.
  induction schedule as [|[t ok] rest IH]; intros s H; [exact H|].
  simpl. apply IH, lock_counts_step, H.
Qed.

(** X22. The [finally] of [injectComponent] gives the key back exactly once
    for every call that took it, whether the call returned or a stage of
    its [try] block failed.  A call takes a key at most once; a call whose
    target was not found, or that still waits, has taken and released
    nothing; and a call inside the block has taken its key and not yet
    released it. *)
Theorem lock_released_once (d : dom) (cs : list call)
    (schedule : list (nat * bool)) :
  let s := run (start d cs) schedule in
  forall t c ctl,
    calls s !! t = Some (c, ctl) ->
    acquisitions (log (ldr s)) t = (if has_entered ctl then 1 else 0)
    /\ releases (log (ldr s)) t = (if has_left ctl then 1 else 0).
Proof.
  intros s. apply lock_counts_run.
  intros t c ctl H. simpl in H. rewrite list_lookup_fmap in H.
  destruct (cs !! t); simpl in H; [|discriminate H].
  injection H as _ <-. split; reflexivity.
Qed.

Lemma lock_released_once_witness :
  let s := run (start page_doc three_calls) first_call_fails in
  acquisitions (log (ldr s)) 0 = 1 /\ releases (log (ldr s)) 0 = 1.
Proof.
  intros s.
  apply (lock_released_once page_doc three_calls first_call_fails 0
           {| componentName := lit "navigation"; call_target := TElement 1;
              call_options := default_options |}
           (Thrown (StageError LoadFragment))).
  vm_compute. reflexivity.
Defined.

(** ** The stages a call has gone through *)

Lemma stages_done_other (t t' : nat) (k : jsstring) (es l : list event) :
  t' <> t ->
  Forall (fun e => exists a, e = Ev t k a) es ->
  stages_done (es ++ l) t' = stages_done l t'.
Proof.
  intros Hne. induction 1 as [|e es (a & ->) _ IH]; [reflexivity|].
  simpl. rewrite IH.
  destruct a; try reflexivity.
  destruct (Nat.eqb_spec t' t); [contradiction | reflexivity].
Qed.

Lemma stages_done_quiet (t : nat) (k : jsstring) (es l : list event) (t' : nat) :
  Forall (fun e => exists a, e = Ev t k a /\ forall st, a <> Did st) es ->
  stages_done (es ++ l) t' = stages_done l t'.
Proof.
  induction 1 as [|e es (a & -> & Ha) _ IH]; [reflexivity|].
  simpl. rewrite IH.
  destruct a; try reflexivity. exfalso. exact (Ha st eq_refl).
Qed.

(** The events of one stage: the mark of the stage, put last, over the
    detachments or the registrations the stage makes. *)
Lemma run_stage_log (L : loader) (t : nat) (k : jsstring) (o : options)
    (st : stage) :
  exists es,
    log (run_stage L t k o st) = Ev t k (Did st) :: es ++ log L
    /\ Forall (fun e => exists a, e = Ev t k a /\ forall st', a <> Did st') es.
Proof.
  destruct st; simpl;
    try (exists []; split; [reflexivity | constructor]).
  - destruct (cleanup_spec L t k) as (_ & _ & ->).
    eexists. split; [reflexivity|].
    apply Forall_rev, Forall_map, Forall_forall. intros h _.
    eexists. split; [reflexivity | discriminate].
  - destruct (track_all_handlers t k (init_handlers o) L) as (_ & _ & E).
    simpl in E. rewrite E.
    eexists. split; [reflexivity|].
    apply Forall_rev, Forall_map, Forall_forall. intros h _.
    eexists. split; [reflexivity | discriminate].
Qed.

Lemma stage_inv_set (s : system) (t : nat) (c : call) (ctl ctl' : control)
    (L : loader) :
  calls s !! t = Some (c, ctl) -> stage_inv s ->
  (forall t', t' <> t ->
     stages_done (log L) t' = stages_done (log (ldr s)) t') ->
  stages_agree (call_options c) ctl' (stages_done (log L) t) ->
  stage_inv (set_call s t c ctl' L).
Proof.
  intros Hat Hinv Hother Hnew t0 c0 ctl0 H0.
  apply (lookup_updated_call _ _ _ _ _ _ _ _ Hat) in H0
    as [(-> & -> & ->)|[Hne H0]].
  - exact Hnew.
  - cbn [ldr set_call]. rewrite (Hother t0 Hne). exact (Hinv _ _ _ H0).
Qed.

Lemma stage_inv_step (s : system) (t : nat) (ok : bool) :
  stage_inv s -> stage_inv (step s t ok).
Proof.
  intros Hinv. unfold step.
  destruct (calls s !! t) as [[c ctl]|] eqn:Hat; [|exact Hinv].
  pose proof (Hinv _ _ _ Hat) as Hnow.
  destruct ctl as [|k p|k [|st todo]| | |]; try exact Hinv; simpl in Hnow.
  - destruct (_resolveTarget (doc s) (call_target c)) as [[e|]|];
      [destruct (_getInstanceKey (doc s) (componentName c) e) as [k|]| |];
      try (apply (stage_inv_set s t c _ _ _ Hat Hinv); auto).
    unfold enter, _acquireLock.
    destruct (injectionLocks (ldr s) !! k);
      apply (stage_inv_set s t c _ _ _ Hat Hinv); simpl; auto.
    rewrite Hnow. reflexivity.
  - case_decide; [|exact Hinv].
    unfold enter, _acquireLock.
    destruct (injectionLocks (ldr s) !! k);
      apply (stage_inv_set s t c _ _ _ Hat Hinv); simpl; auto.
    rewrite Hnow. reflexivity.
  - apply (stage_inv_set s t c _ _ _ Hat Hinv); simpl; auto.
    rewrite app_nil_r in Hnow. exact Hnow.
  - destruct ok.
    + destruct (run_stage_log (ldr s) t k (call_options c) st)
        as (es & E & Hes).
      apply (stage_inv_set s t c _ _ _ Hat Hinv); rewrite E.
      * intros t' Hne. simpl.
        destruct (Nat.eqb_spec t' t); [contradiction|].
        apply (stages_done_quiet t k es _ t' Hes).
      * simpl. rewrite Nat.eqb_refl.
        rewrite (stages_done_quiet t k es _ t Hes), <- app_assoc.
        exact Hnow.
    + apply (stage_inv_set s t c _ _ _ Hat Hinv); simpl; auto.
      exists todo. exact Hnow.
Qed.

Lemma stage_inv_run (schedule : list (nat * bool)) :
  forall s, stage_inv s -> stage_inv (run s schedule).
Proof.
  induction schedule as [|[t ok] rest IH]; intros s H; [exact H|].
  simpl. apply IH, stage_inv_step, H.
Qed.

(** X23. However the calls are scheduled, every call goes through the
    stages of its [try] block in their order, each once: the stages a
    call has done and those it has still to do make up the block, a call
    that returned has done them all, a call that failed has done exactly
    the stages before the one that failed, and a call that has not entered
    the block has done none. *)
Theorem call_stages_in_order (d : dom) (cs : list call)
    (schedule : list (nat * bool)) :
  let s := run (start d cs) schedule in
  forall t c ctl,
    calls s !! t = Some (c, ctl) ->
    stages_agree (call_options c) ctl (stages_done (log (ldr s)) t).
Proof.
  intros s. apply stage_inv_run.
  intros t c ctl H. simpl in H. rewrite list_lookup_fmap in H.
  destruct (cs !! t); simpl in H; [|discriminate H].
  injection H as _ <-. reflexivity.
Qed.

Lemma call_stages_in_order_witness :
  stages_done
    (log (ldr (run (start page_doc two_calls) first_then_second))) 1
  = try_block default_options.
Proof.
  apply (call_stages_in_order page_doc two_calls first_then_second 1
           {| componentName := lit "footer"; call_target := TElement 2;
              call_options := default_options |} Returned).
  vm_compute. reflexivity.
Defined.

(** ** Transitions *)

(** X24. The two built-in transitions hide the target on the way out and
    show it on the way in: after [out] the opacity is 0, after the
    following [in] it is 1 and the transition is cleared, whatever the
    inline style was before (an opacity set in the markup is not put
    back).  So a replacing injection with such a transition whose content
    fails to be inserted, or whose scripts fail, leaves the target with
    opacity 0: the stages it has done end before the way in. *)
Theorem transition_hides_then_shows (user : style -> direction -> style)
    (sty : style) (name : jsstring) :
  built_in name ->
  let out := fst (_applyTransition user sty (ByName name) DirOut) in
  let back := fst (_applyTransition user out (ByName name) DirIn) in
  st_opacity out = lit "0"
  /\ st_opacity back = lit "1"
  /\ st_transition back = []
  /\ snd (_applyTransition user sty (ByName name) DirOut) = 300
  /\ (forall o done st todo,
        done ++ st :: todo = try_block o ->
        transition o = true -> append o = false ->
        st = InsertContent \/ st = RunScripts ->
        st_opacity (style_after user (ByName name) done sty) = lit "0").
Proof.
  intros Hname out back.
  assert (Hout : forall s0, st_opacity
                   (fst (_applyTransition user s0 (ByName name) DirOut))
                 = lit "0").
  { intros s0. destruct Hname as [-> | ->]; reflexivity. }
  split; [apply Hout|].
  split; [destruct Hname as [-> | ->]; reflexivity|].
  split; [destruct Hname as [-> | ->]; reflexivity|].
  split; [destruct Hname as [-> | ->]; reflexivity|].
  intros o done st todo H Ht Ha Hst.
  unfold try_block in H. rewrite Ht, Ha in H. simpl in H.
  assert (Hdone : exists pre pre',
            done = pre ++ TransitionOut :: pre'
            /\ Forall (fun x => x <> TransitionOut /\ x <> TransitionIn) pre').
  { destruct (executeScripts o), (preserveFocus o && focusWasInTarget o);
      simpl in H;
      destruct Hst as [-> | ->];
      repeat (destruct done as [|? done]; simpl in H;
              [try discriminate H | injection H as -> H]);
      try discriminate H;
      try solve [destruct done; discriminate H];
      try solve [exists [LoadFragment; CleanupHandlers], [];
                 split; [reflexivity | constructor]];
      try solve [exists [LoadFragment; CleanupHandlers], [InsertContent];
                 split; [reflexivity|];
                 repeat constructor; discriminate]. }
  unfold style_after.
  destruct Hdone as (pre & pre' & -> & Hpre').
  rewrite fold_left_app. cbn [fold_left].
  assert (E : forall s1,
            fold_left (stage_style user (ByName name)) pre' s1 = s1).
  { clear -Hpre'. induction Hpre' as [|x pre' [H1 H2] _ IH];
      intros s1; [reflexivity|].
    cbn [fold_left].
    replace (stage_style user (ByName name) s1 x) with s1;
      [apply IH|]. destruct x; try reflexivity; contradiction. }
  rewrite E. apply Hout.
Qed.

Lemma transition_hides_then_shows_witness :
  st_opacity
    (fst (_applyTransition (fun s _ => s)
            (fst (_applyTransition (fun s _ => s) half_shown
                    (ByName (lit "fade")) DirOut))
            (ByName (lit "fade")) DirIn))
  = lit "1".
Proof.
  refine (proj1 (proj2 (transition_hides_then_shows (fun s _ => s) half_shown
                          (lit "fade") _))).
  left. reflexivity.
Defined.

(** X25. A transition that is neither a function nor one of the two names
    is passed over in silence: the style is left as it is and no timer is
    waited for.  A function of the caller is the only thing that acts when
    one is given. *)
Theorem transition_unknown_name (user : style -> direction -> style)
    (sty : style) (name : jsstring) (dir : direction) :
  ~ built_in name ->
  _applyTransition user sty (ByName name) dir = (sty, 0)
  /\ _applyTransition user sty ByFunction dir = (user sty dir, 0)
  /\ forall done, style_after user (ByName name) done sty = sty.
Proof.
  intros Hname.
  assert (E : forall s0 d0, _applyTransition user s0 (ByName name) d0 = (s0, 0)).
  { intros s0 d0. unfold _applyTransition.
    destruct (decide (name = lit "fade")) as [->|_];
      [exfalso; apply Hname; left; reflexivity|].
    destruct (decide (name = lit "slide")) as [->|_];
      [exfalso; apply Hname; right; reflexivity|].
    reflexivity. }
  split; [apply E|]. split; [reflexivity|].
  intros done. unfold style_after. induction done as [|st done IH];
    [reflexivity|].
  cbn [fold_left].
  replace (stage_style user (ByName name) sty st) with sty; [exact IH|].
  destruct st; cbn [stage_style]; rewrite ?E; reflexivity.
Qed.

Lemma transition_unknown_name_witness :
  _applyTransition (fun s _ => s) half_shown (ByName (lit "zoom")) DirOut
  = (half_shown, 0).
Proof.
  refine (proj1 (transition_unknown_name (fun s _ => s) half_shown
                   (lit "zoom") DirOut _)).
  intros [H|H]; discriminate H.
Defined.

(** ** [injectComponent] of the reduced loader *)

(** X26. In the reduced loader an appending injection outside a shadow root
    never succeeds, whatever the two methods the file leaves out do: the
    fragment is loaded and the target found, then the attempt to insert
    the rendered text throws (or the rendering itself does); no markup is
    changed, the initializer is not called and the failure is logged once.
    A replacing injection returns the target exactly when the fragment was
    loaded and rendered, the target exists and both methods return. *)
Theorem reduced_append_fails (host_get : value -> jsstring -> value)
    (host_string : list (jsstring * value) -> option jsstring)
    (cleanup_returns initialize_returns : bool) (d : dom)
    (enableShadowDOM : bool) (load : outcome)
    (componentName targetElementId : jsstring)
    (data : list (jsstring * value)) (shadow : bool) :
  shadow && enableShadowDOM = false ->
  let inject :=
    ReducedInjection.injectComponent host_get host_string cleanup_returns
      initialize_returns d enableShadowDOM load componentName targetElementId
      data in
  snd (inject true shadow) = None
  /\ List.filter ReducedInjection.changes_markup (fst (inject true shadow)) = []
  /\ List.filter ReducedInjection.is_initializer (fst (inject true shadow)) = []
  /\ List.filter (fun e => negb (ReducedInjection.changes_markup e)
                           && negb (ReducedInjection.is_initializer e))
       (fst (inject true shadow))
     = match load, getElementById d targetElementId with
       | Fetched html, Some e =>
           match Reduced._processTemplate host_get host_string html data with
           | Some _ =>
               [ReducedInjection.AdjacentInsertTried e;
                ReducedInjection.FailureLogged componentName]
           | None => [ReducedInjection.FailureLogged componentName]
           end
       | _, _ => [ReducedInjection.FailureLogged componentName]
       end
  /\ (forall e, snd (inject false shadow) = Some e <->
        (exists html,
           load = Fetched html
           /\ is_Some (Reduced._processTemplate host_get host_string html data))
        /\ getElementById d targetElementId = Some e
        /\ cleanup_returns = true /\ initialize_returns = true).
Proof.
  intros Hs inject. subst inject. unfold ReducedInjection.injectComponent.
  rewrite Hs.
  destruct load as [html|err]; simpl.
  - destruct (getElementById d targetElementId) as [e|]; simpl.
    + destruct (Reduced._processTemplate host_get host_string html data)
        as [processed|] eqn:Er.
      * split; [reflexivity|]. split; [reflexivity|]. split; [reflexivity|].
        split; [reflexivity|].
        intros e0. unfold ReducedInjection.finish.
        destruct cleanup_returns, initialize_returns; simpl; split;
          try (intros H; discriminate H);
          try (intros (_ & _ & H1 & H2); discriminate);
          try (intros (_ & H & _); congruence).
        intros H. injection H as <-.
        split; [exists html; split; [reflexivity | rewrite Er; eauto]|].
        auto.
      * split; [reflexivity|]. split; [reflexivity|]. split; [reflexivity|].
        split; [reflexivity|].
        intros e0. destruct cleanup_returns; simpl; split;
          try (intros H; discriminate H);
          try (intros ((html' & E & [x Hx]) & _); injection E as <-;
               rewrite Er in Hx; discriminate Hx);
          try (intros (_ & _ & H1 & _); discriminate H1).
    + repeat (split; [reflexivity|]).
      intros e0. split; [discriminate|].
      intros (_ & H & _). discriminate H.
  - repeat (split; [reflexivity|]).
    intros e0. split; [discriminate|].
    intros ((html & H & _) & _). discriminate H.
Qed.

Lemma reduced_append_fails_witness :
  snd (ReducedInjection.injectComponent plain_host plain_string true true
         page_doc false footer_text (lit "footer") (lit "header") [] true false)
  = None.
Proof.
  refine (proj1 (reduced_append_fails plain_host plain_string true true
                   page_doc false footer_text (lit "footer") (lit "header") []
                   false _)).
  reflexivity.
Defined.

(** ** Injecting the navigation again *)

Lemma inject_navigation_append (k : nat) :
  Nat.iter (S k) (inject_navigation true) [] = S k :: repeat 0 k.
Proof.
  induction k as [|k IH]; [reflexivity|].
  change (Nat.iter (S (S k)) (inject_navigation true) [])
    with (inject_navigation true (Nat.iter (S k) (inject_navigation true) [])).
  rewrite IH. unfold inject_navigation. simpl.
  f_equal. clear IH. induction k as [|k IH]; [reflexivity|].
  simpl. rewrite IH. reflexivity.
Qed.

Lemma click_toggle_twice (k : nat) (m : menu) :
  hidden (click_toggle (2 * k) m) = hidden m
  /\ hidden (click_toggle (S (2 * k)) m) = negb (hidden m).
Proof.
  induction k as [|k [IH1 IH2]]; [split; reflexivity|].
  replace (2 * S k) with (S (S (2 * k))) by lia.
  unfold click_toggle in *. simpl in *.
  rewrite IH1, negb_involutive. split; reflexivity.
Qed.

(** X27. Appending the navigation to a target that holds it already does
    not initialize the new copy: the handlers go to the first toggle of the
    target again.  After [n] appending injections the first toggle carries
    [n] click handlers and the other toggles none, whereas a replacing
    injection always leaves one toggle with one handler.  A click on the
    first toggle then toggles the first menu [n] times: with an even number
    of copies the menu is left hidden or shown as it was. *)
Theorem navigation_appended_again (k : nat) (m : menu) :
  Nat.iter (S k) (inject_navigation true) [] = S k :: repeat 0 k
  /\ (forall toggles, inject_navigation false toggles = [1])
  /\ hidden (click_toggle (2 * k) m) = hidden m
  /\ hidden (click_toggle (S (2 * k)) m) = negb (hidden m)
  /\ in_step (click_toggle (S k) m).
Proof.
  split; [apply inject_navigation_append|].
  split; [reflexivity|].
  split; [apply click_toggle_twice|].
  split; [apply click_toggle_twice|].
  unfold click_toggle. simpl. apply toggleHandler_in_step.
Qed.

(** ** Injections and [destroy] *)
















